(** * MicrochipUpdate: a shallow embedding of the NGRR microchip update tool

    The development follows the source files one module at a time:
    [CSVRow.cpp], [CSVFile.cpp], [Messages.cpp], [Dog.cpp], [Chip.cpp] and
    [MicrochipUpdate.cpp].  C++ [std::string] is [string], [uint32_t] is [N]
    or [Z] and [int32_t] is [Z] with the wrap-around written out, the two
    [unordered_map]s of a [CDogs] collection are [gmap]s from keys to object
    addresses, and the objects themselves live in a heap indexed by address.
    The definitions come first, the properties proved about them follow. *)

From Stdlib Require Import ZArith NArith Ascii String List Bool Lia.
From Stdlib Require Import DecimalString DecimalN DecimalNat DecimalPos.
From stdpp Require Import base gmap list strings.


(* ===================================================================== *)
(** * Characters and strings of the C runtime *)
(* ===================================================================== *)

Module CRT.

Definition code (a : ascii) : N := N_of_ascii a.

Definition in_range (lo hi : N) (a : ascii) : bool :=
  (lo <=? code a)%N && (code a <=? hi)%N.

(** The classification functions of <ctype.h> in the "C" locale. *)
Definition isdigit (a : ascii) : bool := in_range 48 57 a.
Definition isupper (a : ascii) : bool := in_range 65 90 a.
Definition islower (a : ascii) : bool := in_range 97 122 a.
Definition isalpha (a : ascii) : bool := isupper a || islower a.
Definition isalnum (a : ascii) : bool := isalpha a || isdigit a.
Definition isxdigit (a : ascii) : bool :=
  isdigit a || in_range 65 70 a || in_range 97 102 a.
Definition isspace (a : ascii) : bool :=
  in_range 9 13 a || (code a =? 32)%N.

Definition tolower (a : ascii) : ascii :=
  if isupper a then ascii_of_N (code a + 32) else a.

Definition empty (s : string) : bool :=
  match s with EmptyString => true | String _ _ => false end.

(** [s.find(c) != npos] for a character. *)
Fixpoint contains_char (c : ascii) (s : string) : bool :=
  match s with
  | EmptyString => false
  | String a s' => Ascii.eqb a c || contains_char c s'
  end.

(** [s.find(sub) != npos] for a substring. *)
Fixpoint contains (sub s : string) : bool :=
  String.prefix sub s ||
  match s with
  | EmptyString => false
  | String _ s' => contains sub s'
  end.

Fixpoint all_chars (p : ascii -> bool) (s : string) : bool :=
  match s with
  | EmptyString => true
  | String a s' => p a && all_chars p s'
  end.

Fixpoint map_chars (f : ascii -> ascii) (s : string) : string :=
  match s with
  | EmptyString => EmptyString
  | String a s' => String (f a) (map_chars f s')
  end.

(** [std::to_string] and [operator<<] on an unsigned number. *)
Definition to_string (n : N) : string :=
  NilEmpty.string_of_uint (N.to_uint n).

Definition INT_MAX : Z := 2147483647.

Definition digit_value (a : ascii) : Z := Z.of_N (code a) - 48.

Fixpoint digits_value (acc : Z) (s : string) : Z :=
  match s with
  | EmptyString => acc
  | String a s' =>
      if isdigit a then digits_value (10 * acc + digit_value a) s' else acc
  end.

Fixpoint skip_spaces (s : string) : string :=
  match s with
  | String a s' => if isspace a then skip_spaces s' else s
  | EmptyString => s
  end.

(** [std::stoi(s)]: leading white space, an optional sign, then the longest
    run of decimal digits.  [None] stands for the exception the library
    throws ([invalid_argument] when there is no digit, [out_of_range] when
    the value does not fit an [int]). *)
Definition stoi (s : string) : option Z :=
  let s1 := skip_spaces s in
  let '(neg, s2) :=
    match s1 with
    | String "-"%char t => (true, t)
    | String "+"%char t => (false, t)
    | _ => (false, s1)
    end in
  match s2 with
  | String a _ =>
      if isdigit a then
        let v := digits_value 0 s2 in
        let v := if neg then (- v)%Z else v in
        if ((- INT_MAX - 1 <=? v) && (v <=? INT_MAX))%Z then Some v else None
      else None
  | EmptyString => None
  end.

(** Conversions between the 32-bit integer types. *)
Definition to_uint32 (x : Z) : Z := (x mod 2 ^ 32)%Z.
Definition to_int32 (x : Z) : Z :=
  let y := (x mod 2 ^ 32)%Z in if (y <? 2 ^ 31)%Z then y else (y - 2 ^ 32)%Z.

Fixpoint zeros (n : nat) : string :=
  match n with O => EmptyString | S n' => String "0"%char (zeros n') end.

(** The conversion [%0<w>d] of [printf]: at least [w] characters, padded
    with zeros between the sign and the digits. *)
Definition printf_0d (w : nat) (v : Z) : string :=
  let digits := to_string (Z.to_N (Z.abs v)) in
  let sign := if (v <? 0)%Z then "-" else "" in
  sign +:+ zeros (w - String.length sign - String.length digits) +:+ digits.

End CRT.

(* ===================================================================== *)
(** * Regular expressions of <regex>, ECMAScript grammar *)
(* ===================================================================== *)

Module Regex.

(** The part of the grammar the program uses.  A bracket expression or a
    class escape is a predicate on characters; [^] and [$] match at the two
    ends of the subject only (the subjects are fields of a line, they hold no
    line terminator). *)
Inductive regex : Type :=
| Empty : regex
| Chr : ascii -> regex                (* an ordinary character *)
| Class : (ascii -> bool) -> regex    (* \d, \s, [...] *)
| Bol : regex                         (* ^ *)
| Eol : regex                         (* $ *)
| Seq : regex -> regex -> regex
| Opt : regex -> regex                (* r? *)
| Star : regex -> regex               (* r* *)
| Group : nat -> regex -> regex.      (* (r), with its index *)

Fixpoint Repeat (n : nat) (r : regex) : regex :=   (* r{n} *)
  match n with O => Empty | S n' => Seq r (Repeat n' r) end.
Definition Plus (r : regex) : regex := Seq r (Star r).          (* r+ *)
Definition AtLeast (n : nat) (r : regex) : regex :=              (* r{n,} *)
  Seq (Repeat n r) (Star r).
Fixpoint Lit (s : string) : regex :=
  match s with
  | EmptyString => Empty
  | String a s' => Seq (Chr a) (Lit s')
  end.

(** The text of the sub-matches, most recent first. *)
Definition captures : Type := list (nat * string).

Definition consumed (s s' : string) : string :=
  String.substring 0 (String.length s - String.length s') s.

(** The backtracking matcher: [run r n0 s c k] matches [r] at the front of
    [s] (a suffix of a subject of length [n0]) and hands what is left to the
    continuation [k]; quantifiers are greedy, and an iteration of [*] that
    consumes nothing is refused, as in ECMAScript. *)
Fixpoint run (r : regex) (n0 : nat) (s : string) (c : captures)
    (k : string -> captures -> option captures) {struct r} : option captures :=
  match r with
  | Empty => k s c
  | Chr a =>
      match s with
      | String b s' => if Ascii.eqb a b then k s' c else None
      | EmptyString => None
      end
  | Class p =>
      match s with
      | String b s' => if p b then k s' c else None
      | EmptyString => None
      end
  | Bol => if Nat.eqb (String.length s) n0 then k s c else None
  | Eol => if CRT.empty s then k s c else None
  | Seq r1 r2 => run r1 n0 s c (fun s1 c1 => run r2 n0 s1 c1 k)
  | Opt r1 =>
      match run r1 n0 s c k with
      | Some res => Some res
      | None => k s c
      end
  | Star r1 =>
      (fix loop (fuel : nat) (s : string) (c : captures) {struct fuel}
         : option captures :=
         match fuel with
         | O => k s c
         | S fuel' =>
             match run r1 n0 s c (fun s1 c1 =>
                     if Nat.ltb (String.length s1) (String.length s)
                     then loop fuel' s1 c1 else None) with
             | Some res => Some res
             | None => k s c
             end
         end) (String.length s) s c
  | Group i r1 =>
      run r1 n0 s c (fun s1 c1 => k s1 ((i, consumed s s1) :: c1))
  end.

Definition at_end (s : string) (c : captures) : option captures :=
  if CRT.empty s then Some c else None.

Definition anywhere (s : string) (c : captures) : option captures := Some c.

(** [std::regex_match]: the whole subject has to match. *)
Definition regex_match (s : string) (re : regex) : option captures :=
  run re (String.length s) s [] at_end.

(** [std::regex_search]: the first position of the subject at which the
    expression matches. *)
Fixpoint search_from (re : regex) (n0 : nat) (s : string) : option captures :=
  match run re n0 s [] anywhere with
  | Some c => Some c
  | None =>
      match s with
      | EmptyString => None
      | String _ s' => search_from re n0 s'
      end
  end.

Definition regex_search (s : string) (re : regex) : option captures :=
  search_from re (String.length s) s.

(** [match.str(i)]: the text of sub-match [i], empty when it did not take
    part in the match. *)
Fixpoint str (c : captures) (i : nat) : string :=
  match c with
  | [] => EmptyString
  | (j, t) :: c' => if Nat.eqb i j then t else str c' i
  end.

Definition matched (o : option captures) : bool :=
  match o with Some _ => true | None => false end.

End Regex.

(* ===================================================================== *)
(** * CSVRow.cpp: one row of a spreadsheet *)
(* ===================================================================== *)

Definition COMMA : ascii := ","%char.
Definition QUOTE : ascii := "034"%char.

(** [m_vecColumns], the fields of the row in order. *)
Definition CCSVRow : Type := list string.

Definition push_back (s : string) (a : ascii) : string :=
  s +:+ String a EmptyString.

Definition is_blank (a : ascii) : bool :=
  Ascii.eqb a " "%char || Ascii.eqb a "009"%char.

(** [src.find_first_not_of(" \t")], [None] for [npos]. *)
Fixpoint find_first_not_blank (s : string) : option nat :=
  match s with
  | EmptyString => None
  | String a s' =>
      if is_blank a then option_map S (find_first_not_blank s') else Some O
  end.

(** [src.find_last_not_of(" \t")], [None] for [npos]. *)
Fixpoint find_last_not_blank (s : string) : option nat :=
  match s with
  | EmptyString => None
  | String a s' =>
      match find_last_not_blank s' with
      | Some i => Some (S i)
      | None => if is_blank a then None else Some O
      end
  end.

(** [src.substr(pos, count)] for [pos] within the string. *)
Definition substr (s : string) (pos count : nat) : string :=
  String.substring pos count s.

Definition CCSVRow_TrimColumn (src : string) : string :=
  match find_first_not_blank src, find_last_not_blank src with
  | Some start, Some end_ => substr src start (end_ + 1)
  | _, _ => EmptyString
  end.

Fixpoint last_char (s : string) : option ascii :=
  match s with
  | EmptyString => None
  | String a EmptyString => Some a
  | String _ s' => last_char s'
  end.

Definition CCSVRow_RemoveEquals (src : string) : string :=
  match src with
  | EmptyString => src
  | String a dst =>
      if negb (Ascii.eqb a "="%char) then src
      else if Nat.ltb (String.length dst) 2 then dst
      else
        match dst, last_char dst with
        | String q _, Some q' =>
            if negb (Ascii.eqb q QUOTE) || negb (Ascii.eqb q' QUOTE) then dst
            else substr dst 1 (String.length dst - 2)
        | _, _ => dst
        end
  end.

Definition CCSVRow_NeedsQuotes (str : string) : bool :=
  if CRT.contains_char QUOTE str then true
  else if CRT.contains_char COMMA str then true
  else false.

(** The scanning loop of [ParseField]: [it] is what lies at and after the
    iterator; the result is the field and the position the iterator is left
    at (on a comma, or at the end of the line). *)
Fixpoint ParseField_loop (it : string) (fInQuotes fQuoteLast : bool)
    (sResult : string) : string * string :=
  match it with
  | EmptyString => (sResult, it)
  | String ch it' =>
      if Ascii.eqb ch COMMA && negb fInQuotes then (sResult, it)
      else if Ascii.eqb ch QUOTE then
        if negb fInQuotes then
          ParseField_loop it' true false
            (if fQuoteLast then push_back sResult QUOTE else sResult)
        else ParseField_loop it' false true sResult
      else ParseField_loop it' fInQuotes false (push_back sResult ch)
  end.

Definition CCSVRow_ParseField (it : string) : string * string :=
  ParseField_loop it false false EmptyString.

(** The loop of [Parse]; every turn but the last steps over one comma, so
    one more turn than the line has characters is always enough. *)
Fixpoint Parse_loop (fuel : nat) (it : string) (cols : CCSVRow) : CCSVRow :=
  match fuel with
  | O => cols
  | S fuel' =>
      let '(sColumn, it1) := CCSVRow_ParseField it in
      let cols1 :=
        cols ++ [CCSVRow_TrimColumn
                   (CCSVRow_RemoveEquals (CCSVRow_TrimColumn sColumn))] in
      match it1 with
      | EmptyString => cols1
      | String _ it2 => Parse_loop fuel' it2 cols1
      end
  end.

(** [CCSVRow::Parse]: the columns the row holds afterwards. *)
Definition CCSVRow_Parse (str : string) : CCSVRow :=
  if Nat.eqb (String.length str) 0 then []
  else Parse_loop (S (String.length str)) str [].

Fixpoint escape_quotes (col : string) : string :=
  match col with
  | EmptyString => EmptyString
  | String a col' =>
      if Ascii.eqb a QUOTE then String a (String QUOTE (escape_quotes col'))
      else String a (escape_quotes col')
  end.

Definition CCSVRow_FormatField (col : string) : string :=
  if negb (CCSVRow_NeedsQuotes col) then col
  else String QUOTE (escape_quotes col) +:+ String QUOTE EmptyString.

Fixpoint Format_loop (first : bool) (cols : CCSVRow) (sResult : string) : string :=
  match cols with
  | [] => sResult
  | col :: cols' =>
      let sResult := if first then sResult else push_back sResult COMMA in
      Format_loop false cols' (sResult +:+ CCSVRow_FormatField col)
  end.

Definition CCSVRow_Format (row : CCSVRow) : string :=
  Format_loop true row EmptyString.

Fixpoint Verify_loop (a b : CCSVRow) : bool :=
  match a, b with
  | x :: a', y :: b' => if String.eqb x y then Verify_loop a' b' else false
  | _, _ => true
  end.

(** [CCSVRow::Verify(const CCSVRow&)]. *)
Definition CCSVRow_Verify_row (this row : CCSVRow) : bool :=
  if negb (Nat.eqb (length this) (length row)) then false
  else Verify_loop this row.

(** [CCSVRow::Verify(const string&)]. *)
Definition CCSVRow_Verify (this : CCSVRow) (str : string) : bool :=
  CCSVRow_Verify_row this (CCSVRow_Parse str).

(* ===================================================================== *)
(** * Results of calls that may not return normally *)
(* ===================================================================== *)

(** A call returns, or the run ends: [ERRS] reports a fatal error, a library
    function throws an exception nobody catches, or an [assert] fails. *)
Inductive outcome (A : Type) : Type :=
| Returns : A -> outcome A
| Fatal : string -> outcome A
| Throws : string -> outcome A
| AssertFails : outcome A.
Arguments Returns {A} _.
Arguments Fatal {A} _.
Arguments Throws {A} _.
Arguments AssertFails {A}.

Global Instance outcome_ret : MRet outcome := fun A a => Returns a.

Global Instance outcome_bind : MBind outcome := fun A B f m =>
  match m with
  | Returns a => f a
  | Fatal msg => Fatal msg
  | Throws what => Throws what
  | AssertFails => AssertFails
  end.

(** The value of a library call that throws when it has none. *)
Definition or_throw {A : Type} (what : string) (o : option A) : outcome A :=
  match o with Some a => Returns a | None => Throws what end.

(* ===================================================================== *)
(** * Dog.hpp: the dog record and the dog collection *)
(* ===================================================================== *)

Definition MAXDOG : N := 99999.
Definition TOTAL_OLD_COLUMNS : nat := 35.
Definition TOTAL_NEW_COLUMNS : nat := 36.

(** The data members of [CDog], in the order of their declaration. *)
Record CDog : Type := mkCDog {
  m_nNumber : N;
  m_sName : string;
  m_sMicrochip : string;
  m_sAge : string;
  m_sSex : string;
  m_sNeuter : string;
  m_sStatus : string;
  m_sLocation : string;
  m_sHowAcquired : string;
  m_sDateAcquired : string;
  m_sPrimaryContactFName : string;
  m_sPrimaryContactLName : string;
  m_sSurrenderFName : string;
  m_sSurrenderLName : string;
  m_sSurrenderAddress : string;
  m_sSurrenderCity : string;
  m_sSurrenderState : string;
  m_sSurrenderZipCode : string;
  m_sOriginatingArea : string;
  m_sAdoptionFName : string;
  m_sAdoptionLName : string;
  m_sACFName : string;
  m_sACLName : string;
  m_sAdoptionAddress : string;
  m_sAdoptionCity : string;
  m_sAdoptionState : string;
  m_sAdoptionZip : string;
  m_sAdoptionArea : string;
  m_sAdoptioneMail : string;
  m_sAdoptionHomePhone : string;
  m_sAdoptionWorkPhone : string;
  m_sAdoptionCellPhone : string;
  m_sAdoptionStatus : string;
  m_sDispositionDate : string;
  m_fUpdateRequired : bool
}.

(** Assignment to one data member. *)
Definition set_m_sSex (v : string) (d : CDog) : CDog :=
  {| m_nNumber := m_nNumber d; m_sName := m_sName d;
     m_sMicrochip := m_sMicrochip d; m_sAge := m_sAge d; m_sSex := v;
     m_sNeuter := m_sNeuter d; m_sStatus := m_sStatus d;
     m_sLocation := m_sLocation d; m_sHowAcquired := m_sHowAcquired d;
     m_sDateAcquired := m_sDateAcquired d;
     m_sPrimaryContactFName := m_sPrimaryContactFName d;
     m_sPrimaryContactLName := m_sPrimaryContactLName d;
     m_sSurrenderFName := m_sSurrenderFName d;
     m_sSurrenderLName := m_sSurrenderLName d;
     m_sSurrenderAddress := m_sSurrenderAddress d;
     m_sSurrenderCity := m_sSurrenderCity d;
     m_sSurrenderState := m_sSurrenderState d;
     m_sSurrenderZipCode := m_sSurrenderZipCode d;
     m_sOriginatingArea := m_sOriginatingArea d;
     m_sAdoptionFName := m_sAdoptionFName d;
     m_sAdoptionLName := m_sAdoptionLName d; m_sACFName := m_sACFName d;
     m_sACLName := m_sACLName d; m_sAdoptionAddress := m_sAdoptionAddress d;
     m_sAdoptionCity := m_sAdoptionCity d;
     m_sAdoptionState := m_sAdoptionState d; m_sAdoptionZip := m_sAdoptionZip d;
     m_sAdoptionArea := m_sAdoptionArea d;
     m_sAdoptioneMail := m_sAdoptioneMail d;
     m_sAdoptionHomePhone := m_sAdoptionHomePhone d;
     m_sAdoptionWorkPhone := m_sAdoptionWorkPhone d;
     m_sAdoptionCellPhone := m_sAdoptionCellPhone d;
     m_sAdoptionStatus := m_sAdoptionStatus d;
     m_sDispositionDate := m_sDispositionDate d;
     m_fUpdateRequired := m_fUpdateRequired d |}.

Definition set_m_sNeuter (v : string) (d : CDog) : CDog :=
  {| m_nNumber := m_nNumber d; m_sName := m_sName d;
     m_sMicrochip := m_sMicrochip d; m_sAge := m_sAge d; m_sSex := m_sSex d;
     m_sNeuter := v; m_sStatus := m_sStatus d; m_sLocation := m_sLocation d;
     m_sHowAcquired := m_sHowAcquired d; m_sDateAcquired := m_sDateAcquired d;
     m_sPrimaryContactFName := m_sPrimaryContactFName d;
     m_sPrimaryContactLName := m_sPrimaryContactLName d;
     m_sSurrenderFName := m_sSurrenderFName d;
     m_sSurrenderLName := m_sSurrenderLName d;
     m_sSurrenderAddress := m_sSurrenderAddress d;
     m_sSurrenderCity := m_sSurrenderCity d;
     m_sSurrenderState := m_sSurrenderState d;
     m_sSurrenderZipCode := m_sSurrenderZipCode d;
     m_sOriginatingArea := m_sOriginatingArea d;
     m_sAdoptionFName := m_sAdoptionFName d;
     m_sAdoptionLName := m_sAdoptionLName d; m_sACFName := m_sACFName d;
     m_sACLName := m_sACLName d; m_sAdoptionAddress := m_sAdoptionAddress d;
     m_sAdoptionCity := m_sAdoptionCity d;
     m_sAdoptionState := m_sAdoptionState d; m_sAdoptionZip := m_sAdoptionZip d;
     m_sAdoptionArea := m_sAdoptionArea d;
     m_sAdoptioneMail := m_sAdoptioneMail d;
     m_sAdoptionHomePhone := m_sAdoptionHomePhone d;
     m_sAdoptionWorkPhone := m_sAdoptionWorkPhone d;
     m_sAdoptionCellPhone := m_sAdoptionCellPhone d;
     m_sAdoptionStatus := m_sAdoptionStatus d;
     m_sDispositionDate := m_sDispositionDate d;
     m_fUpdateRequired := m_fUpdateRequired d |}.

Definition set_m_sAdoptionState (v : string) (d : CDog) : CDog :=
  {| m_nNumber := m_nNumber d; m_sName := m_sName d;
     m_sMicrochip := m_sMicrochip d; m_sAge := m_sAge d; m_sSex := m_sSex d;
     m_sNeuter := m_sNeuter d; m_sStatus := m_sStatus d;
     m_sLocation := m_sLocation d; m_sHowAcquired := m_sHowAcquired d;
     m_sDateAcquired := m_sDateAcquired d;
     m_sPrimaryContactFName := m_sPrimaryContactFName d;
     m_sPrimaryContactLName := m_sPrimaryContactLName d;
     m_sSurrenderFName := m_sSurrenderFName d;
     m_sSurrenderLName := m_sSurrenderLName d;
     m_sSurrenderAddress := m_sSurrenderAddress d;
     m_sSurrenderCity := m_sSurrenderCity d;
     m_sSurrenderState := m_sSurrenderState d;
     m_sSurrenderZipCode := m_sSurrenderZipCode d;
     m_sOriginatingArea := m_sOriginatingArea d;
     m_sAdoptionFName := m_sAdoptionFName d;
     m_sAdoptionLName := m_sAdoptionLName d; m_sACFName := m_sACFName d;
     m_sACLName := m_sACLName d; m_sAdoptionAddress := m_sAdoptionAddress d;
     m_sAdoptionCity := m_sAdoptionCity d; m_sAdoptionState := v;
     m_sAdoptionZip := m_sAdoptionZip d; m_sAdoptionArea := m_sAdoptionArea d;
     m_sAdoptioneMail := m_sAdoptioneMail d;
     m_sAdoptionHomePhone := m_sAdoptionHomePhone d;
     m_sAdoptionWorkPhone := m_sAdoptionWorkPhone d;
     m_sAdoptionCellPhone := m_sAdoptionCellPhone d;
     m_sAdoptionStatus := m_sAdoptionStatus d;
     m_sDispositionDate := m_sDispositionDate d;
     m_fUpdateRequired := m_fUpdateRequired d |}.

Definition set_m_sAdoptionZip (v : string) (d : CDog) : CDog :=
  {| m_nNumber := m_nNumber d; m_sName := m_sName d;
     m_sMicrochip := m_sMicrochip d; m_sAge := m_sAge d; m_sSex := m_sSex d;
     m_sNeuter := m_sNeuter d; m_sStatus := m_sStatus d;
     m_sLocation := m_sLocation d; m_sHowAcquired := m_sHowAcquired d;
     m_sDateAcquired := m_sDateAcquired d;
     m_sPrimaryContactFName := m_sPrimaryContactFName d;
     m_sPrimaryContactLName := m_sPrimaryContactLName d;
     m_sSurrenderFName := m_sSurrenderFName d;
     m_sSurrenderLName := m_sSurrenderLName d;
     m_sSurrenderAddress := m_sSurrenderAddress d;
     m_sSurrenderCity := m_sSurrenderCity d;
     m_sSurrenderState := m_sSurrenderState d;
     m_sSurrenderZipCode := m_sSurrenderZipCode d;
     m_sOriginatingArea := m_sOriginatingArea d;
     m_sAdoptionFName := m_sAdoptionFName d;
     m_sAdoptionLName := m_sAdoptionLName d; m_sACFName := m_sACFName d;
     m_sACLName := m_sACLName d; m_sAdoptionAddress := m_sAdoptionAddress d;
     m_sAdoptionCity := m_sAdoptionCity d;
     m_sAdoptionState := m_sAdoptionState d; m_sAdoptionZip := v;
     m_sAdoptionArea := m_sAdoptionArea d;
     m_sAdoptioneMail := m_sAdoptioneMail d;
     m_sAdoptionHomePhone := m_sAdoptionHomePhone d;
     m_sAdoptionWorkPhone := m_sAdoptionWorkPhone d;
     m_sAdoptionCellPhone := m_sAdoptionCellPhone d;
     m_sAdoptionStatus := m_sAdoptionStatus d;
     m_sDispositionDate := m_sDispositionDate d;
     m_fUpdateRequired := m_fUpdateRequired d |}.

Definition set_m_sAdoptioneMail (v : string) (d : CDog) : CDog :=
  {| m_nNumber := m_nNumber d; m_sName := m_sName d;
     m_sMicrochip := m_sMicrochip d; m_sAge := m_sAge d; m_sSex := m_sSex d;
     m_sNeuter := m_sNeuter d; m_sStatus := m_sStatus d;
     m_sLocation := m_sLocation d; m_sHowAcquired := m_sHowAcquired d;
     m_sDateAcquired := m_sDateAcquired d;
     m_sPrimaryContactFName := m_sPrimaryContactFName d;
     m_sPrimaryContactLName := m_sPrimaryContactLName d;
     m_sSurrenderFName := m_sSurrenderFName d;
     m_sSurrenderLName := m_sSurrenderLName d;
     m_sSurrenderAddress := m_sSurrenderAddress d;
     m_sSurrenderCity := m_sSurrenderCity d;
     m_sSurrenderState := m_sSurrenderState d;
     m_sSurrenderZipCode := m_sSurrenderZipCode d;
     m_sOriginatingArea := m_sOriginatingArea d;
     m_sAdoptionFName := m_sAdoptionFName d;
     m_sAdoptionLName := m_sAdoptionLName d; m_sACFName := m_sACFName d;
     m_sACLName := m_sACLName d; m_sAdoptionAddress := m_sAdoptionAddress d;
     m_sAdoptionCity := m_sAdoptionCity d;
     m_sAdoptionState := m_sAdoptionState d; m_sAdoptionZip := m_sAdoptionZip d;
     m_sAdoptionArea := m_sAdoptionArea d; m_sAdoptioneMail := v;
     m_sAdoptionHomePhone := m_sAdoptionHomePhone d;
     m_sAdoptionWorkPhone := m_sAdoptionWorkPhone d;
     m_sAdoptionCellPhone := m_sAdoptionCellPhone d;
     m_sAdoptionStatus := m_sAdoptionStatus d;
     m_sDispositionDate := m_sDispositionDate d;
     m_fUpdateRequired := m_fUpdateRequired d |}.

Definition set_m_sAdoptionHomePhone (v : string) (d : CDog) : CDog :=
  {| m_nNumber := m_nNumber d; m_sName := m_sName d;
     m_sMicrochip := m_sMicrochip d; m_sAge := m_sAge d; m_sSex := m_sSex d;
     m_sNeuter := m_sNeuter d; m_sStatus := m_sStatus d;
     m_sLocation := m_sLocation d; m_sHowAcquired := m_sHowAcquired d;
     m_sDateAcquired := m_sDateAcquired d;
     m_sPrimaryContactFName := m_sPrimaryContactFName d;
     m_sPrimaryContactLName := m_sPrimaryContactLName d;
     m_sSurrenderFName := m_sSurrenderFName d;
     m_sSurrenderLName := m_sSurrenderLName d;
     m_sSurrenderAddress := m_sSurrenderAddress d;
     m_sSurrenderCity := m_sSurrenderCity d;
     m_sSurrenderState := m_sSurrenderState d;
     m_sSurrenderZipCode := m_sSurrenderZipCode d;
     m_sOriginatingArea := m_sOriginatingArea d;
     m_sAdoptionFName := m_sAdoptionFName d;
     m_sAdoptionLName := m_sAdoptionLName d; m_sACFName := m_sACFName d;
     m_sACLName := m_sACLName d; m_sAdoptionAddress := m_sAdoptionAddress d;
     m_sAdoptionCity := m_sAdoptionCity d;
     m_sAdoptionState := m_sAdoptionState d; m_sAdoptionZip := m_sAdoptionZip d;
     m_sAdoptionArea := m_sAdoptionArea d;
     m_sAdoptioneMail := m_sAdoptioneMail d; m_sAdoptionHomePhone := v;
     m_sAdoptionWorkPhone := m_sAdoptionWorkPhone d;
     m_sAdoptionCellPhone := m_sAdoptionCellPhone d;
     m_sAdoptionStatus := m_sAdoptionStatus d;
     m_sDispositionDate := m_sDispositionDate d;
     m_fUpdateRequired := m_fUpdateRequired d |}.

Definition set_m_sAdoptionWorkPhone (v : string) (d : CDog) : CDog :=
  {| m_nNumber := m_nNumber d; m_sName := m_sName d;
     m_sMicrochip := m_sMicrochip d; m_sAge := m_sAge d; m_sSex := m_sSex d;
     m_sNeuter := m_sNeuter d; m_sStatus := m_sStatus d;
     m_sLocation := m_sLocation d; m_sHowAcquired := m_sHowAcquired d;
     m_sDateAcquired := m_sDateAcquired d;
     m_sPrimaryContactFName := m_sPrimaryContactFName d;
     m_sPrimaryContactLName := m_sPrimaryContactLName d;
     m_sSurrenderFName := m_sSurrenderFName d;
     m_sSurrenderLName := m_sSurrenderLName d;
     m_sSurrenderAddress := m_sSurrenderAddress d;
     m_sSurrenderCity := m_sSurrenderCity d;
     m_sSurrenderState := m_sSurrenderState d;
     m_sSurrenderZipCode := m_sSurrenderZipCode d;
     m_sOriginatingArea := m_sOriginatingArea d;
     m_sAdoptionFName := m_sAdoptionFName d;
     m_sAdoptionLName := m_sAdoptionLName d; m_sACFName := m_sACFName d;
     m_sACLName := m_sACLName d; m_sAdoptionAddress := m_sAdoptionAddress d;
     m_sAdoptionCity := m_sAdoptionCity d;
     m_sAdoptionState := m_sAdoptionState d; m_sAdoptionZip := m_sAdoptionZip d;
     m_sAdoptionArea := m_sAdoptionArea d;
     m_sAdoptioneMail := m_sAdoptioneMail d;
     m_sAdoptionHomePhone := m_sAdoptionHomePhone d; m_sAdoptionWorkPhone := v;
     m_sAdoptionCellPhone := m_sAdoptionCellPhone d;
     m_sAdoptionStatus := m_sAdoptionStatus d;
     m_sDispositionDate := m_sDispositionDate d;
     m_fUpdateRequired := m_fUpdateRequired d |}.

Definition set_m_sAdoptionCellPhone (v : string) (d : CDog) : CDog :=
  {| m_nNumber := m_nNumber d; m_sName := m_sName d;
     m_sMicrochip := m_sMicrochip d; m_sAge := m_sAge d; m_sSex := m_sSex d;
     m_sNeuter := m_sNeuter d; m_sStatus := m_sStatus d;
     m_sLocation := m_sLocation d; m_sHowAcquired := m_sHowAcquired d;
     m_sDateAcquired := m_sDateAcquired d;
     m_sPrimaryContactFName := m_sPrimaryContactFName d;
     m_sPrimaryContactLName := m_sPrimaryContactLName d;
     m_sSurrenderFName := m_sSurrenderFName d;
     m_sSurrenderLName := m_sSurrenderLName d;
     m_sSurrenderAddress := m_sSurrenderAddress d;
     m_sSurrenderCity := m_sSurrenderCity d;
     m_sSurrenderState := m_sSurrenderState d;
     m_sSurrenderZipCode := m_sSurrenderZipCode d;
     m_sOriginatingArea := m_sOriginatingArea d;
     m_sAdoptionFName := m_sAdoptionFName d;
     m_sAdoptionLName := m_sAdoptionLName d; m_sACFName := m_sACFName d;
     m_sACLName := m_sACLName d; m_sAdoptionAddress := m_sAdoptionAddress d;
     m_sAdoptionCity := m_sAdoptionCity d;
     m_sAdoptionState := m_sAdoptionState d; m_sAdoptionZip := m_sAdoptionZip d;
     m_sAdoptionArea := m_sAdoptionArea d;
     m_sAdoptioneMail := m_sAdoptioneMail d;
     m_sAdoptionHomePhone := m_sAdoptionHomePhone d;
     m_sAdoptionWorkPhone := m_sAdoptionWorkPhone d; m_sAdoptionCellPhone := v;
     m_sAdoptionStatus := m_sAdoptionStatus d;
     m_sDispositionDate := m_sDispositionDate d;
     m_fUpdateRequired := m_fUpdateRequired d |}.

Definition SetUpdateRequired_to (v : bool) (d : CDog) : CDog :=
  {| m_nNumber := m_nNumber d; m_sName := m_sName d;
     m_sMicrochip := m_sMicrochip d; m_sAge := m_sAge d; m_sSex := m_sSex d;
     m_sNeuter := m_sNeuter d; m_sStatus := m_sStatus d;
     m_sLocation := m_sLocation d; m_sHowAcquired := m_sHowAcquired d;
     m_sDateAcquired := m_sDateAcquired d;
     m_sPrimaryContactFName := m_sPrimaryContactFName d;
     m_sPrimaryContactLName := m_sPrimaryContactLName d;
     m_sSurrenderFName := m_sSurrenderFName d;
     m_sSurrenderLName := m_sSurrenderLName d;
     m_sSurrenderAddress := m_sSurrenderAddress d;
     m_sSurrenderCity := m_sSurrenderCity d;
     m_sSurrenderState := m_sSurrenderState d;
     m_sSurrenderZipCode := m_sSurrenderZipCode d;
     m_sOriginatingArea := m_sOriginatingArea d;
     m_sAdoptionFName := m_sAdoptionFName d;
     m_sAdoptionLName := m_sAdoptionLName d; m_sACFName := m_sACFName d;
     m_sACLName := m_sACLName d; m_sAdoptionAddress := m_sAdoptionAddress d;
     m_sAdoptionCity := m_sAdoptionCity d;
     m_sAdoptionState := m_sAdoptionState d; m_sAdoptionZip := m_sAdoptionZip d;
     m_sAdoptionArea := m_sAdoptionArea d;
     m_sAdoptioneMail := m_sAdoptioneMail d;
     m_sAdoptionHomePhone := m_sAdoptionHomePhone d;
     m_sAdoptionWorkPhone := m_sAdoptionWorkPhone d;
     m_sAdoptionCellPhone := m_sAdoptionCellPhone d;
     m_sAdoptionStatus := m_sAdoptionStatus d;
     m_sDispositionDate := m_sDispositionDate d; m_fUpdateRequired := v |}.

Definition GetNumber (d : CDog) : N := m_nNumber d.
Definition GetChip (d : CDog) : string := m_sMicrochip d.
Definition HasChip (d : CDog) : bool := negb (CRT.empty (m_sMicrochip d)).
Definition GetName (d : CDog) : string := m_sName d.
Definition GetSex (d : CDog) : string := m_sSex d.
Definition GetStatus (d : CDog) : string := m_sStatus d.
Definition GetDateAcquired (d : CDog) : string := m_sDateAcquired d.
Definition GetDispositionDate (d : CDog) : string := m_sDispositionDate d.
Definition GetAdoptionFName (d : CDog) : string := m_sAdoptionFName d.
Definition GetAdoptionLName (d : CDog) : string := m_sAdoptionLName d.

Definition IsEuthanized (d : CDog) : bool := CRT.contains "Euthanized" (m_sStatus d).
Definition IsDied (d : CDog) : bool := CRT.contains "Died" (m_sStatus d).
Definition IsDead (d : CDog) : bool := IsEuthanized d || IsDied d.
Definition IsReturned (d : CDog) : bool := CRT.contains "Returned" (m_sStatus d).
Definition IsAdopted (d : CDog) : bool :=
  negb (CRT.empty (m_sAdoptionFName d)) || negb (CRT.empty (m_sAdoptionLName d)).
Definition IsUpdateRequired (d : CDog) : bool := m_fUpdateRequired d.
Definition SetUpdateRequired (d : CDog) : CDog := SetUpdateRequired_to true d.

(** [CDog::GetResponsiblePerson] (Dog.cpp). *)
Definition GetResponsiblePerson (d : CDog) : string :=
  if negb (CRT.empty (m_sPrimaryContactFName d))
     || negb (CRT.empty (m_sPrimaryContactLName d))
  then m_sPrimaryContactFName d +:+ " " +:+ m_sPrimaryContactLName d
  else if negb (CRT.empty (m_sACFName d)) || negb (CRT.empty (m_sACLName d))
  then m_sACFName d +:+ " " +:+ m_sACLName d
  else if negb (CRT.empty (m_sLocation d)) then m_sLocation d
  else m_sOriginatingArea d.

(** Objects are named by their address; [None] is the null pointer. *)
Abbreviation ptr := positive.

(** The two hash tables of a [CDogs] collection. *)
Record CDogs : Type := mkCDogs {
  m_mapNumber : gmap N ptr;
  m_mapChip : gmap string ptr
}.

(** The [CDog] objects of the free store. *)
Definition heap : Type := ptr -> CDog.

Definition store (h : heap) (p : ptr) (d : CDog) : heap :=
  fun q => if Pos.eqb q p then d else h q.

(* ===================================================================== *)
(** * Messages.hpp and Messages.cpp: what the run reports *)
(* ===================================================================== *)

(** The lines written to the console and the rows collected by the
    [CBadDogs] singleton, oldest first. *)
Record Log : Type := mkLog {
  console : list string;
  bad_dogs : list CCSVRow
}.

Definition no_messages : Log := {| console := []; bad_dogs := [] |}.

(** Modelled from the spec: the macro [MSGS] of Messages.hpp, which is not
    among the sources; it writes one informational line and returns (the
    program uses it for its progress reports). *)
Definition MSGS (msg : string) (log : Log) : Log :=
  {| console := console log ++ [msg]; bad_dogs := bad_dogs log |}.

(** Modelled from the spec: the macro [ERRS] of Messages.hpp, which is not
    among the sources; it reports a fatal error and the run stops there. *)
Definition ERRS {A : Type} (msg : string) : outcome A := Fatal msg.

(** [CBadDogs::AddError]; the column numbers are declared in Messages.hpp,
    which is not among the sources, and are taken in the order of
    [m_sColumnHeaders], "Name,Number,Contact Member,Error". *)
Definition CBadDogs_AddError (d : CDog) (sMsg : string) (log : Log) : Log :=
  let log := MSGS ("dog " +:+ GetName d +:+ " #" +:+ CRT.to_string (GetNumber d)
                   +:+ " contact " +:+ GetResponsiblePerson d +:+ " - " +:+ sMsg)
               log in
  let row := [GetName d; CRT.to_string (GetNumber d);
              GetResponsiblePerson d; sMsg] in
  {| console := console log; bad_dogs := bad_dogs log ++ [row] |}.

(** Modelled from the spec: the macro [BADDOGS] of Messages.hpp, which is
    not among the sources; it hands the dog and the formatted message to
    the diagnostics collector. *)
Definition BADDOGS (d : CDog) (sMsg : string) (log : Log) : Log :=
  CBadDogs_AddError d sMsg log.

(* ===================================================================== *)
(** * CSVFile.cpp: a collection of rows *)
(* ===================================================================== *)

(** An input stream: the characters not read yet and the end-of-file bit. *)
Record istream : Type := mkIstream {
  buf : string;
  eofbit : bool
}.

(** [std::getline] on a good stream: the characters up to the next newline,
    which is consumed; running into the end of the input sets [eofbit]. *)
Fixpoint getline_loop (s : string) (str : string) : string * istream :=
  match s with
  | EmptyString => (str, {| buf := EmptyString; eofbit := true |})
  | String a s' =>
      if Ascii.eqb a "010"%char then (str, {| buf := s'; eofbit := false |})
      else getline_loop s' (push_back str a)
  end.

Definition getline (stm : istream) : string * istream :=
  getline_loop (buf stm) EmptyString.

(** [CCSVRow::Read], that is [stm >> row]: nothing happens to the row once
    the stream is at its end. *)
Definition CCSVRow_Read (stm : istream) (row : CCSVRow) : CCSVRow * istream :=
  if eofbit stm then (row, stm)
  else let '(str, stm') := getline stm in (CCSVRow_Parse str, stm').

Definition uint32_incr (n : N) : N := ((n + 1) mod 2 ^ 32)%N.

(** The [for (;;)] loop of [CCSVFile::Read]; [None] when [fuel] turns were
    not enough to reach the [break]. *)
Fixpoint Read_loop (fuel : nat) (stm : istream) (row : CCSVRow)
    (nCols : nat) (nLines : N) (m_vecRows : list CCSVRow) (log : Log)
    : option (list CCSVRow * Log) :=
  match fuel with
  | O => None
  | S fuel' =>
      let '(row, stm) := CCSVRow_Read stm row in
      if eofbit stm && Nat.eqb (length row) 0 then Some (m_vecRows, log)
      else
        let nLines := uint32_incr nLines in
        let log :=
          if Nat.ltb 0 nCols && negb (Nat.eqb (length row) nCols)
          then MSGS ("CCSVFile::Read() wrong number of columns in line "
                     +:+ CRT.to_string nLines) log
          else log in
        Read_loop fuel' stm row nCols nLines (m_vecRows ++ [row]) log
  end.

(** [CCSVFile::Read(istream&, const string)]: the rows of the file
    afterwards and what was reported. *)
Definition CCSVFile_Read (fuel : nat) (stm : istream) (sHeader : string)
    (m_vecRows : list CCSVRow) (log : Log) : option (list CCSVRow * Log) :=
  let row : CCSVRow := [] in
  let nCols := 0%nat in
  let nLines := 0%N in
  let '(stm, row, nCols, nLines, log) :=
    if negb (CRT.empty sHeader) then
      let '(row, stm) := CCSVRow_Read stm row in
      let nCols := length row in
      let nLines := uint32_incr nLines in
      let log :=
        if negb (CCSVRow_Verify row sHeader)
        then MSGS "CCSVFile::Read() header does not match" log
        else log in
      (stm, row, nCols, nLines, log)
    else (stm, row, nCols, nLines, log) in
  Read_loop fuel stm row nCols nLines m_vecRows log.

(** [CCSVFile::Read(const string&, const string)]: [open] is the file
    system, [None] for a file that cannot be opened. *)
Definition CCSVFile_Read_file (fuel : nat) (open : string -> option string)
    (sFileName sHeader : string) (m_vecRows : list CCSVRow) (log : Log)
    : option (outcome (list CCSVRow * Log)) :=
  match open sFileName with
  | None => Some (ERRS ("CCSVFile::Read() unable to open " +:+ sFileName))
  | Some text =>
      option_map Returns
        (CCSVFile_Read fuel {| buf := text; eofbit := false |} sHeader
           m_vecRows log)
  end.

(** ** Writing (CSVRow.hpp, CSVFile.cpp) *)

(** An output stream: the characters written so far. *)
Definition ostream : Type := string.

(** [std::endl]. *)
Definition endl : string := String "010"%char EmptyString.

(** [CCSVRow::Write], that is [stm << row]. *)
Definition CCSVRow_Write (row : CCSVRow) (stm : ostream) : ostream :=
  stm +:+ CCSVRow_Format row +:+ endl.

(** [CCSVFile::Write(ostream&, const string)]: the stream afterwards and the
    number of rows. *)
Definition CCSVFile_Write (m_vecRows : list CCSVRow) (stm : ostream)
    (sHeader : string) : ostream * nat :=
  (* First, write the header (if we have one) ... *)
  let stm :=
    if negb (CRT.empty sHeader) then CCSVRow_Write (CCSVRow_Parse sHeader) stm
    else stm in
  (* Then write out all the rows in the collection ... *)
  let stm :=
    if Nat.ltb 0 (length m_vecRows)
    then fold_left (fun stm row => CCSVRow_Write row stm) m_vecRows stm
    else stm in
  (stm, length m_vecRows).

(** [CCSVFile::Write(const string&, const string)]: [create] tells which
    files can be opened for writing; the result is the text of the file. *)
Definition CCSVFile_Write_file (create : string -> bool)
    (m_vecRows : list CCSVRow) (sFileName sHeader : string)
    : outcome (string * nat) :=
  if negb (create sFileName)
  then ERRS ("CCSVFile::Write() unable to create " +:+ sFileName)
  else Returns (CCSVFile_Write m_vecRows EmptyString sHeader).

(* ===================================================================== *)
(** * Dog.cpp: one dog record *)
(* ===================================================================== *)

Import Regex.

(** A sequence of expressions, as they are written one after the other. *)
Definition Seqs (rs : list regex) : regex := fold_right Seq Empty rs.

(** The characters of a bracket expression. *)
Definition one_of (chars : string) (a : ascii) : bool := CRT.contains_char a chars.

Definition digit : regex := Class CRT.isdigit.   (* \d *)
Definition space : regex := Class CRT.isspace.   (* \s *)

(** A quotation mark inside a message. *)
Definition dq : string := String QUOTE EmptyString.

Definition m_sOldColumnHeaders : string :=
  "Dog Name, Dog Number, Micropchip number, Dog Age, Dog Sex, Dog Breed, Dog Neuter, Dog Status, Dog Location, How Acquired, Date Acquired, Primary Contact Fname, Primary Contact Lname, Surrender Fname, Surrender Lname, Surrender Address, Surrender City, Surrender State, Surrender Zip Code, Originating Area, Adoption Fname, Adoption Lname, AC Fname, AC Lname, Adoption Address, Adoption City, Adoption State, Adoption Zip Code, Adoption Area, Adoption Email, Adoption Home Phone, Adoption Work Phone, Adoption Cell Phone, Adoption Status, Adoption or Disposition Date".

Definition m_sNewColumnHeaders : string :=
  "Dog Name, Dog Number, Micropchip number, Dog Age, Dog Sex, Dog Breed, Dog Neuter, Dog Status, Dog Location, How Acquired, Date Acquired, Primary Contact Fname, Primary Contact Lname, Surrender Fname, Surrender Lname, Surrender Address, Surrender City, Surrender State, Surrender Zip Code, Originating Area, County, Adoption Fname, Adoption Lname, AC Fname, AC Lname, Adoption Address, Adoption City, Adoption State, Adoption Zip Code, Adoption Area, Adoption Email, Adoption Home Phone, Adoption Work Phone, Adoption Cell Phone, Adoption Status, Adoption or Disposition Date".

(** [CDog::tolower]. *)
Definition CDog_tolower (str : string) : string :=
  CRT.map_chars (fun a => if CRT.isupper a then CRT.tolower a else a) str.

(** [_stricmp(a, b) == 0]. *)
Definition stricmp_eq (a b : string) : bool :=
  String.eqb (CRT.map_chars CRT.tolower a) (CRT.map_chars CRT.tolower b).

(** [CDog::Initialize]. *)
Definition CDog_Initialize (nDog : N) : CDog :=
  mkCDog nDog "" "" "" "" "" "" "" "" "" "" "" "" "" "" "" "" "" "" "" "" ""
         "" "" "" "" "" "" "" "" "" "" "" "" false.

(** [row[nCol++]]: the column under the cursor, and the cursor moved on. *)
Definition next_col (row : CCSVRow) (nCol : nat) : string * nat :=
  (nth nCol row EmptyString, S nCol).

Definition reNumber : regex := Plus digit.

(** [CDog::FromRow]: the verdict and the record it leaves in [this]. *)
Definition CDog_FromRow (row : CCSVRow) (fNew : bool) (log : Log)
    : outcome (bool * CDog * Log) :=
  if negb (Nat.eqb (length row)
             (if fNew then TOTAL_NEW_COLUMNS else TOTAL_OLD_COLUMNS))
  then AssertFails
  else
  let this := CDog_Initialize 0 in
  let nCol := 0%nat in
  let '(sName, nCol) := next_col row nCol in
  let '(sDogNumber, nCol) := next_col row nCol in
  let '(sMicrochip, nCol) := next_col row nCol in
  let '(sAge, nCol) := next_col row nCol in
  let '(sSex, nCol) := next_col row nCol in
  let nCol := S nCol in                                   (* dog breed *)
  let '(sNeuter, nCol) := next_col row nCol in
  let '(sStatus, nCol) := next_col row nCol in
  let '(sLocation, nCol) := next_col row nCol in
  let '(sHowAcquired, nCol) := next_col row nCol in
  let '(sDateAcquired, nCol) := next_col row nCol in
  let '(sPrimaryContactFName, nCol) := next_col row nCol in
  let '(sPrimaryContactLName, nCol) := next_col row nCol in
  let '(sSurrenderFName, nCol) := next_col row nCol in
  let '(sSurrenderLName, nCol) := next_col row nCol in
  let '(sSurrenderAddress, nCol) := next_col row nCol in
  let '(sSurrenderCity, nCol) := next_col row nCol in
  let '(sSurrenderState, nCol) := next_col row nCol in
  let '(sSurrenderZipCode, nCol) := next_col row nCol in
  let '(sOriginatingArea, nCol) := next_col row nCol in
  let nCol := if fNew then S nCol else nCol in            (* county *)
  let '(sAdoptionFName, nCol) := next_col row nCol in
  let '(sAdoptionLName, nCol) := next_col row nCol in
  let '(sACFName, nCol) := next_col row nCol in
  let '(sACLName, nCol) := next_col row nCol in
  let '(sAdoptionAddress, nCol) := next_col row nCol in
  let '(sAdoptionCity, nCol) := next_col row nCol in
  let '(sAdoptionState, nCol) := next_col row nCol in
  let '(sAdoptionZip, nCol) := next_col row nCol in
  let '(sAdoptionArea, nCol) := next_col row nCol in
  let '(sAdoptioneMail, nCol) := next_col row nCol in
  let '(sAdoptionHomePhone, nCol) := next_col row nCol in
  let '(sAdoptionWorkPhone, nCol) := next_col row nCol in
  let '(sAdoptionCellPhone, nCol) := next_col row nCol in
  let '(sAdoptionStatus, nCol) := next_col row nCol in
  let '(sDispositionDate, nCol) := next_col row nCol in
  (* Allow "None" for the microchip field ... *)
  let sMicrochip :=
    if stricmp_eq sMicrochip "none" then EmptyString else sMicrochip in
  let fill (nNumber : N) : CDog :=
    mkCDog nNumber sName sMicrochip sAge sSex sNeuter sStatus sLocation
      sHowAcquired sDateAcquired sPrimaryContactFName sPrimaryContactLName
      sSurrenderFName sSurrenderLName sSurrenderAddress sSurrenderCity
      sSurrenderState sSurrenderZipCode sOriginatingArea sAdoptionFName
      sAdoptionLName sACFName sACLName sAdoptionAddress sAdoptionCity
      sAdoptionState sAdoptionZip sAdoptionArea sAdoptioneMail
      sAdoptionHomePhone sAdoptionWorkPhone sAdoptionCellPhone
      sAdoptionStatus sDispositionDate (m_fUpdateRequired this) in
  (* Parse the dog number and make sure it's legal ... *)
  if negb (matched (regex_match sDogNumber reNumber)) then
    let this := fill (m_nNumber this) in
    Returns (false, this, BADDOGS this ("invalid dog number " +:+ sDogNumber) log)
  else
    n ← or_throw "std::stoi" (CRT.stoi sDogNumber);
    let this := fill (Z.to_N (CRT.to_uint32 n)) in
    if (m_nNumber this =? 0)%N || (MAXDOG <? m_nNumber this)%N then
      Returns (false, this,
               BADDOGS this ("invalid dog number "
                             +:+ CRT.to_string (m_nNumber this)) log)
    else Returns (true, this, log).

Definition reDate : regex :=
  Seqs [Bol; Group 1 (Repeat 4 digit); Chr "-"; Group 2 (Repeat 2 digit);
        Chr "-"; Group 3 (Repeat 2 digit); Eol].

(** [CDog::ParseDate]: day, month and year when the date is accepted. *)
Definition CDog_ParseDate (sDate : string) : outcome (option (Z * Z * Z)) :=
  match regex_search sDate reDate with
  | None => Returns None
  | Some rmDate =>
      nYear ← or_throw "std::stoi" (CRT.stoi (str rmDate 1));
      nMonth ← or_throw "std::stoi" (CRT.stoi (str rmDate 2));
      nDay ← or_throw "std::stoi" (CRT.stoi (str rmDate 3));
      let nYear := CRT.to_uint32 nYear in
      let nMonth := CRT.to_uint32 nMonth in
      let nDay := CRT.to_uint32 nDay in
      if (nMonth =? 0)%Z || (12 <? nMonth)%Z then Returns None
      else if (nDay =? 0)%Z || (31 <? nDay)%Z then Returns None
      else if (nYear <? 1990)%Z || (2099 <? nYear)%Z then Returns None
      else Returns (Some (nDay, nMonth, nYear))
  end.

Definition CDog_GetDateAcquired (d : CDog) : outcome (option (Z * Z * Z)) :=
  CDog_ParseDate (GetDateAcquired d).

(** [CDog::FormatDate], "%02d/%02d/%04d" of month, day and year; the
    arguments are [uint32_t] and are printed as [int]. *)
Definition CDog_FormatDate (nDay nMonth nYear : Z) : string :=
  CRT.printf_0d 2 (CRT.to_int32 nMonth) +:+ "/" +:+
  CRT.printf_0d 2 (CRT.to_int32 nDay) +:+ "/" +:+
  CRT.printf_0d 4 (CRT.to_int32 nYear).

Definition reAge : regex :=
  Seqs [Bol; Group 1 (Plus digit); space; Lit "years"; space;
        Group 2 (Plus digit); space; Lit "months"; Eol].

(** [CDog::ComputeBirthday]: the verdict and [sDOB]. *)
Definition CDog_ComputeBirthday (d : CDog) : outcome (bool * string) :=
  let sDOB := EmptyString in
  if CRT.empty (m_sDateAcquired d) || CRT.empty (m_sAge d)
  then Returns (false, sDOB)
  else
  (* Parse the age field ... *)
  let sAge := CDog_tolower (m_sAge d) in
  match regex_search sAge reAge with
  | None => Returns (false, sDOB)
  | Some rmAge =>
      nAgeYears ← or_throw "std::stoi" (CRT.stoi (str rmAge 1));
      nAgeMonths ← or_throw "std::stoi" (CRT.stoi (str rmAge 2));
      let nAgeYears := CRT.to_uint32 nAgeYears in
      let nAgeMonths := CRT.to_uint32 nAgeMonths in
      if (12 <? nAgeMonths)%Z || (20 <? nAgeYears)%Z then Returns (false, sDOB)
      else
      (* Parse the date acquired ... *)
      acquired ← CDog_GetDateAcquired d;
      match acquired with
      | None => Returns (false, sDOB)
      | Some (nDayAcquired, nMonthAcquired, nYearAcquired) =>
          let nYear := CRT.to_int32 (nYearAcquired - nAgeYears) in
          let nMonth := CRT.to_int32 (nMonthAcquired - nAgeMonths) in
          let '(nYear, nMonth) :=
            if (nMonth <? 1)%Z
            then (CRT.to_int32 (nYear - 1), CRT.to_int32 (nMonth + 12))
            else (nYear, nMonth) in
          Returns (true, CDog_FormatDate nDayAcquired (CRT.to_uint32 nMonth)
                           (CRT.to_uint32 nYear))
      end
  end.

Definition rePhone : regex :=
  Seqs [Bol; Opt (Chr "+"); Opt (Chr "1"); Opt space; Opt (Chr "(");
        Group 1 (Seqs [digit; digit; digit]); Opt (Chr ")");
        Star (Class (fun a => CRT.isspace a || one_of "-/*,." a));
        Group 2 (Seqs [digit; digit; digit]);
        Star (Class (fun a => CRT.isspace a || one_of "-=*,." a));
        Group 3 (Seqs [digit; digit; digit; digit]); Eol].

(** [CDog::VerifyPhone]: the verdict and the phone number afterwards. *)
Definition CDog_VerifyPhone (this : CDog) (sWhich sPhone : string)
    (fQuiet : bool) (log : Log) : bool * string * Log :=
  if CRT.empty sPhone || String.eqb sPhone "none" then (true, EmptyString, log)
  else
    match regex_search sPhone rePhone with
    | None =>
        let log :=
          if negb fQuiet
          then BADDOGS this ("invalid " +:+ sWhich +:+ " phone " +:+ dq
                             +:+ sPhone +:+ dq) log
          else log in
        (false, EmptyString, log)
    | Some rmPhone =>
        let sArea := str rmPhone 1 in
        let sPrefix := str rmPhone 2 in
        let sNumber := str rmPhone 3 in
        (true, sArea +:+ sPrefix +:+ sNumber, log)
    end.

Definition reZip : regex :=
  Seqs [Bol; Repeat 5 digit; Opt (Group 1 (Seqs [Chr "-"; Repeat 4 digit])); Eol].

(** [CDog::VerifyZip]. *)
Definition CDog_VerifyZip (this : CDog) (sZip : string) (log : Log)
    : bool * string * Log :=
  if CRT.empty sZip then (false, sZip, BADDOGS this "zip code cannot be blank" log)
  else if matched (regex_match sZip reZip) then (true, sZip, log)
  else (false, EmptyString,
        BADDOGS this ("invalid zip code " +:+ dq +:+ sZip +:+ dq) log).

Definition reeMail : regex :=
  Seqs [Bol; Plus (Class (fun a => CRT.isalnum a || one_of "_%+-." a));
        Chr "@"; Plus (Class (fun a => CRT.isalnum a || one_of ".-" a));
        Chr "."; AtLeast 2 (Class CRT.isalpha); Eol].

(** [CDog::VerifyeMail]. *)
Definition CDog_VerifyeMail (this : CDog) (seMail : string) (log : Log)
    : bool * string * Log :=
  if CRT.empty seMail
  then (false, seMail, BADDOGS this "email address cannot be blank" log)
  else if matched (regex_match seMail reeMail) then (true, seMail, log)
  else (false, EmptyString,
        BADDOGS this ("invalid email address " +:+ dq +:+ seMail +:+ dq) log).

Definition sStates : string :=
  "|AL|AK|AS|AZ|AR|CA|CO|CT|DE|DC|FM|FL|GA|GU|HI|ID|IL|IN|IA|KS|KY|LA|ME|MH|MD|MA|MI|MN|MS|MO|MT|NE|NV|NH|NJ|NM|NY|NC|ND|MP|OH|OK|OR|PW|PA|PR|RI|SC|SD|TN|TX|UT|VT|VI|VA|WA|WV|WI|WY|".

(** [CDog::VerifyState]. *)
Definition CDog_VerifyState (this : CDog) (sState : string) (log : Log)
    : bool * string * Log :=
  if CRT.empty sState then (true, "CA", log)
  else if Nat.eqb (String.length sState) 2 && CRT.contains sState sStates
  then (true, sState, log)
  else (false, EmptyString,
        BADDOGS this ("invalid state " +:+ dq +:+ sState +:+ dq) log).

(** [CDog::VerifySex]. *)
Definition CDog_VerifySex (this : CDog) (log : Log) : bool * CDog * Log :=
  let s := CDog_tolower (m_sSex this) in
  if String.eqb s "female" || String.eqb s "male" then (true, this, log)
  else
    let log := BADDOGS this ("invalid sex " +:+ dq +:+ m_sSex this +:+ dq) log in
    (false, set_m_sSex "Male" this, log).

(** [CDog::VerifySpayNeuter]. *)
Definition CDog_VerifySpayNeuter (this : CDog) (log : Log) : bool * CDog * Log :=
  let s := CDog_tolower (m_sNeuter this) in
  if String.eqb s "yes" || String.eqb s "no" then (true, this, log)
  else
    let log :=
      BADDOGS this ("invalid spay/neuter " +:+ dq +:+ m_sNeuter this +:+ dq) log in
    (false, set_m_sNeuter "Yes" this, log).

Definition CDog_VerifyHomePhone (this : CDog) (fQuiet : bool) (log : Log)
    : bool * CDog * Log :=
  let '(f, s, log) := CDog_VerifyPhone this "home" (m_sAdoptionHomePhone this) fQuiet log in
  (f, set_m_sAdoptionHomePhone s this, log).

Definition CDog_VerifyCellPhone (this : CDog) (fQuiet : bool) (log : Log)
    : bool * CDog * Log :=
  let '(f, s, log) := CDog_VerifyPhone this "cell" (m_sAdoptionCellPhone this) fQuiet log in
  (f, set_m_sAdoptionCellPhone s this, log).

Definition CDog_VerifyWorkPhone (this : CDog) (fQuiet : bool) (log : Log)
    : bool * CDog * Log :=
  let '(f, s, log) := CDog_VerifyPhone this "work" (m_sAdoptionWorkPhone this) fQuiet log in
  (f, set_m_sAdoptionWorkPhone s this, log).

Definition CDog_VerifyAdoptionZip (this : CDog) (log : Log) : bool * CDog * Log :=
  let '(f, s, log) := CDog_VerifyZip this (m_sAdoptionZip this) log in
  (f, set_m_sAdoptionZip s this, log).

Definition CDog_VerifyAdoptioneMail (this : CDog) (log : Log) : bool * CDog * Log :=
  let '(f, s, log) := CDog_VerifyeMail this (m_sAdoptioneMail this) log in
  (f, set_m_sAdoptioneMail s this, log).

Definition CDog_VerifyAdoptionState (this : CDog) (log : Log) : bool * CDog * Log :=
  let '(f, s, log) := CDog_VerifyState this (m_sAdoptionState this) log in
  (f, set_m_sAdoptionState s this, log).

(** [CDog::VerifyAll]: the verdict and the record afterwards. *)
Definition CDog_VerifyAll (this : CDog) (log : Log) : outcome (bool * CDog * Log) :=
  let fOK := true in
  (* These tests apply to all dogs, adopted or not ... *)
  let '(f, this, log) := CDog_VerifySex this log in
  let fOK := fOK && f in
  let '(f, this, log) := CDog_VerifySpayNeuter this log in
  let fOK := fOK && f in
  (* Verify the dog's age ... *)
  '(f, sDOB) ← CDog_ComputeBirthday this;
  let '(fOK, log) :=
    if negb f then (false, BADDOGS this "has no valid DOB" log) else (fOK, log) in
  if negb (CRT.empty (m_sAdoptionFName this))
     || negb (CRT.empty (m_sAdoptionLName this)) then
    let '(f, this, log) := CDog_VerifyAdoptioneMail this log in
    let fOK := fOK && f in
    let '(f, this, log) := CDog_VerifyHomePhone this false log in
    let fOK := fOK && f in
    let '(_, this, log) := CDog_VerifyCellPhone this true log in
    let '(_, this, log) := CDog_VerifyWorkPhone this true log in
    let '(f, this, log) := CDog_VerifyAdoptionZip this log in
    let fOK := fOK && f in
    let '(f, this, log) := CDog_VerifyAdoptionState this log in
    let fOK := fOK && f in
    Returns (fOK, this, log)
  else
    let fBlank :=
      CRT.empty (m_sAdoptioneMail this) && CRT.empty (m_sAdoptionFName this)
      && CRT.empty (m_sAdoptionLName this)
      && CRT.empty (m_sAdoptionCellPhone this)
      && CRT.empty (m_sAdoptionHomePhone this)
      && CRT.empty (m_sAdoptionWorkPhone this)
      && CRT.empty (m_sAdoptionAddress this)
      && CRT.empty (m_sAdoptionState this) && CRT.empty (m_sAdoptionZip this) in
    let log :=
      if negb fBlank then BADDOGS this "adoption information should be blank" log
      else log in
    Returns (fOK && fBlank, this, log).

(** [CDog::WasAcquiredAfter]. *)
Definition CDog_WasAcquiredAfter (this : CDog) (nYear : Z) (log : Log)
    : outcome (bool * Log) :=
  acquired ← CDog_GetDateAcquired this;
  match acquired with
  | None => Returns (true, BADDOGS this "no acquisition date recorded" log)
  | Some (_, _, nYearAcquired) => Returns ((nYear <=? nYearAcquired)%Z, log)
  end.

(* ===================================================================== *)
(** * Dog.cpp: the dog collection *)
(* ===================================================================== *)

Definition CDogs_empty : CDogs := {| m_mapNumber := ∅; m_mapChip := ∅ |}.

(** [CDogs::Find(uint32_t)]. *)
Definition CDogs_Find (this : CDogs) (nDog : N) : option ptr :=
  m_mapNumber this !! nDog.

(** [CDogs::Find(string)]. *)
Definition CDogs_Find_chip (this : CDogs) (sChip : string) : option ptr :=
  m_mapChip this !! sChip.

(** [unordered_map::insert]: a key that is present keeps its value. *)
Definition unordered_map_insert `{Countable K} {V : Type} (k : K) (v : V) (m : gmap K V)
    : gmap K V :=
  match m !! k with Some _ => m | None => <[k := v]> m end.

(** [CDogs::Add] for a dog object. *)
Definition CDogs_Add (h : heap) (this : CDogs) (pDog : ptr) (log : Log)
    : bool * CDogs * Log :=
  let nDog := GetNumber (h pDog) in
  let sChip := GetChip (h pDog) in
  (* First, be sure that the NGRR dog number is unique ... *)
  match CDogs_Find this nDog with
  | Some _ => (false, this, BADDOGS (h pDog) "already in collection" log)
  | None =>
      let dup :=
        if negb (CRT.empty sChip) then CDogs_Find_chip this sChip else None in
      match dup with
      | Some p =>
          (false, this,
           BADDOGS (h pDog)
             ("and " +:+ GetName (h p) +:+ " #"
              +:+ CRT.to_string (GetNumber (h p))
              +:+ " have the same microchip") log)
      | None =>
          (* All's well - add this dog to both maps ... *)
          let mapNumber := unordered_map_insert nDog pDog (m_mapNumber this) in
          let mapChip :=
            if negb (CRT.empty sChip)
            then unordered_map_insert sChip pDog (m_mapChip this)
            else m_mapChip this in
          (true, {| m_mapNumber := mapNumber; m_mapChip := mapChip |}, log)
      end
  end.

(* ===================================================================== *)
(** * Chip.cpp: update records *)
(* ===================================================================== *)

(** Modelled from the spec: the declaration of [CChip] in Chip.hpp, which
    is not among the sources; an update record carries its own copy of the
    microchip number and refers to the dog it was made from, the two data
    members that Chip.cpp reads and writes. *)
Record CChip : Type := mkCChip {
  CChip_m_sMicrochip : string;
  m_pDog : ptr
}.

(** [CChips::m_mapChip]. *)
Abbreviation CChips := (gmap string CChip).

Definition reISO : regex := Seqs [Bol; Chr "9"; Repeat 14 digit; Eol].
Definition rePumpkin : regex := Seqs [Bol; Lit "202"; Repeat 12 digit; Eol].
Definition reFDXA : regex := Seqs [Bol; Repeat 10 (Class CRT.isxdigit); Eol].
Definition reOld : regex :=
  Seqs [Bol; Group 1 (Repeat 3 digit); Opt (Class (one_of " *"));
        Group 2 (Repeat 3 digit); Opt (Class (one_of " *"));
        Group 3 (Repeat 3 digit); Eol].

(** [CChip::VerifyMicrochip]: the verdict and [sChip] afterwards. *)
Definition CChip_VerifyMicrochip (sChip : string) (fMessage : bool) (log : Log)
    : bool * string * Log :=
  if CRT.empty sChip then (false, sChip, MSGS "microchip cannot be blank" log)
  (* FDXB or ISO chips ... *)
  else if matched (regex_match sChip reISO) then (true, sChip, log)
  (* Special hack for Pumpkin's chip! *)
  else if matched (regex_match sChip rePumpkin) then (true, sChip, log)
  (* FDXA 10 digit hexadecimal chips ... *)
  else if matched (regex_match sChip reFDXA) then (true, sChip, log)
  else
    (* Lastly, handle the 9 digit chip numbers. *)
    match regex_search sChip reOld with
    | Some rmChip =>
        let sNew := str rmChip 1 +:+ str rmChip 2 +:+ str rmChip 3 in
        (true, sNew, log)
    | None =>
        (* Otherwise it's bogus ... *)
        let log :=
          if fMessage
          then MSGS ("invalid microchip " +:+ dq +:+ sChip +:+ dq) log
          else log in
        (false, sChip, log)
    end.

(** [CChip::FromDog]: the verdict and the update record. *)
Definition CChip_FromDog (h : heap) (pDog : ptr) (log : Log)
    : bool * CChip * Log :=
  let sMicrochip := GetChip (h pDog) in
  let '(f, sMicrochip, log) := CChip_VerifyMicrochip sMicrochip false log in
  let this := {| CChip_m_sMicrochip := sMicrochip; m_pDog := pDog |} in
  if negb f then
    (false, this,
     MSGS ("dog " +:+ GetName (h pDog) +:+ " #"
           +:+ CRT.to_string (GetNumber (h pDog))
           +:+ " has invalid microchip " +:+ dq +:+ sMicrochip +:+ dq) log)
  else (true, this, log).

(** [CChips::Find]. *)
Definition CChips_Find (this : CChips) (sChip : string) : option CChip :=
  this !! sChip.

(** [CChips::Add]. *)
Definition CChips_Add (h : heap) (this : CChips) (chip : CChip) (log : Log)
    : bool * CChips * Log :=
  let sChip := CChip_m_sMicrochip chip in
  let pDog := m_pDog chip in
  match CChips_Find this sChip with
  | Some _ =>
      (false, this,
       BADDOGS (h pDog) ("duplicate microchip " +:+ dq +:+ sChip +:+ dq) log)
  | None => (true, unordered_map_insert sChip chip this, log)
  end.

(* ===================================================================== *)
(** * MicrochipUpdate.cpp: comparing two reports *)
(* ===================================================================== *)

(** The objects of the run and what it has reported so far. *)
Record World : Type := mkWorld {
  objects : heap;
  messages : Log
}.

Definition say (msg : string) (w : World) : World :=
  {| objects := objects w; messages := MSGS msg (messages w) |}.

Definition complain (d : CDog) (msg : string) (w : World) : World :=
  {| objects := objects w; messages := BADDOGS d msg (messages w) |}.

(** [pDog->SetUpdateRequired()]. *)
Definition mark (pDog : ptr) (w : World) : World :=
  {| objects := store (objects w) pDog (SetUpdateRequired (objects w pDog));
     messages := messages w |}.

(** A [for] loop over a range of map entries. *)
Definition for_each {A : Type} (range : list A) (body : A -> World -> World)
    (w : World) : World :=
  fold_left (fun w it => body it w) range w.

Definition DogCount (dogs : CDogs) : N := N.of_nat (size (m_mapNumber dogs)).

(** ** Reading a report (Dog.cpp, [CDogs::ReadFile]) *)

(** [CDogs::ChipCount] (Dog.hpp). *)
Definition ChipCount (dogs : CDogs) : N := N.of_nat (size (m_mapChip dogs)).

(** A collection together with the free store: the objects, the address
    that [new] hands out next, and what was reported. *)
Definition kennel : Type := CDogs * heap * ptr * Log.

(** The loop of [CDogs::ReadFile] over the rows of the file. *)
Fixpoint ReadFile_loop (csv : list CCSVRow) (nYear : Z) (fNew : bool)
    (st : kennel) : outcome kennel :=
  match csv with
  | [] => Returns st
  | row :: csv' =>
      let '(this, h, next, log) := st in
      (* CDog *pDog = new CDog; *)
      let pDog := next in
      let next := Pos.succ next in
      '(f, Dog, log) ← CDog_FromRow row fNew log;
      let h := store h pDog Dog in
      let rest : kennel -> outcome kennel := ReadFile_loop csv' nYear fNew in
      if f : bool then
        '(fAfter, log) ← CDog_WasAcquiredAfter Dog nYear log;
        if fAfter : bool then
          let '(_, this, log) := CDogs_Add h this pDog log in
          rest (this, h, next, log)
        else rest (this, h, next, log)
      else rest (this, h, next, log)
  end.

(** [CDogs::ReadFile]; [None] when the reading of the file does not end
    within [fuel] turns. *)
Definition CDogs_ReadFile (fuel : nat) (open : string -> option string)
    (sFileName : string) (nYear : Z) (fNew : bool) (st : kennel)
    : option (outcome kennel) :=
  let '(this, h, next, log) := st in
  match CCSVFile_Read_file fuel open sFileName
          (if fNew then m_sNewColumnHeaders else m_sOldColumnHeaders) [] log with
  | None => None
  | Some read =>
      Some ('(csv, log) ← read;
            let nRows := length csv in
            let log := MSGS ("Read " +:+ CRT.to_string (N.of_nat nRows)
                             +:+ " rows from " +:+ sFileName) log in
            if Nat.eqb (length csv) 0 then Returns (this, h, next, log)
            else
              '(this, h, next, log) ← ReadFile_loop csv nYear fNew
                                       (this, h, next, log);
              Returns (this, h, next,
                       MSGS ("CDogs created, " +:+ CRT.to_string (DogCount this)
                             +:+ " dogs, " +:+ CRT.to_string (ChipCount this)
                             +:+ " chips") log))
  end.

Section MicrochipUpdate.

(** The order in which [dog_begin() .. dog_end()] visits the entries of the
    number table; the standard leaves it to the implementation. *)
Variable dog_range : CDogs -> list (N * ptr).

(** Part 1: dogs of the old report that the new report does not have. *)
Definition disappeared_body (NewDogs : CDogs) (it : N * ptr) (w : World) : World :=
  let pOldDog := it.2 in
  let OldDog := objects w pOldDog in
  match CDogs_Find NewDogs (GetNumber OldDog) with
  | None =>
      if HasChip OldDog
      then complain OldDog ("has microchip " +:+ GetChip OldDog
                            +:+ " but is not found in new dog report") w
      else w
  | Some _ => w
  end.

(** Part 2: dogs that were acquired, or had a microchip number entered. *)
Definition acquired_body (OldDogs : CDogs) (it : N * ptr) (w : World) : World :=
  let pNewDog := it.2 in
  let NewDog := objects w pNewDog in
  if IsDead NewDog || IsReturned NewDog then w
  else
    match CDogs_Find OldDogs (GetNumber NewDog) with
    | None =>
        let w := say ("dog " +:+ GetName NewDog +:+ " #"
                      +:+ CRT.to_string (GetNumber NewDog)
                      +:+ " was acquired") w in
        if CRT.empty (GetChip NewDog)
        then complain NewDog "no microchip number recorded" w
        else mark pNewDog w
    | Some pOldDog =>
        let OldDog := objects w pOldDog in
        if CRT.empty (GetChip OldDog) && negb (CRT.empty (GetChip NewDog)) then
          let w := say ("dog " +:+ GetName NewDog +:+ " #"
                        +:+ CRT.to_string (GetNumber NewDog)
                        +:+ " microchip was added") w in
          mark pNewDog w
        else if negb (String.eqb (GetChip OldDog) (GetChip NewDog)) then
          complain NewDog ("microchip number changed - was " +:+ dq
                           +:+ GetChip OldDog +:+ dq +:+ " is " +:+ dq
                           +:+ GetChip NewDog +:+ dq) w
        else w
    end.

(** Part 3: status "Adopted" without an adopting party. *)
Definition unnamed_adopter_body (it : N * ptr) (w : World) : World :=
  let NewDog := objects w it.2 in
  if String.eqb (GetStatus NewDog) "Adopted" then
    if CRT.empty (GetAdoptionFName NewDog) && CRT.empty (GetAdoptionLName NewDog)
    then complain NewDog (GetStatus NewDog +:+ " but no adopting party is recorded") w
    else w
  else w.

(** Part 4: an adopting party, but a status that is not an adoption. *)
Definition unadopted_status_body (it : N * ptr) (w : World) : World :=
  let NewDog := objects w it.2 in
  if negb (CRT.empty (GetAdoptionFName NewDog))
     || negb (CRT.empty (GetAdoptionLName NewDog)) then
    if negb (String.eqb (GetStatus NewDog) "Adopted")
       && negb (String.eqb (GetStatus NewDog) "Adoption Pending") then
      if IsDead NewDog || IsReturned NewDog then w
      else complain NewDog (" adopting party is recorded but status is "
                            +:+ GetStatus NewDog) w
    else w
  else w.

(** Part 5: a disposition date on a dog still in evaluation or available. *)
Definition disposition_body (it : N * ptr) (w : World) : World :=
  let NewDog := objects w it.2 in
  if negb (CRT.empty (GetDispositionDate NewDog)) then
    if String.eqb (GetDispositionDate NewDog) "0000-00-00" then w
    else if String.eqb (GetStatus NewDog) "Evaluation"
            || String.eqb (GetStatus NewDog) "Available"
    then complain NewDog ("disposition date is " +:+ GetDispositionDate NewDog
                          +:+ " but status is " +:+ GetStatus NewDog) w
    else w
  else w.

(** Part 6: dogs adopted now; the adopting family may have changed. *)
Definition adopted_body (OldDogs : CDogs) (it : N * ptr) (w : World) : World :=
  let pNewDog := it.2 in
  let NewDog := objects w pNewDog in
  let pOldDog := CDogs_Find OldDogs (GetNumber NewDog) in
  if IsDead NewDog || IsReturned NewDog then w
  else if negb (IsAdopted NewDog) then w
  else
    let was_adopted :=
      match pOldDog with
      | Some p => if IsAdopted (objects w p) then Some (objects w p) else None
      | None => None
      end in
    match was_adopted with
    | Some OldDog =>
        (* Was adopted before and is adopted now ... *)
        if negb (String.eqb (GetAdoptionFName OldDog) (GetAdoptionFName NewDog))
           || negb (String.eqb (GetAdoptionLName OldDog) (GetAdoptionLName NewDog))
        then complain OldDog "adopting family changed" w
        else w
    | None =>
        (* Was recently adopted ... *)
        let w := say ("dog " +:+ GetName NewDog +:+ " #"
                      +:+ CRT.to_string (GetNumber NewDog)
                      +:+ " was adopted by " +:+ GetAdoptionFName NewDog
                      +:+ " " +:+ GetAdoptionLName NewDog) w in
        mark pNewDog w
    end.

(** Part 7: dogs that were returned to NGRR. *)
Definition returned_body (OldDogs : CDogs) (it : N * ptr) (w : World) : World :=
  let pNewDog := it.2 in
  let NewDog := objects w pNewDog in
  match CDogs_Find OldDogs (GetNumber NewDog) with
  | None => w
  | Some pOldDog =>
      if negb (IsAdopted (objects w pOldDog)) then w
      else if negb (IsAdopted NewDog) then
        let w := say ("dog " +:+ GetName NewDog +:+ " #"
                      +:+ CRT.to_string (GetNumber NewDog)
                      +:+ " was returned to NGRR") w in
        mark pNewDog w
      else w
  end.

(** [CompareDogs]. *)
Definition CompareDogs (OldDogs NewDogs : CDogs) (w : World) : World :=
  let w := say ("Comparing " +:+ CRT.to_string (DogCount OldDogs)
                +:+ " old dogs with " +:+ CRT.to_string (DogCount NewDogs)
                +:+ " new dogs ...") w in
  let w := for_each (dog_range OldDogs) (disappeared_body NewDogs) w in
  let w := for_each (dog_range NewDogs) (acquired_body OldDogs) w in
  let w := for_each (dog_range NewDogs) unnamed_adopter_body w in
  let w := for_each (dog_range NewDogs) unadopted_status_body w in
  let w := for_each (dog_range NewDogs) disposition_body w in
  let w := for_each (dog_range NewDogs) (adopted_body OldDogs) w in
  let w := for_each (dog_range NewDogs) (returned_body OldDogs) w in
  w.

(** One turn of the loop of [BuildUpdates]. *)
Definition BuildUpdates_body (it : N * ptr) (st : World * CChips)
    : outcome (World * CChips) :=
  let '(w, Chips) := st in
  let pDog := it.2 in
  if negb (IsUpdateRequired (objects w pDog)) then Returns (w, Chips)
  else if CRT.empty (GetChip (objects w pDog)) then
    Returns (complain (objects w pDog) "requires update but has no microchip!" w,
             Chips)
  else
    '(_, Dog, log) ← CDog_VerifyAll (objects w pDog) (messages w);
    let h := store (objects w) pDog Dog in
    let '(f, Chip, log) := CChip_FromDog h pDog log in
    if f then
      let '(_, Chips, log) := CChips_Add h Chips Chip log in
      Returns ({| objects := h; messages := log |}, Chips)
    else Returns ({| objects := h; messages := log |}, Chips).

Fixpoint BuildUpdates_loop (range : list (N * ptr)) (st : World * CChips)
    : outcome (World * CChips) :=
  match range with
  | [] => Returns st
  | it :: range' =>
      st ← BuildUpdates_body it st;
      BuildUpdates_loop range' st
  end.

(** [BuildUpdates]: the collection of update records is emptied first. *)
Definition BuildUpdates (Dogs : CDogs) (Chips : CChips) (w : World)
    : outcome (World * CChips) :=
  let Chips : CChips := ∅ in
  BuildUpdates_loop (dog_range Dogs) (w, Chips).

End MicrochipUpdate.

(* ===================================================================== *)
(** * Properties *)
(* ===================================================================== *)

(** ** The date of birth (Dog.cpp, [ComputeBirthday] and [FormatDate]) *)

(** A dog that is three years and two months old on 15 May 2020. *)
Definition sample_puppy : CDog :=
  mkCDog 100 "Nova" "" "3 years 2 months" "Female" "Yes" "Available" "" ""
    "2020-05-15" "" "" "" "" "" "" "" "" "" "" "" "" "" "" "" "" "" "" "" ""
    "" "" "" "" false.

(** Only the age and the date acquired take part in the computation. *)
Lemma ComputeBirthday_depends (d d' : CDog) :
  m_sAge d = m_sAge d' ->
  m_sDateAcquired d = m_sDateAcquired d' ->
  CDog_ComputeBirthday d = CDog_ComputeBirthday d'.
Proof.
  intros Hage Hdate. unfold CDog_ComputeBirthday, CDog_GetDateAcquired,
    GetDateAcquired. now rewrite Hage, Hdate.
Qed.

Lemma ComputeBirthday_sample :
  CDog_ComputeBirthday sample_puppy = Returns (true, "03/15/2017").
Proof. vm_compute. reflexivity. Qed.

(** C7, as stated, fails: for the age "3 years 2 months" and the date
    acquired "2020-05-15" the computation does not return "05/01/2017". *)
Lemma C7_birthday_counterexample :
  m_sAge sample_puppy = "3 years 2 months" /\
  m_sDateAcquired sample_puppy = "2020-05-15" /\
  CDog_ComputeBirthday sample_puppy <> Returns (true, "05/01/2017").
Proof.
  split; [reflexivity | split; [reflexivity |]].
  rewrite ComputeBirthday_sample. discriminate.
Qed.

(** C7, amended: for every dog record with the age "3 years 2 months" and
    the date acquired "2020-05-15", the computation succeeds and returns a
    date of the form MM/DD/YYYY whose month is "03" (May less two months)
    and whose year is "2017" (2020 less three years). *)
Theorem C7_birthday_month_and_year (d : CDog) :
  m_sAge d = "3 years 2 months" ->
  m_sDateAcquired d = "2020-05-15" ->
  exists day : string,
    String.length day = 2 /\
    CDog_ComputeBirthday d = Returns (true, "03/" +:+ day +:+ "/2017").
Proof.
  intros Hage Hdate.
  rewrite (ComputeBirthday_depends d sample_puppy) by assumption.
  exists "15". split; [reflexivity | apply ComputeBirthday_sample].
Qed.

Lemma C7_birthday_month_and_year_witness :
  exists day : string,
    String.length day = 2 /\
    CDog_ComputeBirthday sample_puppy
    = Returns (true, "03/" +:+ day +:+ "/2017").
Proof.
  apply (C7_birthday_month_and_year sample_puppy); reflexivity.
Defined.
(** ** Strings *)

Lemma append_cons (a : ascii) (s t : string) :
  String a s +:+ t = String a (s +:+ t).
Proof. reflexivity. Qed.

Lemma append_nil_l (s : string) : "" +:+ s = s.
Proof. reflexivity. Qed.

Lemma append_nil_r (s : string) : s +:+ "" = s.
Proof. induction s as [|a s IH]; [reflexivity|]. now rewrite append_cons, IH. Qed.

Lemma append_assoc (s1 s2 s3 : string) :
  (s1 +:+ s2) +:+ s3 = s1 +:+ (s2 +:+ s3).
Proof.
  induction s1 as [|a s1 IH]; [reflexivity|].
  now rewrite !append_cons, IH.
Qed.

Lemma length_append (s1 s2 : string) :
  String.length (s1 +:+ s2) = String.length s1 + String.length s2.
Proof.
  induction s1 as [|a s1 IH]; [reflexivity|].
  rewrite append_cons. simpl. now rewrite IH.
Qed.

Lemma append_inv_head (w s t : string) : w +:+ s = w +:+ t -> s = t.
Proof.
  induction w as [|a w IH]; [trivial|].
  rewrite !append_cons. intros H. injection H as H. auto.
Qed.

Lemma append_eq_nil (s t : string) : s +:+ t = "" -> s = "" /\ t = "".
Proof. destruct s; [auto | discriminate]. Qed.

Lemma length_zero (s : string) : String.length s = 0 -> s = "".
Proof. destruct s; [reflexivity | discriminate]. Qed.

Lemma empty_true (s : string) : CRT.empty s = true <-> s = "".
Proof. destruct s; simpl; split; congruence. Qed.

Lemma empty_false (s : string) : CRT.empty s = false <-> s <> "".
Proof. destruct s; simpl; split; congruence. Qed.

Lemma substring_append (w s : string) :
  String.substring 0 (String.length w) (w +:+ s) = w.
Proof.
  induction w as [|a w IH]; simpl.
  - destruct s; reflexivity.
  - now rewrite IH.
Qed.

Lemma all_chars_append (p : ascii -> bool) (s t : string) :
  CRT.all_chars p (s +:+ t) = CRT.all_chars p s && CRT.all_chars p t.
Proof.
  induction s as [|a s IH]; [reflexivity|].
  rewrite append_cons. simpl. rewrite IH. now rewrite andb_assoc.
Qed.

(** A string that is a suffix of itself after a non-empty prefix does not
    exist. *)
Lemma append_same_suffix (w s : string) : w +:+ s = s -> w = "".
Proof.
  intros H. apply length_zero.
  apply (f_equal String.length) in H. rewrite length_append in H. lia.
Qed.

(** ** Regular expressions: what a match is *)

Module RegexFacts.

Lemma consumed_append (w s : string) : consumed (w +:+ s) s = w.
Proof.
  unfold consumed. rewrite length_append.
  replace (String.length w + String.length s - String.length s)
    with (String.length w) by lia.
  apply substring_append.
Qed.

(** [matches n0 r s c s' c']: the expression [r] can match at the front of
    [s], leaving [s'], and turn the sub-matches [c] into [c']; [n0] is the
    length of the whole subject. *)
Inductive matches (n0 : nat)
  : regex -> string -> captures -> string -> captures -> Prop :=
| m_Empty s c : matches n0 Empty s c s c
| m_Chr a s c : matches n0 (Chr a) (String a s) c s c
| m_Class (p : ascii -> bool) a s c :
    p a = true -> matches n0 (Class p) (String a s) c s c
| m_Bol s c : String.length s = n0 -> matches n0 Bol s c s c
| m_Eol c : matches n0 Eol "" c "" c
| m_Seq r1 r2 s c s1 c1 s2 c2 :
    matches n0 r1 s c s1 c1 -> matches n0 r2 s1 c1 s2 c2 ->
    matches n0 (Seq r1 r2) s c s2 c2
| m_Opt_some r s c s1 c1 :
    matches n0 r s c s1 c1 -> matches n0 (Opt r) s c s1 c1
| m_Opt_none r s c : matches n0 (Opt r) s c s c
| m_Star_stop r s c : matches n0 (Star r) s c s c
| m_Star_step r s c s1 c1 s2 c2 :
    matches n0 r s c s1 c1 -> String.length s1 < String.length s ->
    matches n0 (Star r) s1 c1 s2 c2 ->
    matches n0 (Star r) s c s2 c2
| m_Group i r s c s1 c1 :
    matches n0 r s c s1 c1 ->
    matches n0 (Group i r) s c s1 ((i, consumed s s1) :: c1).

(** The loop that [run] enters for [r*]. *)
Definition star_loop (r1 : regex) (n0 : nat)
    (k : string -> captures -> option captures)
    : nat -> string -> captures -> option captures :=
  fix loop (fuel : nat) (s : string) (c : captures) {struct fuel}
    : option captures :=
    match fuel with
    | O => k s c
    | S fuel' =>
        match run r1 n0 s c (fun s1 c1 =>
                if Nat.ltb (String.length s1) (String.length s)
                then loop fuel' s1 c1 else None) with
        | Some res => Some res
        | None => k s c
        end
    end.

Lemma run_Star r1 n0 s c k :
  run (Star r1) n0 s c k = star_loop r1 n0 k (String.length s) s c.
Proof. reflexivity. Qed.

(** Every result of the matcher is the continuation's answer to a match. *)
Lemma run_sound n0 r : forall s c k res,
  run r n0 s c k = Some res ->
  exists s1 c1, matches n0 r s c s1 c1 /\ k s1 c1 = Some res.
Proof.
  induction r as [| a | p | | | r1 IH1 r2 IH2 | r1 IH1 | r1 IH1 | i r1 IH1];
    intros s c k res H.
  - exists s, c. split; [constructor | exact H].
  - simpl in H. destruct s as [|b s']; [discriminate|].
    destruct (Ascii.eqb_spec a b) as [->|]; [|discriminate].
    exists s', c. split; [constructor | exact H].
  - simpl in H. destruct s as [|b s']; [discriminate|].
    destruct (p b) eqn:Hp; [|discriminate].
    exists s', c. split; [now constructor | exact H].
  - simpl in H. destruct (Nat.eqb_spec (String.length s) n0); [|discriminate].
    exists s, c. split; [now constructor | exact H].
  - simpl in H. destruct s; [|discriminate].
    exists "", c. split; [constructor | exact H].
  - simpl in H. apply IH1 in H as (s1 & c1 & M1 & H).
    apply IH2 in H as (s2 & c2 & M2 & H).
    exists s2, c2. split; [econstructor; eassumption | exact H].
  - simpl in H. destruct (run r1 n0 s c k) eqn:E.
    + injection H as ->. apply IH1 in E as (s1 & c1 & M1 & E).
      exists s1, c1. split; [now apply m_Opt_some | exact E].
    + exists s, c. split; [apply m_Opt_none | exact H].
  - rewrite run_Star in H.
    remember (String.length s) as fuel eqn:Hfuel. clear Hfuel. revert s c H.
    induction fuel as [|fuel IHf]; intros s c H; simpl in H.
    + exists s, c. split; [apply m_Star_stop | exact H].
    + match type of H with
      | match ?e with _ => _ end = _ => destruct e eqn:E
      end.
      * injection H as ->. apply IH1 in E as (s1 & c1 & M1 & E).
        destruct (Nat.ltb_spec (String.length s1) (String.length s)) as [Hlt|];
          [|discriminate].
        apply IHf in E as (s2 & c2 & M2 & E).
        exists s2, c2. split; [|exact E].
        eapply m_Star_step; eassumption.
      * exists s, c. split; [apply m_Star_stop | exact H].
  - simpl in H. apply IH1 in H as (s1 & c1 & M1 & H).
    exists s1, ((i, consumed s s1) :: c1). split; [now constructor | exact H].
Qed.

(** Whenever there is a match the continuation accepts, the matcher
    succeeds (possibly with another match that it tries earlier). *)
Lemma run_complete n0 r : forall s c s1 c1 k,
  matches n0 r s c s1 c1 -> is_Some (k s1 c1) -> is_Some (run r n0 s c k).
Proof.
  induction r as [| a | p | | | r1 IH1 r2 IH2 | r1 IH1 | r1 IH1 | i r1 IH1];
    intros s c s1 c1 k M Hk.
  - inversion M; subst. exact Hk.
  - inversion M; subst. simpl. now rewrite Ascii.eqb_refl.
  - inversion M; subst. simpl. now rewrite H0.
  - inversion M; subst. simpl. now rewrite Nat.eqb_refl.
  - inversion M; subst. exact Hk.
  - inversion M; subst. simpl. eapply IH1; [eassumption|].
    eapply IH2; eassumption.
  - simpl. destruct (run r1 n0 s c k) eqn:E; [eauto|].
    inversion M; subst; [|exact Hk].
    eapply IH1 in Hk; [|eassumption]. rewrite E in Hk. now destruct Hk.
  - rewrite run_Star.
    assert (Hfuel : String.length s <= String.length s) by lia.
    revert Hfuel. generalize (String.length s) at 2 3. intros fuel.
    revert fuel. remember (Star r1) as r eqn:Hr.
    induction M; try discriminate; injection Hr as ->; intros fuel Hfuel.
    + destruct fuel; simpl; [exact Hk|].
      match goal with |- is_Some (match ?e with _ => _ end) => destruct e end;
        eauto.
    + destruct fuel as [|fuel]; [lia|]. simpl.
      match goal with
      | |- is_Some (match ?e with _ => _ end) => destruct e eqn:E
      end; [eauto|].
      exfalso. eapply IH1 in M1.
      * rewrite E in M1. now destruct M1.
      * simpl. destruct (Nat.ltb_spec (String.length s1) (String.length s));
          [|lia].
        apply IHM2; [reflexivity | exact Hk | lia].
  - inversion M; subst. simpl. eapply IH1; eassumption.
Qed.


(** *** Inversion of a match, one construct at a time *)

Lemma matches_Seq n0 r1 r2 s c s2 c2 :
  matches n0 (Seq r1 r2) s c s2 c2 <->
  exists s1 c1, matches n0 r1 s c s1 c1 /\ matches n0 r2 s1 c1 s2 c2.
Proof.
  split.
  - intros M. inversion M; subst. eauto.
  - intros (s1 & c1 & M1 & M2). econstructor; eassumption.
Qed.

Lemma matches_Empty n0 s c s1 c1 :
  matches n0 Empty s c s1 c1 <-> s1 = s /\ c1 = c.
Proof.
  split.
  - intros M. inversion M; subst. auto.
  - intros [-> ->]. constructor.
Qed.

Lemma matches_Chr n0 a s c s1 c1 :
  matches n0 (Chr a) s c s1 c1 <-> s = String a s1 /\ c1 = c.
Proof.
  split.
  - intros M. inversion M; subst. auto.
  - intros [-> ->]. constructor.
Qed.

Lemma matches_Class n0 p s c s1 c1 :
  matches n0 (Class p) s c s1 c1 <->
  exists a, s = String a s1 /\ p a = true /\ c1 = c.
Proof.
  split.
  - intros M. inversion M; subst. eauto.
  - intros (a & -> & Hp & ->). now constructor.
Qed.

Lemma matches_Bol n0 s c s1 c1 :
  matches n0 Bol s c s1 c1 <-> String.length s = n0 /\ s1 = s /\ c1 = c.
Proof.
  split.
  - intros M. inversion M; subst. auto.
  - intros (H & -> & ->). now constructor.
Qed.

Lemma matches_Eol n0 s c s1 c1 :
  matches n0 Eol s c s1 c1 <-> s = "" /\ s1 = "" /\ c1 = c.
Proof.
  split.
  - intros M. inversion M; subst. auto.
  - intros (-> & -> & ->). constructor.
Qed.

Lemma matches_Opt n0 r s c s1 c1 :
  matches n0 (Opt r) s c s1 c1 <->
  matches n0 r s c s1 c1 \/ (s1 = s /\ c1 = c).
Proof.
  split.
  - intros M. inversion M; subst; auto.
  - intros [M | [-> ->]]; [now apply m_Opt_some | apply m_Opt_none].
Qed.

Lemma matches_Group n0 i r s c s1 c1 :
  matches n0 (Group i r) s c s1 c1 <->
  exists c', matches n0 r s c s1 c' /\ c1 = (i, consumed s s1) :: c'.
Proof.
  split.
  - intros M. inversion M; subst. eauto.
  - intros (c' & M & ->). now constructor.
Qed.

(** [p{n}] takes [n] characters of the class [p]. *)
Lemma matches_Repeat_Class n0 p n : forall s c s1 c1,
  matches n0 (Repeat n (Class p)) s c s1 c1 <->
  c1 = c /\ exists w, s = w +:+ s1 /\ String.length w = n
                     /\ CRT.all_chars p w = true.
Proof.
  induction n as [|n IH]; intros s c s1 c1; simpl.
  - rewrite matches_Empty. split.
    + intros [-> ->]. split; [reflexivity|]. now exists "".
    + intros [-> (w & -> & Hlen & _)]. apply length_zero in Hlen. now subst.
  - rewrite matches_Seq. split.
    + intros (s' & c' & M1 & M2). apply matches_Class in M1 as (a & -> & Hp & ->).
      apply IH in M2 as [-> (w & -> & Hlen & Hall)].
      split; [reflexivity|]. exists (String a w). simpl. rewrite Hp, Hall, Hlen.
      auto.
    + intros [-> (w & -> & Hlen & Hall)]. destruct w as [|a w]; [discriminate|].
      simpl in Hlen, Hall. apply andb_true_iff in Hall as [Hp Hall].
      exists (w +:+ s1), c. split.
      * apply matches_Class. exists a. auto.
      * apply IH. split; [reflexivity|]. exists w. split; [reflexivity|].
        split; [lia | assumption].
Qed.

(** [p*] takes any number of characters of the class [p]. *)
Lemma matches_Star_Class n0 p s c s1 c1 :
  matches n0 (Star (Class p)) s c s1 c1 <->
  c1 = c /\ exists w, s = w +:+ s1 /\ CRT.all_chars p w = true.
Proof.
  split.
  - intros M. remember (Star (Class p)) as r eqn:Hr.
    induction M; try discriminate; injection Hr as ->.
    + split; [reflexivity|]. now exists "".
    + apply matches_Class in M1 as (a & -> & Hp & ->).
      destruct (IHM2 eq_refl) as [-> (w & -> & Hall)].
      split; [reflexivity|]. exists (String a w). simpl. now rewrite Hp, Hall.
  - intros [-> (w & -> & Hall)]. induction w as [|a w IH].
    + apply m_Star_stop.
    + simpl in Hall. apply andb_true_iff in Hall as [Hp Hall].
      rewrite append_cons.
      eapply m_Star_step; [apply m_Class; exact Hp | simpl; lia | now apply IH].
Qed.

(** [p+] takes at least one character of the class [p]. *)
Lemma matches_Plus_Class n0 p s c s1 c1 :
  matches n0 (Plus (Class p)) s c s1 c1 <->
  c1 = c /\ exists w, s = w +:+ s1 /\ w <> "" /\ CRT.all_chars p w = true.
Proof.
  unfold Plus. rewrite matches_Seq. split.
  - intros (s' & c' & M1 & M2). apply matches_Class in M1 as (a & -> & Hp & ->).
    apply matches_Star_Class in M2 as [-> (w & -> & Hall)].
    split; [reflexivity|]. exists (String a w). simpl. rewrite Hp, Hall. auto.
  - intros [-> (w & -> & Hne & Hall)]. destruct w as [|a w]; [congruence|].
    simpl in Hall. apply andb_true_iff in Hall as [Hp Hall].
    exists (w +:+ s1), c. split.
    + apply matches_Class. exists a. auto.
    + apply matches_Star_Class. eauto.
Qed.

(** A literal text. *)
Lemma matches_Lit n0 t : forall s c s1 c1,
  matches n0 (Lit t) s c s1 c1 <-> c1 = c /\ s = t +:+ s1.
Proof.
  induction t as [|a t IH]; intros s c s1 c1; simpl.
  - rewrite matches_Empty. change ("" +:+ s1) with s1. intuition congruence.
  - rewrite matches_Seq. split.
    + intros (s' & c' & M1 & M2). apply matches_Chr in M1 as [-> ->].
      apply IH in M2 as [-> ->]. auto.
    + intros [-> ->]. exists (t +:+ s1), c. split.
      * now apply matches_Chr.
      * now apply IH.
Qed.

(** *** The two entry points *)

Lemma regex_match_sound s re c :
  regex_match s re = Some c -> matches (String.length s) re s [] "" c.
Proof.
  unfold regex_match. intros H.
  apply run_sound in H as (s1 & c1 & M & H). unfold at_end in H.
  destruct s1; [|discriminate]. injection H as ->. exact M.
Qed.

Lemma regex_match_complete s re c :
  matches (String.length s) re s [] "" c -> matched (regex_match s re) = true.
Proof.
  intros M. unfold regex_match.
  destruct (run_complete _ _ _ _ _ _ at_end M) as [res ->]; [|reflexivity].
  now exists c.
Qed.

Lemma regex_match_none s re :
  regex_match s re = None ->
  forall c, ~ matches (String.length s) re s [] "" c.
Proof.
  intros H c M. apply regex_match_complete in M. now rewrite H in M.
Qed.

(** An expression that starts with [^] can only match at the start. *)
Lemma run_Bol_elsewhere r n0 s c k :
  String.length s <> n0 -> run (Seq Bol r) n0 s c k = None.
Proof.
  intros Hne. cbn [run]. now destruct (Nat.eqb_spec (String.length s) n0).
Qed.

Lemma search_from_Bol r n0 s :
  String.length s < n0 -> search_from (Seq Bol r) n0 s = None.
Proof.
  induction s as [|a s IH]; intros Hlt; cbn [search_from];
    rewrite run_Bol_elsewhere by lia; [reflexivity|].
  apply IH. simpl in Hlt. lia.
Qed.

Lemma regex_search_Bol s r :
  regex_search s (Seq Bol r) = run (Seq Bol r) (String.length s) s [] anywhere.
Proof.
  unfold regex_search. destruct s as [|a s]; cbn [search_from].
  - now destruct (run (Seq Bol r) (String.length "") "" [] anywhere).
  - destruct (run (Seq Bol r) (String.length (String a s)) (String a s) []
                anywhere); [reflexivity|].
    apply search_from_Bol. simpl. lia.
Qed.

Lemma regex_search_sound s r c :
  regex_search s (Seq Bol r) = Some c ->
  exists s1, matches (String.length s) (Seq Bol r) s [] s1 c.
Proof.
  rewrite regex_search_Bol. intros H.
  apply run_sound in H as (s1 & c1 & M & H). injection H as ->. eauto.
Qed.

Lemma regex_search_complete s r s1 c :
  matches (String.length s) (Seq Bol r) s [] s1 c ->
  matched (regex_search s (Seq Bol r)) = true.
Proof.
  intros M. rewrite regex_search_Bol.
  destruct (run_complete _ _ _ _ _ _ anywhere M) as [res ->]; [|reflexivity].
  now exists c.
Qed.

End RegexFacts.

(** ** Pieces of the expressions of the program *)

Module Pieces.
Import RegexFacts.

(** A run of [n] decimal digits. *)
Definition decimal (n : nat) (w : string) : Prop :=
  String.length w = n /\ CRT.all_chars CRT.isdigit w = true.

(** Nothing, or one character of the class [p]. *)
Definition optional (p : ascii -> bool) (x : string) : Prop :=
  x = "" \/ exists a, x = String a "" /\ p a = true.

(** The decimal digits of a string, in order. *)
Fixpoint digits_of (s : string) : string :=
  match s with
  | EmptyString => EmptyString
  | String a s' =>
      if CRT.isdigit a then String a (digits_of s') else digits_of s'
  end.

Lemma digits_of_append (s t : string) :
  digits_of (s +:+ t) = digits_of s +:+ digits_of t.
Proof.
  induction s as [|a s IH]; [reflexivity|].
  rewrite append_cons. simpl. destruct (CRT.isdigit a); [|exact IH].
  now rewrite append_cons, IH.
Qed.

Lemma digits_of_digits (w : string) :
  CRT.all_chars CRT.isdigit w = true -> digits_of w = w.
Proof.
  induction w as [|a w IH]; [reflexivity|]. simpl.
  intros H. apply andb_true_iff in H as [-> H]. now rewrite IH.
Qed.

Lemma digits_of_decimal n w : decimal n w -> digits_of w = w.
Proof. intros [_ H]. now apply digits_of_digits. Qed.

Lemma digits_of_none (p : ascii -> bool) (w : string) :
  (forall a, p a = true -> CRT.isdigit a = false) ->
  CRT.all_chars p w = true -> digits_of w = "".
Proof.
  intros Hp. induction w as [|a w IH]; [reflexivity|]. simpl.
  intros H. apply andb_true_iff in H as [Ha H]. rewrite (Hp a Ha). auto.
Qed.

Lemma digits_of_optional (p : ascii -> bool) (x : string) :
  (forall a, p a = true -> CRT.isdigit a = false) ->
  optional p x -> digits_of x = "".
Proof.
  intros Hp [-> | (a & -> & Ha)]; [reflexivity|]. simpl. now rewrite (Hp a Ha).
Qed.

Lemma matches_Opt_Class n0 p s c s1 c1 :
  matches n0 (Opt (Class p)) s c s1 c1 <->
  c1 = c /\ exists x, s = x +:+ s1 /\ optional p x.
Proof.
  rewrite matches_Opt, matches_Class. split.
  - intros [(a & -> & Hp & ->) | [-> ->]]; (split; [reflexivity|]).
    + exists (String a ""). split; [reflexivity|]. right. eauto.
    + exists "". split; [reflexivity|]. now left.
  - intros [-> (x & -> & [-> | (a & -> & Hp)])]; [right | left]; eauto.
Qed.

Lemma Chr_as_Class n0 a s c s1 c1 :
  matches n0 (Chr a) s c s1 c1 <-> matches n0 (Class (Ascii.eqb a)) s c s1 c1.
Proof.
  rewrite matches_Chr, matches_Class. split.
  - intros [-> ->]. exists a. now rewrite Ascii.eqb_refl.
  - intros (b & -> & Hb & ->). now apply Ascii.eqb_eq in Hb as ->.
Qed.

Lemma matches_Opt_Chr n0 a s c s1 c1 :
  matches n0 (Opt (Chr a)) s c s1 c1 <->
  c1 = c /\ exists x, s = x +:+ s1 /\ optional (Ascii.eqb a) x.
Proof.
  rewrite <- matches_Opt_Class, !matches_Opt, Chr_as_Class. reflexivity.
Qed.

Lemma matches_Group_Repeat n0 i n p s c s1 c1 :
  matches n0 (Group i (Repeat n (Class p))) s c s1 c1 <->
  exists w, s = w +:+ s1 /\ String.length w = n /\ CRT.all_chars p w = true
            /\ c1 = (i, w) :: c.
Proof.
  rewrite matches_Group. split.
  - intros (c' & M & ->). apply matches_Repeat_Class in M as [-> (w & -> & H)].
    exists w. rewrite consumed_append. tauto.
  - intros (w & -> & Hlen & Hall & ->). exists c. rewrite consumed_append.
    split; [|reflexivity]. apply matches_Repeat_Class. eauto.
Qed.

Lemma matches_Group_Plus n0 i p s c s1 c1 :
  matches n0 (Group i (Plus (Class p))) s c s1 c1 <->
  exists w, s = w +:+ s1 /\ w <> "" /\ CRT.all_chars p w = true
            /\ c1 = (i, w) :: c.
Proof.
  rewrite matches_Group. split.
  - intros (c' & M & ->). apply matches_Plus_Class in M as [-> (w & -> & H)].
    exists w. rewrite consumed_append. tauto.
  - intros (w & -> & Hne & Hall & ->). exists c. rewrite consumed_append.
    split; [|reflexivity]. apply matches_Plus_Class. eauto.
Qed.

(** The end of an expression: [$] and nothing after it. *)
Lemma matches_end n0 s c s1 c1 :
  matches n0 (Seq Eol Empty) s c s1 c1 <-> s = "" /\ s1 = "" /\ c1 = c.
Proof.
  rewrite matches_Seq. split.
  - intros (s' & c' & M1 & M2). apply matches_Eol in M1 as (-> & -> & ->).
    apply matches_Empty in M2 as [-> ->]. auto.
  - intros (-> & -> & ->). exists "", c. split; constructor.
Qed.

(** Splitting off the first piece of a sequence. *)
Ltac first_piece H M :=
  let s := fresh "s" in
  let c := fresh "c" in
  apply matches_Seq in H as (s & c & M & H).

Ltac next_piece := eapply m_Seq.

End Pieces.

(** ** Microchip numbers (Chip.cpp, [VerifyMicrochip]) *)

Module Microchip.
Import RegexFacts Pieces.

(** The four forms of a microchip number. *)
Definition is_ISO (s : string) : Prop :=
  exists d, s = "9" +:+ d /\ decimal 14 d.

Definition is_Pumpkin (s : string) : Prop :=
  exists d, s = "202" +:+ d /\ decimal 12 d.

Definition is_FDXA (s : string) : Prop :=
  String.length s = 10 /\ CRT.all_chars CRT.isxdigit s = true.

(** Three groups of three digits; between two groups there may be one
    space or one asterisk. *)
Definition is_legacy (s g1 g2 g3 : string) : Prop :=
  exists x1 x2,
    s = g1 +:+ x1 +:+ g2 +:+ x2 +:+ g3 /\
    decimal 3 g1 /\ decimal 3 g2 /\ decimal 3 g3 /\
    optional (one_of " *") x1 /\ optional (one_of " *") x2.

Ltac expose H := unfold Seqs, digit, space in H; cbn [fold_right] in H.
Ltac expose_goal := unfold Seqs, digit, space; cbn [fold_right].

Lemma reISO_matches n0 s c s1 c1 :
  matches n0 reISO s c s1 c1 <->
  String.length s = n0 /\ is_ISO s /\ s1 = "" /\ c1 = c.
Proof.
  unfold reISO. expose_goal. split.
  - intros H. first_piece H M. apply matches_Bol in M as (Hlen & -> & ->).
    first_piece H M. apply matches_Chr in M as (-> & ->).
    first_piece H M. apply matches_Repeat_Class in M as [-> (w & -> & Hw)].
    apply matches_end in H as (-> & -> & ->).
    rewrite append_nil_r in *. repeat split; try assumption.
    exists w. split; [reflexivity | exact Hw].
  - intros (Hlen & (d & -> & Hd) & -> & ->).
    next_piece; [now apply matches_Bol|].
    next_piece; [now apply matches_Chr|].
    next_piece; [apply matches_Repeat_Class; split; [reflexivity|];
                 exists d; split; [symmetry; apply append_nil_r | exact Hd]|].
    now apply matches_end.
Qed.

Lemma rePumpkin_matches n0 s c s1 c1 :
  matches n0 rePumpkin s c s1 c1 <->
  String.length s = n0 /\ is_Pumpkin s /\ s1 = "" /\ c1 = c.
Proof.
  unfold rePumpkin. expose_goal. split.
  - intros H. first_piece H M. apply matches_Bol in M as (Hlen & -> & ->).
    first_piece H M. apply matches_Lit in M as (-> & ->).
    first_piece H M. apply matches_Repeat_Class in M as [-> (w & -> & Hw)].
    apply matches_end in H as (-> & -> & ->).
    rewrite append_nil_r in *. repeat split; try assumption.
    exists w. split; [reflexivity | exact Hw].
  - intros (Hlen & (d & -> & Hd) & -> & ->).
    next_piece; [now apply matches_Bol|].
    next_piece; [now apply matches_Lit|].
    next_piece; [apply matches_Repeat_Class; split; [reflexivity|];
                 exists d; split; [symmetry; apply append_nil_r | exact Hd]|].
    now apply matches_end.
Qed.

Lemma reFDXA_matches n0 s c s1 c1 :
  matches n0 reFDXA s c s1 c1 <->
  String.length s = n0 /\ is_FDXA s /\ s1 = "" /\ c1 = c.
Proof.
  unfold reFDXA. expose_goal. split.
  - intros H. first_piece H M. apply matches_Bol in M as (Hlen & -> & ->).
    first_piece H M. apply matches_Repeat_Class in M as [-> (w & -> & Hw)].
    apply matches_end in H as (-> & -> & ->).
    rewrite append_nil_r in *. repeat split; try assumption; apply Hw.
  - intros (Hlen & Hd & -> & ->).
    next_piece; [now apply matches_Bol|].
    next_piece; [apply matches_Repeat_Class; split; [reflexivity|];
                 exists s; split; [symmetry; apply append_nil_r | exact Hd]|].
    now apply matches_end.
Qed.

Lemma reOld_matches n0 s c s1 c1 :
  matches n0 reOld s c s1 c1 <->
  String.length s = n0 /\ s1 = "" /\
  exists g1 g2 g3,
    is_legacy s g1 g2 g3 /\ c1 = (3, g3) :: (2, g2) :: (1, g1) :: c.
Proof.
  unfold reOld. expose_goal. split.
  - intros H. first_piece H M. apply matches_Bol in M as (Hlen & -> & ->).
    first_piece H M. apply matches_Group_Repeat in M as (g1 & -> & Hg1 & Hd1 & ->).
    first_piece H M. apply matches_Opt_Class in M as (-> & x1 & -> & Hx1).
    first_piece H M. apply matches_Group_Repeat in M as (g2 & -> & Hg2 & Hd2 & ->).
    first_piece H M. apply matches_Opt_Class in M as (-> & x2 & -> & Hx2).
    first_piece H M. apply matches_Group_Repeat in M as (g3 & -> & Hg3 & Hd3 & ->).
    apply matches_end in H as (-> & -> & ->).
    rewrite append_nil_r in *. repeat split; try assumption.
    exists g1, g2, g3. split; [|reflexivity].
    exists x1, x2. unfold decimal. auto 10.
  - intros (Hlen & -> & g1 & g2 & g3 & (x1 & x2 & -> & [? ?] & [? ?] & [? ?] & ? & ?) & ->).
    next_piece; [now apply matches_Bol|].
    next_piece; [apply matches_Group_Repeat; eauto 6|].
    next_piece; [apply matches_Opt_Class; eauto|].
    next_piece; [apply matches_Group_Repeat; eauto 6|].
    next_piece; [apply matches_Opt_Class; eauto|].
    next_piece; [apply matches_Group_Repeat; exists g3;
                 rewrite append_nil_r; eauto 6|].
    now apply matches_end.
Qed.


Lemma reISO_spec s : matched (regex_match s reISO) = true <-> is_ISO s.
Proof.
  split.
  - destruct (regex_match s reISO) eqn:E; [intros _ | discriminate].
    apply regex_match_sound, reISO_matches in E. tauto.
  - intros H. apply (regex_match_complete _ _ []). apply reISO_matches. auto.
Qed.

Lemma rePumpkin_spec s : matched (regex_match s rePumpkin) = true <-> is_Pumpkin s.
Proof.
  split.
  - destruct (regex_match s rePumpkin) eqn:E; [intros _ | discriminate].
    apply regex_match_sound, rePumpkin_matches in E. tauto.
  - intros H. apply (regex_match_complete _ _ []). apply rePumpkin_matches. auto.
Qed.

Lemma reFDXA_spec s : matched (regex_match s reFDXA) = true <-> is_FDXA s.
Proof.
  split.
  - destruct (regex_match s reFDXA) eqn:E; [intros _ | discriminate].
    apply regex_match_sound, reFDXA_matches in E. tauto.
  - intros H. apply (regex_match_complete _ _ []). apply reFDXA_matches. auto.
Qed.

Lemma reOld_found s c :
  regex_search s reOld = Some c ->
  exists g1 g2 g3, is_legacy s g1 g2 g3 /\ c = [(3, g3); (2, g2); (1, g1)].
Proof.
  intros H. apply regex_search_sound in H as (s1 & M).
  apply (reOld_matches (String.length s) s [] s1 c) in M. tauto.
Qed.

Lemma reOld_finds s g1 g2 g3 :
  is_legacy s g1 g2 g3 -> matched (regex_search s reOld) = true.
Proof.
  intros H.
  apply (regex_search_complete s _ "" [(3, g3); (2, g2); (1, g1)]).
  apply (reOld_matches (String.length s) s [] ""). eauto 8.
Qed.

Lemma separator_not_digit a : one_of " *" a = true -> CRT.isdigit a = false.
Proof.
  unfold one_of. cbn [CRT.contains_char]. rewrite orb_false_r. intros H.
  apply orb_true_iff in H as [H | H]; apply Ascii.eqb_eq in H; now subst.
Qed.

Lemma separator_not_xdigit a : one_of " *" a = true -> CRT.isxdigit a = false.
Proof.
  unfold one_of. cbn [CRT.contains_char]. rewrite orb_false_r. intros H.
  apply orb_true_iff in H as [H | H]; apply Ascii.eqb_eq in H; now subst.
Qed.

(** The digits of a legacy number are those of its three groups. *)
Lemma legacy_digits s g1 g2 g3 :
  is_legacy s g1 g2 g3 -> digits_of s = g1 +:+ g2 +:+ g3.
Proof.
  intros (x1 & x2 & -> & H1 & H2 & H3 & Hx1 & Hx2).
  rewrite !digits_of_append.
  rewrite (digits_of_decimal _ _ H1), (digits_of_decimal _ _ H2),
    (digits_of_decimal _ _ H3).
  rewrite (digits_of_optional _ _ separator_not_digit Hx1),
    (digits_of_optional _ _ separator_not_digit Hx2).
  reflexivity.
Qed.

Lemma optional_length p x : optional p x -> String.length x <= 1.
Proof. intros [-> | (a & -> & _)]; simpl; lia. Qed.

Lemma legacy_length s g1 g2 g3 :
  is_legacy s g1 g2 g3 -> 9 <= String.length s <= 11.
Proof.
  intros (x1 & x2 & -> & [H1 _] & [H2 _] & [H3 _] & Hx1 & Hx2).
  apply optional_length in Hx1, Hx2. rewrite !length_append. lia.
Qed.

Lemma decimal_length n w : decimal n w -> String.length w = n.
Proof. now intros [H _]. Qed.

Lemma legacy_not_ISO s g1 g2 g3 : is_legacy s g1 g2 g3 -> ~ is_ISO s.
Proof.
  intros H (d & -> & Hd). apply legacy_length in H.
  apply decimal_length in Hd. rewrite length_append in H. simpl in H. lia.
Qed.

Lemma legacy_not_Pumpkin s g1 g2 g3 : is_legacy s g1 g2 g3 -> ~ is_Pumpkin s.
Proof.
  intros H (d & -> & Hd). apply legacy_length in H.
  apply decimal_length in Hd. rewrite length_append in H. simpl in H. lia.
Qed.

Lemma optional_xdigit x :
  optional (one_of " *") x -> CRT.all_chars CRT.isxdigit x = true -> x = "".
Proof.
  intros [-> | (a & -> & Ha)]; [reflexivity|]. simpl.
  now rewrite (separator_not_xdigit a Ha).
Qed.

Lemma legacy_not_FDXA s g1 g2 g3 : is_legacy s g1 g2 g3 -> ~ is_FDXA s.
Proof.
  intros (x1 & x2 & -> & [H1 _] & [H2 _] & [H3 _] & Hx1 & Hx2) [Hlen Hall].
  rewrite !all_chars_append in Hall. rewrite !andb_true_iff in Hall.
  destruct Hall as (_ & Ha1 & _ & Ha2 & _).
  apply optional_xdigit in Ha1, Ha2; try assumption. subst.
  rewrite !length_append in Hlen. simpl in Hlen. lia.
Qed.

End Microchip.


(** ** Phone numbers (Dog.cpp, [VerifyPhone]) *)

Module Phone.
Import RegexFacts Pieces.

(** The punctuation the expression allows after the area code and after
    the prefix. *)
Definition after_area (a : ascii) : bool := CRT.isspace a || one_of "-/*,." a.
Definition after_prefix (a : ascii) : bool := CRT.isspace a || one_of "-=*,." a.

(** The values the expression accepts, with their three groups of digits. *)
Definition phone_shape (s area prefix line : string) : Prop :=
  exists plus one sp lp rp seps1 seps2,
    s = plus +:+ one +:+ sp +:+ lp +:+ area +:+ rp +:+ seps1 +:+ prefix
        +:+ seps2 +:+ line /\
    optional (Ascii.eqb "+") plus /\ optional (Ascii.eqb "1") one /\
    optional CRT.isspace sp /\ optional (Ascii.eqb "(") lp /\
    decimal 3 area /\ optional (Ascii.eqb ")") rp /\
    CRT.all_chars after_area seps1 = true /\ decimal 3 prefix /\
    CRT.all_chars after_prefix seps2 = true /\ decimal 4 line.

Ltac expose_goal := unfold Seqs, digit, space; cbn [fold_right].

Lemma rePhone_matches n0 s c s1 c1 :
  matches n0 rePhone s c s1 c1 <->
  String.length s = n0 /\ s1 = "" /\
  exists area prefix line,
    phone_shape s area prefix line /\
    c1 = (3, line) :: (2, prefix) :: (1, area) :: c.
Proof.
  unfold rePhone. expose_goal. split.
  - intros H. first_piece H M. apply matches_Bol in M as (Hlen & -> & ->).
    first_piece H M. apply matches_Opt_Chr in M as (-> & plus & -> & Hplus).
    first_piece H M. apply matches_Opt_Chr in M as (-> & one & -> & Hone).
    first_piece H M. apply matches_Opt_Class in M as (-> & sp & -> & Hsp).
    first_piece H M. apply matches_Opt_Chr in M as (-> & lp & -> & Hlp).
    first_piece H M.
    apply (matches_Group_Repeat _ 1 3 CRT.isdigit) in M
      as (area & -> & Harea & Hdarea & ->).
    first_piece H M. apply matches_Opt_Chr in M as (-> & rp & -> & Hrp).
    first_piece H M. apply matches_Star_Class in M as (-> & seps1 & -> & Hseps1).
    first_piece H M.
    apply (matches_Group_Repeat _ 2 3 CRT.isdigit) in M
      as (prefix & -> & Hprefix & Hdprefix & ->).
    first_piece H M. apply matches_Star_Class in M as (-> & seps2 & -> & Hseps2).
    first_piece H M.
    apply (matches_Group_Repeat _ 3 4 CRT.isdigit) in M
      as (line & -> & Hline & Hdline & ->).
    apply matches_end in H as (-> & -> & ->).
    rewrite append_nil_r in *. repeat split; try assumption.
    exists area, prefix, line. split; [|reflexivity].
    exists plus, one, sp, lp, rp, seps1, seps2. unfold decimal. auto 20.
  - intros (Hlen & -> & area & prefix & line & Hshape & ->).
    destruct Hshape as (plus & one & sp & lp & rp & seps1 & seps2 & -> & Hplus
      & Hone & Hsp & Hlp & [? ?] & Hrp & Hseps1 & [? ?] & Hseps2 & [? ?]).
    next_piece; [now apply matches_Bol|].
    next_piece; [apply matches_Opt_Chr; eauto|].
    next_piece; [apply matches_Opt_Chr; eauto|].
    next_piece; [apply matches_Opt_Class; eauto|].
    next_piece; [apply matches_Opt_Chr; eauto|].
    next_piece; [apply (matches_Group_Repeat _ 1 3 CRT.isdigit); eauto 6|].
    next_piece; [apply matches_Opt_Chr; eauto|].
    next_piece; [apply matches_Star_Class; eauto|].
    next_piece; [apply (matches_Group_Repeat _ 2 3 CRT.isdigit); eauto 6|].
    next_piece; [apply matches_Star_Class; eauto|].
    next_piece; [apply (matches_Group_Repeat _ 3 4 CRT.isdigit); exists line;
                 rewrite append_nil_r; eauto 6|].
    now apply matches_end.
Qed.

Lemma rePhone_found s c :
  regex_search s rePhone = Some c ->
  exists area prefix line,
    phone_shape s area prefix line /\
    c = [(3, line); (2, prefix); (1, area)].
Proof.
  intros H. apply regex_search_sound in H as (s1 & M).
  apply (rePhone_matches (String.length s) s [] s1 c) in M. tauto.
Qed.

Lemma rePhone_finds s area prefix line :
  phone_shape s area prefix line -> matched (regex_search s rePhone) = true.
Proof.
  intros H.
  apply (regex_search_complete s _ "" [(3, line); (2, prefix); (1, area)]).
  apply (rePhone_matches (String.length s) s [] ""). eauto 8.
Qed.

Lemma punctuation_not_digit (p : ascii -> bool) :
  (forall a, p a = true -> after_area a = true \/ after_prefix a = true
                           \/ one_of "+()" a = true) ->
  forall a, p a = true -> CRT.isdigit a = false.
Proof.
  intros Hp a Ha. apply Hp in Ha. clear Hp.
  destruct a as [[] [] [] [] [] [] [] []]; vm_compute in Ha |- *;
    intuition congruence.
Qed.

Lemma eqb_one_of c chars a :
  CRT.contains_char c chars = true -> Ascii.eqb c a = true ->
  one_of chars a = true.
Proof. intros H E. apply Ascii.eqb_eq in E as <-. exact H. Qed.

(** The digits of an accepted value: the 1 that may lead it, then the three
    groups. *)
Lemma phone_digits s area prefix line :
  phone_shape s area prefix line ->
  exists one, optional (Ascii.eqb "1") one /\
              digits_of s = one +:+ area +:+ prefix +:+ line.
Proof.
  intros (plus & one & sp & lp & rp & seps1 & seps2 & -> & Hplus & Hone & Hsp
          & Hlp & Harea & Hrp & Hseps1 & Hprefix & Hseps2 & Hline).
  exists one. split; [exact Hone|].
  rewrite !digits_of_append.
  rewrite (digits_of_decimal _ _ Harea), (digits_of_decimal _ _ Hprefix),
    (digits_of_decimal _ _ Hline).
  rewrite (digits_of_optional (Ascii.eqb "+") plus), (digits_of_optional CRT.isspace sp),
    (digits_of_optional (Ascii.eqb "(") lp), (digits_of_optional (Ascii.eqb ")") rp),
    (digits_of_none after_area seps1), (digits_of_none after_prefix seps2);
    try assumption;
    try (apply punctuation_not_digit; intros a Ha; auto;
         first [ left; unfold after_area; rewrite Ha; reflexivity
               | right; right; eapply eqb_one_of; [|exact Ha]; reflexivity ]).
  destruct Hone as [-> | (a & -> & Ha)]; [reflexivity|].
  apply Ascii.eqb_eq in Ha as <-. reflexivity.
Qed.

(** The three groups are determined by the value. *)
Lemma phone_shape_unique s area prefix line area' prefix' line' :
  phone_shape s area prefix line -> phone_shape s area' prefix' line' ->
  area +:+ prefix +:+ line = area' +:+ prefix' +:+ line'.
Proof.
  intros H H'.
  assert (Hlen : String.length (area +:+ prefix +:+ line) = 10).
  { destruct H as (? & ? & ? & ? & ? & ? & ? & _ & _ & _ & _ & _ & [? _] & _
                   & _ & [? _] & _ & [? _]). rewrite !length_append. lia. }
  assert (Hlen' : String.length (area' +:+ prefix' +:+ line') = 10).
  { destruct H' as (? & ? & ? & ? & ? & ? & ? & _ & _ & _ & _ & _ & [? _] & _
                    & _ & [? _] & _ & [? _]). rewrite !length_append. lia. }
  apply phone_digits in H as (one & Hone & E).
  apply phone_digits in H' as (one' & Hone' & E').
  rewrite E in E'. clear E.
  assert (Hl : String.length one = String.length one').
  { apply (f_equal String.length) in E'. rewrite !length_append in *. lia. }
  destruct Hone as [-> | (a & -> & Ha)], Hone' as [-> | (a' & -> & Ha')];
    try discriminate.
  - exact E'.
  - apply Ascii.eqb_eq in Ha, Ha'. subst. now injection E'.
Qed.

(** The reading of the values that C8 describes: "+1" may lead, the area
    code may stand in parentheses, and the same seven punctuation characters
    may follow the area code and the prefix. *)
Definition claimed_separator (a : ascii) : bool := one_of " -/*,.=" a.

Definition phone_as_claimed (s : string) : Prop :=
  exists lead lp area rp seps1 prefix seps2 line,
    s = lead +:+ lp +:+ area +:+ rp +:+ seps1 +:+ prefix +:+ seps2 +:+ line /\
    (lead = "" \/ lead = "+1") /\
    ((lp = "" /\ rp = "") \/ (lp = "(" /\ rp = ")")) /\
    decimal 3 area /\ CRT.all_chars claimed_separator seps1 = true /\
    decimal 3 prefix /\ CRT.all_chars claimed_separator seps2 = true /\
    decimal 4 line.

End Phone.

(** C8, as stated, fails: "408=555-1212" has an equals sign between the
    area code and the prefix, which the claim allows, and is refused. *)
Lemma C8_phone_counterexample :
  Phone.phone_as_claimed "408=555-1212" /\
  CDog_VerifyPhone sample_puppy "home" "408=555-1212" true no_messages
  = (false, "", no_messages).
Proof.
  split; [|vm_compute; reflexivity].
  exists "", "", "408", "", "=", "555", "-", "1212".
  unfold Pieces.decimal. repeat split; auto.
Qed.

(** C8, amended: for every non-empty phone value other than the word
    "none", the verification succeeds iff the value consists of an optional
    "+", an optional "1", an optional white-space character, an optional
    "(", a three-digit area code, an optional ")", any number of the
    characters white space, hyphen, slash, asterisk, comma and period, a
    three-digit prefix, any number of the characters white space, hyphen,
    equals, asterisk, comma and period, and a four-digit line number.  On
    success the field becomes the ten digits of the three groups; on failure
    it is cleared, and the failure is reported unless the caller asked for
    quiet. *)
Theorem C8_VerifyPhone (this : CDog) (sWhich sPhone : string) (fQuiet : bool)
    (log : Log) :
  sPhone <> "" -> sPhone <> "none" ->
  let result := CDog_VerifyPhone this sWhich sPhone fQuiet log in
  (result.1.1 = true <->
     exists area prefix line, Phone.phone_shape sPhone area prefix line) /\
  (forall area prefix line,
     Phone.phone_shape sPhone area prefix line ->
     result = (true, area +:+ prefix +:+ line, log)) /\
  (result.1.1 = false ->
     result = (false, "",
               if fQuiet then log
               else BADDOGS this ("invalid " +:+ sWhich +:+ " phone " +:+ dq
                                  +:+ sPhone +:+ dq) log)).
Proof.
  intros Hne Hnone. cbv zeta. unfold CDog_VerifyPhone.
  apply empty_false in Hne. apply String.eqb_neq in Hnone.
  rewrite Hne, Hnone. cbn [orb].
  destruct (regex_search sPhone rePhone) as [rmPhone|] eqn:Hsearch.
  - apply Phone.rePhone_found in Hsearch as (area & prefix & line & Hshape & ->).
    cbn [str Nat.eqb fst snd]. split; [|split].
    + split; eauto.
    + intros area' prefix' line' Hshape'.
      now rewrite (Phone.phone_shape_unique _ _ _ _ _ _ _ Hshape Hshape').
    + discriminate.
  - cbn [fst snd]. split; [|split].
    + split; [discriminate|]. intros (area & prefix & line & Hshape).
      apply Phone.rePhone_finds in Hshape. now rewrite Hsearch in Hshape.
    + intros area prefix line Hshape.
      apply Phone.rePhone_finds in Hshape. now rewrite Hsearch in Hshape.
    + intros _. now destruct fQuiet.
Qed.

Lemma C8_VerifyPhone_witness :
  let result :=
    CDog_VerifyPhone sample_puppy "home" "+1 (408) 555-1212" false no_messages in
  (result.1.1 = true <->
     exists area prefix line,
       Phone.phone_shape "+1 (408) 555-1212" area prefix line) /\
  (forall area prefix line,
     Phone.phone_shape "+1 (408) 555-1212" area prefix line ->
     result = (true, area +:+ prefix +:+ line, no_messages)) /\
  (result.1.1 = false ->
     result = (false, "",
               BADDOGS sample_puppy
                 ("invalid " +:+ "home" +:+ " phone " +:+ dq
                  +:+ "+1 (408) 555-1212" +:+ dq) no_messages)).
Proof.
  apply (C8_VerifyPhone sample_puppy "home" "+1 (408) 555-1212" false
           no_messages); discriminate.
Defined.

(** ** The two layouts of the dog information report (Dog.cpp, [FromRow]) *)

Module Layout.
Import RegexFacts Pieces.

Definition header (fNew : bool) : string :=
  if fNew then m_sNewColumnHeaders else m_sOldColumnHeaders.

(** The column titles of a layout, as [CCSVFile::Read] checks them. *)
Definition columns (fNew : bool) : CCSVRow := CCSVRow_Parse (header fNew).

Definition total (fNew : bool) : nat :=
  if fNew then TOTAL_NEW_COLUMNS else TOTAL_OLD_COLUMNS.

Fixpoint column_index (title : string) (titles : CCSVRow) : option nat :=
  match titles with
  | [] => None
  | t :: titles' =>
      if String.eqb t title then Some 0
      else option_map S (column_index title titles')
  end.


(** The field of a row that stands under a title of the layout. *)
Definition column (fNew : bool) (row : CCSVRow) (title : string) : string :=
  match column_index title (columns fNew) with
  | Some i => nth i row EmptyString
  | None => EmptyString
  end.

(** The record whose fields are read under the titles of the layout. *)
Definition record_by_title (fNew : bool) (row : CCSVRow) (nNumber : N) : CDog :=
  let col := column fNew row in
  mkCDog nNumber (col "Dog Name")
    (if stricmp_eq (col "Micropchip number") "none" then ""
     else col "Micropchip number")
    (col "Dog Age") (col "Dog Sex") (col "Dog Neuter") (col "Dog Status")
    (col "Dog Location") (col "How Acquired") (col "Date Acquired")
    (col "Primary Contact Fname") (col "Primary Contact Lname")
    (col "Surrender Fname") (col "Surrender Lname") (col "Surrender Address")
    (col "Surrender City") (col "Surrender State") (col "Surrender Zip Code")
    (col "Originating Area") (col "Adoption Fname") (col "Adoption Lname")
    (col "AC Fname") (col "AC Lname") (col "Adoption Address")
    (col "Adoption City") (col "Adoption State") (col "Adoption Zip Code")
    (col "Adoption Area") (col "Adoption Email") (col "Adoption Home Phone")
    (col "Adoption Work Phone") (col "Adoption Cell Phone")
    (col "Adoption Status") (col "Adoption or Disposition Date") false.

(** A decimal numeral of the number [n]. *)
Definition numeral (s : string) (n : Z) : Prop :=
  s <> "" /\ CRT.all_chars CRT.isdigit s = true /\ CRT.digits_value 0 s = n.


Lemma reNumber_spec s :
  matched (regex_match s reNumber) = true <->
  s <> "" /\ CRT.all_chars CRT.isdigit s = true.
Proof.
  unfold reNumber, digit. split.
  - destruct (regex_match s (Plus (Class CRT.isdigit))) eqn:E;
      [intros _ | discriminate].
    apply regex_match_sound, matches_Plus_Class in E as [_ (w & -> & H)].
    now rewrite append_nil_r.
  - intros [Hne Hall]. apply (regex_match_complete _ _ []).
    apply matches_Plus_Class. split; [reflexivity|]. exists s.
    now rewrite append_nil_r.
Qed.

Lemma digits_value_ge acc s : (0 <= acc -> acc <= CRT.digits_value acc s)%Z.
Proof.
  revert acc. induction s as [|a s IH]; intros acc Hacc; simpl; [lia|].
  destruct (CRT.isdigit a) eqn:Ha; [|lia].
  assert (0 <= CRT.digit_value a)%Z.
  { unfold CRT.isdigit, CRT.in_range in Ha. unfold CRT.digit_value.
    apply andb_true_iff in Ha as [Ha _]. apply N.leb_le in Ha. lia. }
  specialize (IH (10 * acc + CRT.digit_value a)%Z). lia.
Qed.

Lemma digit_not_space a : CRT.isdigit a = true -> CRT.isspace a = false.
Proof.
  destruct a as [[] [] [] [] [] [] [] []]; vm_compute; congruence.
Qed.

Lemma digit_not_sign a :
  CRT.isdigit a = true -> a <> "-"%char /\ a <> "+"%char.
Proof. split; intros ->; discriminate. Qed.

(** [stoi] on a numeral that fits an [int]. *)
Lemma stoi_numeral s n :
  numeral s n -> (n <= CRT.INT_MAX)%Z -> CRT.stoi s = Some n.
Proof.
  intros (Hne & Hall & Hval) Hmax. destruct s as [|a s]; [congruence|].
  pose proof Hall as Hall'. simpl in Hall'.
  apply andb_true_iff in Hall' as [Ha _].
  unfold CRT.stoi. cbn [CRT.skip_spaces]. rewrite (digit_not_space a Ha).
  destruct (digit_not_sign a Ha) as [Hm Hp].
  assert (E : (match String a s with
               | String "-"%char t => (true, t)
               | String "+"%char t => (false, t)
               | _ => (false, String a s)
               end) = (false, String a s)).
  { destruct a as [[] [] [] [] [] [] [] []]; try reflexivity; congruence. }
  rewrite E. rewrite Ha, Hval.
  pose proof (digits_value_ge 0 (String a s)) as Hge. rewrite Hval in Hge.
  replace (- CRT.INT_MAX - 1 <=? n)%Z with true
    by (symmetry; apply Z.leb_le; unfold CRT.INT_MAX; lia).
  replace (n <=? CRT.INT_MAX)%Z with true by (symmetry; now apply Z.leb_le).
  reflexivity.
Qed.

End Layout.

Ltac destruct_row row n :=
  lazymatch n with
  | O => destruct row; [|discriminate]
  | S ?n' =>
      let c := fresh "c" in
      destruct row as [|c row]; [discriminate|]; destruct_row row n'
  end.





(** A row of the old layout and a row of the new one. *)
Definition sample_old_row : CCSVRow :=
  ["Nova"; "100"; "981023456789012"; "3 years 2 months"; "Female";
   "Golden Retriever"; "Yes"; "Adopted"; "Reno"; "Surrender"; "2020-05-15";
   "Pat"; "Smith"; "Sam"; "Jones"; "1 Main St"; "Reno"; "NV"; "89501";
   "Nevada"; "Jane"; "Doe"; "Alex"; "Lee"; "2 Oak Ave"; "Sparks"; "NV";
   "89431"; "Nevada"; "jane@example.org"; "775-555-1212"; ""; ""; "Final";
   "2020-07-01"].

Definition sample_new_row : CCSVRow :=
  firstn 20 sample_old_row ++ "Washoe" :: skipn 20 sample_old_row.



(** The same row in the new layout gives the same record. *)
Lemma FromRow_sample_rows :
  CDog_FromRow sample_new_row true no_messages
  = CDog_FromRow sample_old_row false no_messages.
Proof. vm_compute. reflexivity. Qed.

(** ** Rows: parsing what was formatted (CSVRow.cpp) *)

Module Row.

(** A field that the parser hands back unchanged: no space or tab at either
    end and no equals sign at the front. *)
Definition clean (f : string) : bool :=
  match f with
  | EmptyString => true
  | String a _ =>
      negb (is_blank a) && negb (Ascii.eqb a "="%char)
      && match last_char f with
         | Some z => negb (is_blank z)
         | None => true
         end
  end.

(** A field without a comma and without a quotation mark. *)
Definition plain (f : string) : bool :=
  negb (CRT.contains_char QUOTE f) && negb (CRT.contains_char COMMA f).

Lemma substring_all (s : string) : String.substring 0 (String.length s) s = s.
Proof. induction s as [|a s IH]; [reflexivity|]. simpl. now rewrite IH. Qed.

Lemma find_last_not_blank_last (s : string) (z : ascii) :
  last_char s = Some z -> is_blank z = false ->
  find_last_not_blank s = Some (String.length s - 1).
Proof.
  induction s as [|a s IH]; [discriminate|]. intros Hlast Hz.
  destruct s as [|b s].
  - injection Hlast as ->. simpl. now rewrite Hz.
  - change (last_char (String a (String b s))) with (last_char (String b s))
      in Hlast.
    cbn [find_last_not_blank]. cbn [find_last_not_blank] in IH.
    rewrite (IH Hlast Hz). simpl. now rewrite Nat.sub_0_r.
Qed.

Lemma last_char_cons (a : ascii) (s : string) : is_Some (last_char (String a s)).
Proof.
  revert a. induction s as [|b s IH]; intros a; [now exists a|].
  change (last_char (String a (String b s))) with (last_char (String b s)).
  apply IH.
Qed.

Lemma TrimColumn_clean (f : string) :
  clean f = true -> CCSVRow_TrimColumn f = f.
Proof.
  destruct f as [|a s]; [reflexivity|]. unfold clean.
  destruct (last_char_cons a s) as [z Hz]. rewrite Hz.
  rewrite !andb_true_iff, !negb_true_iff. intros [[Ha _] Hb].
  unfold CCSVRow_TrimColumn. cbn [find_first_not_blank]. rewrite Ha.
  rewrite (find_last_not_blank_last _ z Hz Hb). unfold substr.
  replace (String.length (String a s) - 1 + 1) with (String.length (String a s))
    by (simpl; lia).
  apply substring_all.
Qed.

Lemma RemoveEquals_clean (f : string) :
  clean f = true -> CCSVRow_RemoveEquals f = f.
Proof.
  destruct f as [|a s]; [reflexivity|]. unfold clean.
  rewrite !andb_true_iff, !negb_true_iff. intros [[_ Ha] _].
  unfold CCSVRow_RemoveEquals. now rewrite Ha.
Qed.

Lemma normalise_clean (f : string) :
  clean f = true ->
  CCSVRow_TrimColumn (CCSVRow_RemoveEquals (CCSVRow_TrimColumn f)) = f.
Proof.
  intros H. now rewrite (TrimColumn_clean f H), (RemoveEquals_clean f H),
    (TrimColumn_clean f H).
Qed.

(** What follows a field in a line: nothing, or a comma and more. *)
Definition field_end (rest : string) : Prop :=
  rest = "" \/ exists rest', rest = String COMMA rest'.

Lemma ParseField_loop_end rest fQuoteLast acc :
  field_end rest -> ParseField_loop rest false fQuoteLast acc = (acc, rest).
Proof.
  intros [-> | (rest' & ->)]; [reflexivity|]. cbn [ParseField_loop].
  now rewrite Ascii.eqb_refl.
Qed.

Lemma push_back_append (acc : string) (a : ascii) (s : string) :
  push_back acc a +:+ s = acc +:+ String a s.
Proof. unfold push_back. now rewrite append_assoc. Qed.

(** A plain field is copied up to the comma or the end of the line. *)
Lemma ParseField_loop_plain f : forall rest fQuoteLast acc,
  plain f = true -> field_end rest ->
  ParseField_loop (f +:+ rest) false fQuoteLast acc = (acc +:+ f, rest).
Proof.
  induction f as [|a f IH]; intros rest ql acc Hplain Hend.
  - rewrite append_nil_r. now apply ParseField_loop_end.
  - unfold plain in Hplain. cbn [CRT.contains_char] in Hplain.
    rewrite !negb_orb, !andb_true_iff, !negb_true_iff in Hplain.
    destruct Hplain as [[Hq Hq'] [Hc Hc']].
    rewrite append_cons. cbn [ParseField_loop]. rewrite Hc, Hq. cbn [andb].
    rewrite IH; [now rewrite push_back_append | | exact Hend].
    unfold plain. now rewrite Hq', Hc'.
Qed.

(** Between quotation marks the escaped field is read back. *)
Lemma ParseField_loop_quoted f : forall rest acc,
  ParseField_loop (escape_quotes f +:+ String QUOTE rest) true false acc
  = ParseField_loop rest false true (acc +:+ f).
Proof.
  induction f as [|a f IH]; intros rest acc.
  - rewrite append_nil_r. reflexivity.
  - cbn [escape_quotes]. destruct (Ascii.eqb a QUOTE) eqn:Ha.
    + apply Ascii.eqb_eq in Ha as ->. rewrite !append_cons.
      cbn [ParseField_loop]. rewrite Ascii.eqb_refl.
      replace (Ascii.eqb QUOTE COMMA) with false by reflexivity.
      cbn [andb negb]. rewrite IH. now rewrite push_back_append.
    + rewrite append_cons. cbn [ParseField_loop]. rewrite Ha.
      rewrite andb_false_r. rewrite IH. now rewrite push_back_append.
Qed.

Lemma ParseField_FormatField f rest :
  field_end rest ->
  CCSVRow_ParseField (CCSVRow_FormatField f +:+ rest) = (f, rest).
Proof.
  intros Hend. unfold CCSVRow_ParseField, CCSVRow_FormatField.
  destruct (CCSVRow_NeedsQuotes f) eqn:Hq; cbn [negb].
  - rewrite append_assoc, append_cons.
    change (String QUOTE "" +:+ rest) with (String QUOTE rest).
    cbn [ParseField_loop].
    replace (Ascii.eqb QUOTE COMMA) with false by reflexivity.
    rewrite Ascii.eqb_refl. cbn [andb negb].
    rewrite ParseField_loop_quoted. rewrite append_nil_l.
    now apply ParseField_loop_end.
  - rewrite ParseField_loop_plain; [reflexivity | | exact Hend].
    unfold CCSVRow_NeedsQuotes in Hq. unfold plain.
    destruct (CRT.contains_char QUOTE f); [discriminate|].
    now destruct (CRT.contains_char COMMA f).
Qed.

(** The fields after the first, each behind its comma. *)
Fixpoint more (cols : CCSVRow) : string :=
  match cols with
  | [] => EmptyString
  | col :: cols' => String COMMA (CCSVRow_FormatField col +:+ more cols')
  end.

Lemma Format_loop_more cols : forall sResult,
  Format_loop false cols sResult = sResult +:+ more cols.
Proof.
  induction cols as [|col cols IH]; intros sResult; cbn [Format_loop more].
  - now rewrite append_nil_r.
  - rewrite IH. unfold push_back. rewrite !append_assoc. reflexivity.
Qed.

Lemma Format_cons col cols :
  CCSVRow_Format (col :: cols) = CCSVRow_FormatField col +:+ more cols.
Proof.
  unfold CCSVRow_Format. cbn [Format_loop]. rewrite Format_loop_more.
  now rewrite append_nil_l.
Qed.

Lemma field_end_more cols : field_end (more cols).
Proof. destruct cols; [now left | right; eexists; reflexivity]. Qed.

Lemma length_more cols : length cols <= String.length (more cols).
Proof.
  induction cols as [|col cols IH]; [simpl; lia|].
  cbn [more length String.length]. rewrite length_append. lia.
Qed.

Lemma Parse_loop_Format cols : forall fuel col done,
  Forall (fun f => clean f = true) (col :: cols) ->
  length cols < fuel ->
  Parse_loop fuel (CCSVRow_FormatField col +:+ more cols) done
  = done ++ col :: cols.
Proof.
  induction cols as [|col' cols IH]; intros fuel col done Hclean Hfuel;
    (destruct fuel as [|fuel]; [simpl in Hfuel; lia|]);
    cbn [Parse_loop]; rewrite (ParseField_FormatField _ _ (field_end_more _));
    rewrite (normalise_clean col) by (now inversion Hclean).
  - reflexivity.
  - cbn [more]. rewrite IH.
    + now rewrite <- app_assoc.
    + now inversion Hclean.
    + simpl in Hfuel. lia.
Qed.

Lemma FormatField_empty f : CCSVRow_FormatField f = "" -> f = "".
Proof.
  unfold CCSVRow_FormatField. destruct (CCSVRow_NeedsQuotes f); [discriminate|].
  trivial.
Qed.

Lemma Parse_Format (fields : CCSVRow) :
  Forall (fun f => clean f = true) fields -> fields <> [""] ->
  CCSVRow_Parse (CCSVRow_Format fields) = fields.
Proof.
  intros Hclean Hne. destruct fields as [|col cols]; [reflexivity|].
  rewrite Format_cons. unfold CCSVRow_Parse.
  destruct (Nat.eqb_spec (String.length (CCSVRow_FormatField col +:+ more cols)) 0)
    as [E|E].
  - apply length_zero, append_eq_nil in E as [E1 E2].
    apply FormatField_empty in E1. destruct cols; [congruence | discriminate].
  - rewrite Parse_loop_Format; [reflexivity | exact Hclean |].
    rewrite length_append. pose proof (length_more cols). lia.
Qed.

End Row.

(** C5, as stated, fails: a row of one empty field is formatted as the
    empty line, which parses to no field at all; and a field with a leading
    space comes back without it. *)
Lemma C5_round_trip_counterexample :
  CCSVRow_Parse (CCSVRow_Format [""]) <> [""] /\
  Row.plain " a" = true /\
  CCSVRow_Format (CCSVRow_Parse (CCSVRow_Format [" a"])) <> CCSVRow_Format [" a"].
Proof. repeat split; vm_compute; congruence. Qed.

(** C5, amended: for every list of fields, other than the list of one empty
    field, whose fields have no space or tab at either end and no equals
    sign at the front, parsing the formatted line returns exactly the
    original fields; and for every such field [f] without a comma and
    without a quotation mark, formatting what was parsed from the formatted
    field gives the formatted field again. *)
Theorem C5_round_trip (fields : CCSVRow) (f : string) :
  Forall (fun f => Row.clean f = true) fields ->
  Row.clean f = true -> Row.plain f = true ->
  (fields <> [""] -> CCSVRow_Parse (CCSVRow_Format fields) = fields) /\
  CCSVRow_Format (CCSVRow_Parse (CCSVRow_Format [f])) = CCSVRow_Format [f].
Proof.
  intros Hfields Hf _. split; [now apply Row.Parse_Format|].
  destruct (String.eqb_spec f "") as [->|Hne]; [reflexivity|].
  rewrite Row.Parse_Format; [reflexivity | now constructor | congruence].
Qed.

Lemma C5_round_trip_witness :
  (["a"; "b,c"; String QUOTE "d"; ""] <> [""] ->
   CCSVRow_Parse (CCSVRow_Format ["a"; "b,c"; String QUOTE "d"; ""])
   = ["a"; "b,c"; String QUOTE "d"; ""]) /\
  CCSVRow_Format (CCSVRow_Parse (CCSVRow_Format ["Nova"])) = CCSVRow_Format ["Nova"].
Proof.
  apply (C5_round_trip ["a"; "b,c"; String QUOTE "d"; ""] "Nova");
    [repeat constructor | reflexivity | reflexivity].
Defined.

(** ** Reading a file (CSVFile.cpp, [Read]) *)

Module File.

Definition newline : string := String "010"%char EmptyString.

Definition no_newline (line : string) : bool :=
  negb (CRT.contains_char "010"%char line).

(** The text of a file whose lines all end in a newline. *)
Fixpoint text_of (lines : list string) : string :=
  match lines with
  | [] => EmptyString
  | line :: lines' => line +:+ newline +:+ text_of lines'
  end.

(** The log after some more lines on the console. *)
Definition reported (msgs : list string) (log : Log) : Log :=
  {| console := console log ++ msgs; bad_dogs := bad_dogs log |}.

(** What [Read] says about the header line. *)
Definition header_report (sHeader first : string) : list string :=
  if CCSVRow_Verify (CCSVRow_Parse first) sHeader then []
  else ["CCSVFile::Read() header does not match"].

(** What [Read] says about the rows after line [nLines], when the header
    had [nCols] columns. *)
Fixpoint row_reports (nCols : nat) (nLines : N) (data : list string)
    : list string :=
  match data with
  | [] => []
  | line :: data' =>
      let nLines := uint32_incr nLines in
      (if Nat.ltb 0 nCols && negb (Nat.eqb (length (CCSVRow_Parse line)) nCols)
       then ["CCSVFile::Read() wrong number of columns in line "
             +:+ CRT.to_string nLines]
       else [])
      ++ row_reports nCols nLines data'
  end.

Lemma row_reports_none nLines data : row_reports 0 nLines data = [].
Proof.
  revert nLines. induction data as [|line data IH]; intros nLines;
    [reflexivity|].
  cbn [row_reports Nat.ltb Nat.leb andb app]. apply IH.
Qed.

Lemma reported_nil log : reported [] log = log.
Proof. destruct log. unfold reported. simpl. now rewrite app_nil_r. Qed.

Lemma reported_app a b log : reported (a ++ b) log = reported b (reported a log).
Proof. unfold reported. simpl. now rewrite app_assoc. Qed.

Lemma MSGS_reported msg log : MSGS msg log = reported [msg] log.
Proof. reflexivity. Qed.

Lemma getline_loop_line line : forall rest str,
  no_newline line = true ->
  getline_loop (line +:+ newline +:+ rest) str
  = (str +:+ line, {| buf := rest; eofbit := false |}).
Proof.
  induction line as [|a line IH]; intros rest str Hline.
  - rewrite append_nil_r. reflexivity.
  - unfold no_newline in Hline. cbn [CRT.contains_char] in Hline.
    rewrite negb_orb, andb_true_iff, negb_true_iff in Hline.
    destruct Hline as [Ha Hline]. rewrite append_cons. cbn [getline_loop].
    rewrite Ha. rewrite IH by exact Hline.
    unfold push_back. now rewrite append_assoc.
Qed.

Lemma Read_line line lines row :
  no_newline line = true ->
  CCSVRow_Read {| buf := text_of (line :: lines); eofbit := false |} row
  = (CCSVRow_Parse line, {| buf := text_of lines; eofbit := false |}).
Proof.
  intros Hline. unfold CCSVRow_Read, getline. cbn [eofbit buf text_of].
  now rewrite getline_loop_line.
Qed.

Lemma Read_end row :
  CCSVRow_Read {| buf := text_of []; eofbit := false |} row
  = ([], {| buf := ""; eofbit := true |}).
Proof. reflexivity. Qed.

(** The loop stores every line as a row and only writes to the console. *)
Lemma Read_loop_lines data : forall fuel row nCols nLines rows log,
  Forall (fun line => no_newline line = true) data ->
  length data < fuel ->
  Read_loop fuel {| buf := text_of data; eofbit := false |} row nCols nLines
    rows log
  = Some (rows ++ map CCSVRow_Parse data,
          reported (row_reports nCols nLines data) log).
Proof.
  induction data as [|line data IH]; intros fuel row nCols nLines rows log
    Hdata Hfuel; (destruct fuel as [|fuel]; [simpl in Hfuel; lia|]);
    cbn [Read_loop].
  - rewrite Read_end. cbn [eofbit length Nat.eqb andb map row_reports].
    now rewrite app_nil_r, reported_nil.
  - inversion Hdata as [|? ? Hline Hdata']; subst.
    rewrite (Read_line _ _ _ Hline). cbn [eofbit andb].
    rewrite IH; [|exact Hdata' | simpl in Hfuel; lia].
    cbn [map row_reports]. rewrite <- app_assoc. cbn [app].
    rewrite reported_app. do 2 f_equal.
    now destruct (Nat.ltb 0 nCols && negb (Nat.eqb (length (CCSVRow_Parse line)) nCols));
      [rewrite MSGS_reported | rewrite reported_nil].
Qed.

End File.

(** A file of three lines, and nothing else on the disk. *)
Definition sample_disk (name : string) : option string :=
  if String.eqb name "dogs.csv"
  then Some (File.text_of ["Name,Number"; "Nova,100"; "Rex"])
  else None.

(** C6, as stated, fails: with a header that does not match and a row of
    another length the file is read to its end, both rows are stored and the
    run goes on; and without a header check rows of two fields and of one
    field are stored and nothing at all is reported. *)
Lemma C6_Read_counterexample :
  CCSVFile_Read_file 4 sample_disk "dogs.csv" "Name,Chip" [] no_messages
  = Some (Returns
            ([["Nova"; "100"]; ["Rex"]],
             File.reported
               ["CCSVFile::Read() header does not match";
                "CCSVFile::Read() wrong number of columns in line 3"]
               no_messages)) /\
  CCSVFile_Read_file 4 sample_disk "dogs.csv" "" [] no_messages
  = Some (Returns ([["Name"; "Number"]; ["Nova"; "100"]; ["Rex"]], no_messages)).
Proof. split; vm_compute; reflexivity. Qed.

(** C6, amended: when a file whose lines all end in a newline is read with
    an expected header, a header that does not match and every row whose
    field count differs from that of the header line (when that line has
    fields) are reported on the console, and the reading goes on: every row
    is stored and the run is not aborted.  When no header check is
    requested no field count is enforced: every line is stored as a row and
    nothing is reported.  Only a file that cannot be opened is fatal. *)
Theorem C6_Read (open : string -> option string) (sFileName sHeader : string)
    (lines : list string) (rows : list CCSVRow) (log : Log) (fuel : nat) :
  open sFileName = Some (File.text_of lines) ->
  Forall (fun line => File.no_newline line = true) lines ->
  length lines < fuel ->
  (sHeader = "" ->
     CCSVFile_Read_file fuel open sFileName sHeader rows log
     = Some (Returns (rows ++ map CCSVRow_Parse lines, log))) /\
  (forall first data, sHeader <> "" -> lines = first :: data ->
     CCSVFile_Read_file fuel open sFileName sHeader rows log
     = Some (Returns
               (rows ++ map CCSVRow_Parse data,
                File.reported
                  (File.header_report sHeader first
                   ++ File.row_reports (length (CCSVRow_Parse first)) 1 data)
                  log))) /\
  (forall name, open name = None ->
     exists msg,
       CCSVFile_Read_file fuel open name sHeader rows log = Some (Fatal msg)).
Proof.
  intros Hopen Hlines Hfuel. split; [|split].
  - intros ->. unfold CCSVFile_Read_file, CCSVFile_Read. rewrite Hopen.
    cbn [CRT.empty negb]. rewrite File.Read_loop_lines by assumption.
    cbn [option_map]. now rewrite File.row_reports_none, File.reported_nil.
  - intros first data Hne ->. unfold CCSVFile_Read_file, CCSVFile_Read.
    rewrite Hopen. apply empty_false in Hne. rewrite Hne. cbn [negb].
    inversion Hlines as [|? ? Hfirst Hdata]; subst.
    rewrite (File.Read_line _ _ _ Hfirst).
    rewrite File.Read_loop_lines; [|exact Hdata | simpl in Hfuel; lia].
    cbn [option_map]. rewrite File.reported_app. unfold File.header_report.
    now destruct (CCSVRow_Verify (CCSVRow_Parse first) sHeader);
      [rewrite File.reported_nil | rewrite File.MSGS_reported].
  - intros name Hnone. unfold CCSVFile_Read_file. rewrite Hnone. eexists.
    reflexivity.
Qed.

Lemma C6_Read_witness :
  ("Name,Chip" = "" ->
     CCSVFile_Read_file 4 sample_disk "dogs.csv" "Name,Chip" [] no_messages
     = Some (Returns ([] ++ map CCSVRow_Parse ["Name,Number"; "Nova,100"; "Rex"],
                      no_messages))) /\
  (forall first data, "Name,Chip" <> "" ->
     ["Name,Number"; "Nova,100"; "Rex"] = first :: data ->
     CCSVFile_Read_file 4 sample_disk "dogs.csv" "Name,Chip" [] no_messages
     = Some (Returns
               ([] ++ map CCSVRow_Parse data,
                File.reported
                  (File.header_report "Name,Chip" first
                   ++ File.row_reports (length (CCSVRow_Parse first)) 1 data)
                  no_messages))) /\
  (forall name, sample_disk name = None ->
     exists msg,
       CCSVFile_Read_file 4 sample_disk name "Name,Chip" [] no_messages
       = Some (Fatal msg)).
Proof.
  apply (C6_Read sample_disk "dogs.csv" "Name,Chip"
           ["Name,Number"; "Nova,100"; "Rex"] [] no_messages 4).
  - reflexivity.
  - repeat constructor.
  - simpl. lia.
Defined.

(** A file whose last line does not end in a newline: once the stream is at
    its end the row keeps its fields, and the loop never leaves. *)
Lemma Read_loop_stuck (fuel : nat) (s : string) (row : CCSVRow) (nCols : nat)
    (nLines : N) (rows : list CCSVRow) (log : Log) :
  row <> [] ->
  Read_loop fuel {| buf := s; eofbit := true |} row nCols nLines rows log = None.
Proof.
  revert nLines rows log.
  induction fuel as [|fuel IH]; intros nLines rows log Hrow; [reflexivity|].
  cbn [Read_loop CCSVRow_Read eofbit]. destruct row as [|c row]; [congruence|].
  cbn [length Nat.eqb andb]. now apply IH.
Qed.

(** ** The dog collection (Dog.cpp, [CDogs::Add]) *)

Module Snapshot.

(** Adding the dogs at the addresses [ps], one after the other. *)
Fixpoint add_all (h : heap) (ps : list ptr) (dogs : CDogs) (log : Log)
    : CDogs * Log :=
  match ps with
  | [] => (dogs, log)
  | pDog :: ps' =>
      let '(_, dogs, log) := CDogs_Add h dogs pDog log in
      add_all h ps' dogs log
  end.

(** The two tables agree with the records and with each other. *)
Record consistent (h : heap) (dogs : CDogs) : Prop := {
  number_key : forall n p,
    m_mapNumber dogs !! n = Some p -> GetNumber (h p) = n;
  chip_key : forall c p,
    m_mapChip dogs !! c = Some p ->
    GetChip (h p) = c /\ c <> "" /\
    m_mapNumber dogs !! GetNumber (h p) = Some p;
  chip_present : forall n p,
    m_mapNumber dogs !! n = Some p -> GetChip (h p) <> "" ->
    m_mapChip dogs !! GetChip (h p) = Some p
}.

(** The number or the microchip of the dog is in the collection already. *)
Definition duplicate (h : heap) (dogs : CDogs) (pDog : ptr) : Prop :=
  is_Some (CDogs_Find dogs (GetNumber (h pDog))) \/
  (GetChip (h pDog) <> "" /\
   is_Some (CDogs_Find_chip dogs (GetChip (h pDog)))).

Lemma consistent_empty h : consistent h CDogs_empty.
Proof.
  split; unfold CDogs_empty; cbn [m_mapNumber m_mapChip]; intros *;
    rewrite lookup_empty; discriminate.
Qed.

Lemma unordered_map_insert_new `{Countable K} {V : Type} (k : K) (v : V) (m : gmap K V) :
  m !! k = None -> unordered_map_insert k v m = <[k := v]> m.
Proof. unfold unordered_map_insert. intros E. destruct (m !! k); [discriminate | reflexivity]. Qed.

Lemma Add_duplicate h dogs pDog log :
  duplicate h dogs pDog ->
  exists msg, CDogs_Add h dogs pDog log = (false, dogs, BADDOGS (h pDog) msg log).
Proof.
  intros Hdup. unfold CDogs_Add.
  destruct (CDogs_Find dogs (GetNumber (h pDog))) as [q|] eqn:Hnum;
    [eexists; reflexivity|].
  destruct Hdup as [[q Hq] | [Hchip [q Hq]]]; [congruence|].
  apply empty_false in Hchip. rewrite Hchip. cbn [negb]. rewrite Hq.
  eexists. reflexivity.
Qed.

Lemma Add_new h dogs pDog log :
  ~ duplicate h dogs pDog ->
  CDogs_Add h dogs pDog log
  = (true,
     {| m_mapNumber := <[GetNumber (h pDog) := pDog]> (m_mapNumber dogs);
        m_mapChip :=
          if CRT.empty (GetChip (h pDog)) then m_mapChip dogs
          else <[GetChip (h pDog) := pDog]> (m_mapChip dogs) |},
     log) /\
  m_mapNumber dogs !! GetNumber (h pDog) = None /\
  (GetChip (h pDog) <> "" -> m_mapChip dogs !! GetChip (h pDog) = None).
Proof.
  intros Hnew. unfold duplicate, CDogs_Find, CDogs_Find_chip in Hnew.
  assert (Hnum : m_mapNumber dogs !! GetNumber (h pDog) = None).
  { destruct (m_mapNumber dogs !! GetNumber (h pDog)) eqn:E; [|reflexivity].
    exfalso. apply Hnew. left. eauto. }
  assert (Hchip : GetChip (h pDog) <> "" ->
                  m_mapChip dogs !! GetChip (h pDog) = None).
  { intros Hne. destruct (m_mapChip dogs !! GetChip (h pDog)) eqn:E;
      [|reflexivity]. exfalso. apply Hnew. right. eauto. }
  split; [|auto]. unfold CDogs_Add, CDogs_Find, CDogs_Find_chip.
  rewrite Hnum. destruct (CRT.empty (GetChip (h pDog))) eqn:Hempty; cbn [negb].
  - now rewrite unordered_map_insert_new.
  - apply empty_false in Hempty. rewrite (Hchip Hempty).
    now rewrite !unordered_map_insert_new by auto.
Qed.

Lemma Add_consistent h dogs pDog log :
  consistent h dogs -> consistent h (CDogs_Add h dogs pDog log).1.2.
Proof.
  intros [Hn Hc Hp]. unfold CDogs_Add, CDogs_Find, CDogs_Find_chip.
  destruct (m_mapNumber dogs !! GetNumber (h pDog)) as [q|] eqn:Hnum;
    [now split|].
  destruct (CRT.empty (GetChip (h pDog))) eqn:Hempty; cbn [negb].
  - (* the dog has no microchip *)
    apply empty_true in Hempty. rewrite unordered_map_insert_new by exact Hnum.
    split; cbn [fst snd m_mapNumber m_mapChip].
    + intros n p [[<- <-] | [Hne Hl]]%lookup_insert_Some; eauto.
    + intros c p Hl. destruct (Hc c p Hl) as (Hchip & Hne & Hnumber).
      repeat split; try assumption.
      rewrite lookup_insert_ne; [exact Hnumber | congruence].
    + intros n p [[<- <-] | [Hne Hl]]%lookup_insert_Some Hchip;
        [congruence | eauto].
  - (* the dog has a microchip *)
    apply empty_false in Hempty.
    destruct (m_mapChip dogs !! GetChip (h pDog)) as [q|] eqn:Hchip;
      [now split|].
    rewrite !unordered_map_insert_new by assumption.
    split; cbn [fst snd m_mapNumber m_mapChip].
    + intros n p [[<- <-] | [Hne Hl]]%lookup_insert_Some; eauto.
    + intros c p [[<- <-] | [Hne Hl]]%lookup_insert_Some.
      * repeat split; try assumption. apply lookup_insert_eq.
      * destruct (Hc c p Hl) as (Hchip' & Hne' & Hnumber).
        repeat split; try assumption.
        rewrite lookup_insert_ne; [exact Hnumber | congruence].
    + intros n p [[<- <-] | [Hne Hl]]%lookup_insert_Some Hchip'.
      * apply lookup_insert_eq.
      * specialize (Hp n p Hl Hchip').
        rewrite lookup_insert_ne; [exact Hp | congruence].
Qed.

Lemma add_all_consistent h ps : forall dogs log,
  consistent h dogs -> consistent h (add_all h ps dogs log).1.
Proof.
  induction ps as [|pDog ps IH]; intros dogs log Hcons; [exact Hcons|].
  cbn [add_all]. pose proof (Add_consistent h dogs pDog log Hcons) as Hadd.
  destruct (CDogs_Add h dogs pDog log) as [[f dogs'] log']. now apply IH.
Qed.

End Snapshot.

(** C3: after any sequence of additions to an empty collection, a record of
    the number table is in the microchip table iff its microchip number is
    not empty, a microchip number leads to the record that its dog number
    leads to, and the addition of a dog whose number, or whose non-empty
    microchip number, is in the collection already is refused with a
    diagnostic and leaves both tables as they are. *)
Theorem C3_Add_invariant (h : heap) (ps : list ptr) (pDog : ptr)
    (log log' : Log) :
  let dogs := (Snapshot.add_all h ps CDogs_empty log).1 in
  (forall n p,
     CDogs_Find dogs n = Some p ->
     GetNumber (h p) = n /\
     ((exists c, CDogs_Find_chip dogs c = Some p) <-> GetChip (h p) <> "")) /\
  (forall c p,
     CDogs_Find_chip dogs c = Some p ->
     GetChip (h p) = c /\ CDogs_Find dogs (GetNumber (h p)) = Some p) /\
  (Snapshot.duplicate h dogs pDog ->
     exists msg,
       CDogs_Add h dogs pDog log' = (false, dogs, BADDOGS (h pDog) msg log')) /\
  (~ Snapshot.duplicate h dogs pDog ->
     exists dogs',
       CDogs_Add h dogs pDog log' = (true, dogs', log') /\
       CDogs_Find dogs' (GetNumber (h pDog)) = Some pDog /\
       (GetChip (h pDog) <> "" ->
          CDogs_Find_chip dogs' (GetChip (h pDog)) = Some pDog)).
Proof.
  cbv zeta.
  pose proof (Snapshot.add_all_consistent h ps CDogs_empty log
                (Snapshot.consistent_empty h)) as [Hn Hc Hp].
  set (dogs := (Snapshot.add_all h ps CDogs_empty log).1) in *.
  unfold CDogs_Find, CDogs_Find_chip. repeat split.
  - eauto.
  - intros (c & Hl). destruct (Hc c p Hl) as (-> & ? & _). assumption.
  - intros Hchip. eauto.
  - now destruct (Hc c p H).
  - now destruct (Hc c p H) as (_ & _ & ?).
  - apply Snapshot.Add_duplicate.
  - intros Hnew.
    destruct (Snapshot.Add_new h dogs pDog log' Hnew) as (-> & _ & _).
    eexists. split; [reflexivity|]. cbn [m_mapNumber m_mapChip].
    split; [apply lookup_insert_eq|]. intros Hne.
    apply empty_false in Hne. rewrite Hne. apply lookup_insert_eq.
Qed.

(** ** The passes of [CompareDogs] (MicrochipUpdate.cpp) *)

Module Passes.

(** What one turn of a loop does: lines on the console, rows for the
    collector of bad dogs, and possibly the update flag of its dog. *)
Record effect : Type := mkEffect {
  lines : list string;
  rows : list CCSVRow;
  flag : bool
}.

Definition apply_effect (p : ptr) (e : effect) (w : World) : World :=
  {| objects :=
       if flag e then store (objects w) p (SetUpdateRequired (objects w p))
       else objects w;
     messages :=
       {| console := console (messages w) ++ lines e;
          bad_dogs := bad_dogs (messages w) ++ rows e |} |}.

(** The row that [BADDOGS] adds for a dog. *)
Definition bad_dog_row (d : CDog) (sMsg : string) : CCSVRow :=
  [GetName d; CRT.to_string (GetNumber d); GetResponsiblePerson d; sMsg].

Definition bad_dog_line (d : CDog) (sMsg : string) : string :=
  "dog " +:+ GetName d +:+ " #" +:+ CRT.to_string (GetNumber d)
  +:+ " contact " +:+ GetResponsiblePerson d +:+ " - " +:+ sMsg.

Definition nothing : effect := mkEffect [] [] false.
Definition complaint (d : CDog) (sMsg : string) : effect :=
  mkEffect [bad_dog_line d sMsg] [bad_dog_row d sMsg] false.

(** Two records with the same data, whatever their update flags. *)
Definition same_data (d d' : CDog) : Prop :=
  SetUpdateRequired_to false d = SetUpdateRequired_to false d'.

Definition same_heap (h h' : heap) : Prop := forall q, same_data (h q) (h' q).

Lemma same_data_refl d : same_data d d.
Proof. reflexivity. Qed.

Lemma same_data_flag d : same_data (SetUpdateRequired d) d.
Proof. reflexivity. Qed.

Lemma same_data_trans d1 d2 d3 :
  same_data d1 d2 -> same_data d2 d3 -> same_data d1 d3.
Proof. unfold same_data. congruence. Qed.

(** Everything but the flag can be read off the data. *)
Lemma same_data_read {A : Type} (get : CDog -> A) d d' :
  (forall x, get (SetUpdateRequired_to false x) = get x) ->
  same_data d d' -> get d = get d'.
Proof. intros Hget H. rewrite <- (Hget d), <- (Hget d'). now rewrite H. Qed.

Ltac read_same H :=
  repeat match goal with
  | |- context [?get (?h ?q)] =>
      lazymatch type of H with
      | same_heap h ?h' =>
          rewrite (same_data_read get (h q) (h' q) (fun _ => eq_refl) (H q))
      end
  end.

(** The effect of a turn of part 2. *)
Definition acquired_effect (OldDogs : CDogs) (h : heap) (it : N * ptr) : effect :=
  let NewDog := h it.2 in
  if IsDead NewDog || IsReturned NewDog then nothing
  else
    match CDogs_Find OldDogs (GetNumber NewDog) with
    | None =>
        let line := "dog " +:+ GetName NewDog +:+ " #"
                    +:+ CRT.to_string (GetNumber NewDog) +:+ " was acquired" in
        if CRT.empty (GetChip NewDog)
        then mkEffect [line; bad_dog_line NewDog "no microchip number recorded"]
               [bad_dog_row NewDog "no microchip number recorded"] false
        else mkEffect [line] [] true
    | Some pOldDog =>
        let OldDog := h pOldDog in
        if CRT.empty (GetChip OldDog) && negb (CRT.empty (GetChip NewDog)) then
          mkEffect ["dog " +:+ GetName NewDog +:+ " #"
                    +:+ CRT.to_string (GetNumber NewDog)
                    +:+ " microchip was added"] [] true
        else if negb (String.eqb (GetChip OldDog) (GetChip NewDog)) then
          complaint NewDog ("microchip number changed - was " +:+ dq
                            +:+ GetChip OldDog +:+ dq +:+ " is " +:+ dq
                            +:+ GetChip NewDog +:+ dq)
        else nothing
    end.

(** The effect of a turn of part 6. *)
Definition adopted_effect (OldDogs : CDogs) (h : heap) (it : N * ptr) : effect :=
  let NewDog := h it.2 in
  if IsDead NewDog || IsReturned NewDog then nothing
  else if negb (IsAdopted NewDog) then nothing
  else
    match CDogs_Find OldDogs (GetNumber NewDog) with
    | Some pOldDog =>
        let OldDog := h pOldDog in
        if IsAdopted OldDog then
          if negb (String.eqb (GetAdoptionFName OldDog) (GetAdoptionFName NewDog))
             || negb (String.eqb (GetAdoptionLName OldDog) (GetAdoptionLName NewDog))
          then complaint OldDog "adopting family changed"
          else nothing
        else
          mkEffect ["dog " +:+ GetName NewDog +:+ " #"
                    +:+ CRT.to_string (GetNumber NewDog)
                    +:+ " was adopted by " +:+ GetAdoptionFName NewDog
                    +:+ " " +:+ GetAdoptionLName NewDog] [] true
    | None =>
        mkEffect ["dog " +:+ GetName NewDog +:+ " #"
                  +:+ CRT.to_string (GetNumber NewDog)
                  +:+ " was adopted by " +:+ GetAdoptionFName NewDog
                  +:+ " " +:+ GetAdoptionLName NewDog] [] true
    end.

Lemma apply_nothing p w : apply_effect p nothing w = w.
Proof.
  destruct w as [h [c b]]. unfold apply_effect. simpl.
  now rewrite !app_nil_r.
Qed.

Lemma apply_complaint p d msg w :
  apply_effect p (complaint d msg) w = complain d msg w.
Proof. reflexivity. Qed.

Lemma acquired_body_effect OldDogs it w :
  acquired_body OldDogs it w
  = apply_effect it.2 (acquired_effect OldDogs (objects w) it) w.
Proof.
  unfold acquired_body, acquired_effect.
  destruct (IsDead (objects w it.2) || IsReturned (objects w it.2));
    [now rewrite apply_nothing|].
  destruct (CDogs_Find OldDogs (GetNumber (objects w it.2))) as [pOldDog|].
  - destruct (CRT.empty (GetChip (objects w pOldDog))
              && negb (CRT.empty (GetChip (objects w it.2))));
      [destruct w as [h [c b]]; unfold apply_effect, mark, say, MSGS; simpl;
       now rewrite app_nil_r|].
    destruct (negb (String.eqb (GetChip (objects w pOldDog))
                      (GetChip (objects w it.2))));
      [reflexivity | now rewrite apply_nothing].
  - destruct (CRT.empty (GetChip (objects w it.2)));
      destruct w as [h [c b]];
      unfold apply_effect, mark, say, complain, BADDOGS, CBadDogs_AddError, MSGS;
      simpl; rewrite <- ?app_assoc, ?app_nil_r; reflexivity.
Qed.

Lemma adopted_body_effect OldDogs it w :
  adopted_body OldDogs it w
  = apply_effect it.2 (adopted_effect OldDogs (objects w) it) w.
Proof.
  unfold adopted_body, adopted_effect.
  destruct (IsDead (objects w it.2) || IsReturned (objects w it.2));
    [now rewrite apply_nothing|].
  destruct (negb (IsAdopted (objects w it.2))); [now rewrite apply_nothing|].
  destruct (CDogs_Find OldDogs (GetNumber (objects w it.2))) as [pOldDog|].
  - destruct (IsAdopted (objects w pOldDog)).
    + destruct (negb (String.eqb (GetAdoptionFName (objects w pOldDog))
                        (GetAdoptionFName (objects w it.2)))
                || negb (String.eqb (GetAdoptionLName (objects w pOldDog))
                           (GetAdoptionLName (objects w it.2))));
        [reflexivity | now rewrite apply_nothing].
    + destruct w as [h [c b]]; unfold apply_effect, mark, say, MSGS; simpl;
        now rewrite app_nil_r.
  - destruct w as [h [c b]]; unfold apply_effect, mark, say, MSGS; simpl;
      now rewrite app_nil_r.
Qed.

Lemma acquired_effect_data OldDogs h h' it :
  same_heap h h' -> acquired_effect OldDogs h it = acquired_effect OldDogs h' it.
Proof.
  intros H. unfold acquired_effect, complaint, bad_dog_row, bad_dog_line.
  read_same H. destruct (CDogs_Find OldDogs (GetNumber (h' it.2))); [|reflexivity].
  read_same H. reflexivity.
Qed.

Lemma adopted_effect_data OldDogs h h' it :
  same_heap h h' -> adopted_effect OldDogs h it = adopted_effect OldDogs h' it.
Proof.
  intros H. unfold adopted_effect, complaint, bad_dog_row, bad_dog_line.
  read_same H. destruct (CDogs_Find OldDogs (GetNumber (h' it.2))); [|reflexivity].
  read_same H. reflexivity.
Qed.

(** The entries of a range that set the flag of the dog at [q]. *)
Definition flagged (eff : N * ptr -> effect) (range : list (N * ptr)) (q : ptr)
    : bool :=
  existsb (fun it => Pos.eqb it.2 q && flag (eff it)) range.

Lemma flagged_ext (e1 e2 : N * ptr -> effect) range q :
  (forall it, e1 it = e2 it) -> flagged e1 range q = flagged e2 range q.
Proof.
  intros H. unfold flagged. induction range as [|it range IH]; [reflexivity|].
  cbn [existsb]. now rewrite H, IH.
Qed.

Lemma same_heap_refl h : same_heap h h.
Proof. intros q. apply same_data_refl. Qed.

Lemma same_heap_apply p e w : same_heap (objects (apply_effect p e w)) (objects w).
Proof.
  intros q. unfold apply_effect. cbn [objects]. destruct (flag e);
    [|apply same_data_refl].
  unfold store. destruct (Pos.eqb_spec q p) as [->|]; [|apply same_data_refl].
  apply same_data_flag.
Qed.

(** A loop whose turns are effects that depend on the data only: the rows
    of all turns are added in order, and a flag is set iff some turn sets
    it. *)
Lemma for_each_effects (eff : heap -> N * ptr -> effect)
    (body : N * ptr -> World -> World) :
  (forall it w, body it w = apply_effect it.2 (eff (objects w) it) w) ->
  (forall h h' it, same_heap h h' -> eff h it = eff h' it) ->
  forall range w,
    bad_dogs (messages (for_each range body w))
    = bad_dogs (messages w) ++ concat (map (fun it => rows (eff (objects w) it)) range)
    /\
    forall q,
      objects (for_each range body w) q
      = if flagged (eff (objects w)) range q
        then SetUpdateRequired (objects w q) else objects w q.
Proof.
  intros Hbody Hdata range.
  induction range as [|it range IH]; intros w.
  - split; [cbn; now rewrite app_nil_r | reflexivity].
  - change (for_each (it :: range) body w) with (for_each range body (body it w)).
    destruct (IH (body it w)) as [IHrows IHflag]. rewrite Hbody in *.
    assert (Heff : forall it', eff (objects (apply_effect it.2 (eff (objects w) it) w)) it'
                               = eff (objects w) it')
      by (intros it'; apply Hdata, same_heap_apply).
    split.
    + rewrite IHrows. cbn [apply_effect messages bad_dogs map concat].
      rewrite <- app_assoc.
      rewrite (map_ext _ (fun it' => rows (eff (objects w) it')));
        [reflexivity|]. intros it'. now rewrite Heff.
    + intros q. rewrite IHflag. rewrite (flagged_ext _ _ _ _ Heff).
      unfold flagged. cbn [existsb].
      unfold apply_effect. cbn [objects]. unfold store.
      destruct (flag (eff (objects w) it)); rewrite ?andb_false_r; cbn [orb];
        [|reflexivity].
      destruct (Pos.eqb_spec q it.2) as [->|Hne].
      * rewrite Pos.eqb_refl. cbn [andb orb].
        match goal with
        | |- context [existsb ?f range] => now destruct (existsb f range)
        end.
      * match goal with
        | |- context [orb (andb (Pos.eqb ?a q) true)] =>
            replace (Pos.eqb a q) with false
              by (symmetry; apply Pos.eqb_neq; intros E; exact (Hne (eq_sym E)))
        end.
        reflexivity.
Qed.

End Passes.


Section Comparison.

(** The order in which a loop visits the number table is not specified; any
    order of its entries will do. *)
Variable dog_range : CDogs -> list (N * ptr).
Hypothesis dog_range_entries :
  forall dogs, dog_range dogs ≡ₚ map_to_list (m_mapNumber dogs).

(** The dog numbers are the keys of the number table. *)
Definition keyed (h : heap) (dogs : CDogs) : Prop :=
  forall n p, m_mapNumber dogs !! n = Some p -> GetNumber (h p) = n.

Lemma in_dog_range dogs n p :
  In (n, p) (dog_range dogs) <-> m_mapNumber dogs !! n = Some p.
Proof.
  rewrite <- list_elem_of_In, (dog_range_entries dogs).
  apply elem_of_map_to_list.
Qed.

(** The only entry of the range for a dog of the collection is its own. *)
Lemma entry_of_dog h dogs n p it :
  keyed h dogs -> m_mapNumber dogs !! n = Some p ->
  In it (dog_range dogs) -> it.2 = p -> it = (n, p).
Proof.
  intros Hkey Hp Hin <-. destruct it as [k q]. cbn [snd] in *.
  apply in_dog_range in Hin. f_equal.
  now rewrite <- (Hkey _ _ Hin), <- (Hkey _ _ Hp).
Qed.

Lemma not_flagged h dogs n p (eff : N * ptr -> Passes.effect) :
  keyed h dogs -> m_mapNumber dogs !! n = Some p ->
  Passes.flag (eff (n, p)) = false ->
  Passes.flagged eff (dog_range dogs) p = false.
Proof.
  intros Hkey Hp Hflag. unfold Passes.flagged.
  destruct (existsb _ _) eqn:E; [|reflexivity].
  apply existsb_exists in E as (it & Hin & Hit).
  apply andb_true_iff in Hit as [Hq Hf]. apply Pos.eqb_eq in Hq.
  rewrite (entry_of_dog h dogs n p it Hkey Hp Hin Hq) in Hf. congruence.
Qed.

Lemma is_flagged dogs n p (eff : N * ptr -> Passes.effect) :
  m_mapNumber dogs !! n = Some p ->
  Passes.flag (eff (n, p)) = true ->
  Passes.flagged eff (dog_range dogs) p = true.
Proof.
  intros Hp Hflag. unfold Passes.flagged. apply existsb_exists.
  exists (n, p). split; [now apply in_dog_range|].
  cbn [snd]. now rewrite Pos.eqb_refl, Hflag.
Qed.





End Comparison.

(** *** A small pair of reports *)

(** Dog 100 had no microchip number and has one now; dog 200 was adopted by
    Jane Doe, and is adopted by John Roe now. *)
Definition sample_old_100 : CDog :=
  mkCDog 100 "Nova" "" "3 years 2 months" "Female" "Yes" "Available" "" ""
    "2020-05-15" "" "" "" "" "" "" "" "" "" "" "" "" "" "" "" "" "" "" "" ""
    "" "" "" "" false.

Definition sample_new_100 : CDog :=
  mkCDog 100 "Nova" "981023456789012" "3 years 2 months" "Female" "Yes"
    "Available" "" "" "2020-05-15" "" "" "" "" "" "" "" "" "" "" "" "" "" ""
    "" "" "" "" "" "" "" "" "" "" false.

Definition sample_old_200 : CDog :=
  mkCDog 200 "Rex" "123 456 789" "1 years 0 months" "Male" "Yes" "Adopted" ""
    "" "2021-03-01" "" "" "" "" "" "" "" "" "" "Jane" "Doe" "" "" "2 Oak Ave"
    "Sparks" "NV" "89431" "" "jane@example.org" "775-555-1212" "" ""
    "" "2021-04-01" false.

Definition sample_new_200 : CDog :=
  mkCDog 200 "Rex" "123 456 789" "1 years 0 months" "Male" "Yes" "Adopted" ""
    "" "2021-03-01" "" "" "" "" "" "" "" "" "" "John" "Roe" "" "" "2 Oak Ave"
    "Sparks" "NV" "89431" "" "john@example.org" "775-555-1212" "" ""
    "" "2021-04-01" false.

Definition sample_heap : heap := fun p =>
  match p with
  | 1%positive => sample_old_100
  | 2%positive => sample_new_100
  | 3%positive => sample_old_200
  | 4%positive => sample_new_200
  | _ => CDog_Initialize 0
  end.

Definition sample_old_dogs : CDogs :=
  (Snapshot.add_all sample_heap [1%positive; 3%positive] CDogs_empty no_messages).1.
Definition sample_new_dogs : CDogs :=
  (Snapshot.add_all sample_heap [2%positive; 4%positive] CDogs_empty no_messages).1.

Definition sample_world : World :=
  {| objects := sample_heap; messages := no_messages |}.

(** One order of visiting the number table. *)
Definition sample_range (dogs : CDogs) : list (N * ptr) :=
  map_to_list (m_mapNumber dogs).

Lemma sample_range_entries dogs :
  sample_range dogs ≡ₚ map_to_list (m_mapNumber dogs).
Proof. reflexivity. Defined.



(** The whole comparison on the sample: dog 100 is marked for an update and
    nothing is reported about it; the change of family of dog 200 is
    reported and dog 200 is not marked. *)
Lemma CompareDogs_sample :
  let w' := CompareDogs sample_range sample_old_dogs sample_new_dogs sample_world in
  IsUpdateRequired (objects w' 2%positive) = true /\
  IsUpdateRequired (objects w' 4%positive) = false /\
  bad_dogs (messages w') = [["Rex"; "200"; ""; "adopting family changed"]].
Proof. vm_compute. repeat split. Qed.

(** ** Update records (Chip.cpp [FromDog], MicrochipUpdate.cpp [BuildUpdates]) *)

(** A legacy number is verified, and replaced by its nine digits. *)
Lemma VerifyMicrochip_legacy (s g1 g2 g3 : string) (fMessage : bool) (log : Log) :
  Microchip.is_legacy s g1 g2 g3 ->
  CChip_VerifyMicrochip s fMessage log = (true, g1 +:+ g2 +:+ g3, log).
Proof.
  intros Hleg. unfold CChip_VerifyMicrochip.
  destruct (CRT.empty s) eqn:Hempty.
  { apply empty_true in Hempty as ->.
    apply Microchip.legacy_length in Hleg. simpl in Hleg. lia. }
  destruct (matched (regex_match s reISO)) eqn:HISO.
  { apply Microchip.reISO_spec in HISO.
    now apply Microchip.legacy_not_ISO in Hleg. }
  destruct (matched (regex_match s rePumpkin)) eqn:HPumpkin.
  { apply Microchip.rePumpkin_spec in HPumpkin.
    now apply Microchip.legacy_not_Pumpkin in Hleg. }
  destruct (matched (regex_match s reFDXA)) eqn:HFDXA.
  { apply Microchip.reFDXA_spec in HFDXA.
    now apply Microchip.legacy_not_FDXA in Hleg. }
  destruct (regex_search s reOld) as [rmChip|] eqn:HOld.
  - apply Microchip.reOld_found in HOld as (h1 & h2 & h3 & Hleg' & ->).
    cbn [str Nat.eqb]. apply Microchip.legacy_digits in Hleg, Hleg'.
    do 2 f_equal. congruence.
  - apply Microchip.reOld_finds in Hleg. now rewrite HOld in Hleg.
Qed.

Module Updates.

(** What [VerifyAll] never writes: the two keys, the age and the date
    acquired, and the update flag. *)
Definition kept (d : CDog) : N * string * string * string * bool :=
  (m_nNumber d, m_sMicrochip d, m_sAge d, m_sDateAcquired d, m_fUpdateRequired d).

Lemma VerifySex_kept this log : kept (CDog_VerifySex this log).1.2 = kept this.
Proof.
  unfold CDog_VerifySex.
  now destruct (String.eqb _ "female" || String.eqb _ "male").
Qed.

Lemma VerifySpayNeuter_kept this log :
  kept (CDog_VerifySpayNeuter this log).1.2 = kept this.
Proof.
  unfold CDog_VerifySpayNeuter.
  now destruct (String.eqb _ "yes" || String.eqb _ "no").
Qed.

Lemma VerifyHomePhone_kept this fQuiet log :
  kept (CDog_VerifyHomePhone this fQuiet log).1.2 = kept this.
Proof.
  unfold CDog_VerifyHomePhone. now destruct (CDog_VerifyPhone _ _ _ _ _) as [[? ?] ?].
Qed.

Lemma VerifyCellPhone_kept this fQuiet log :
  kept (CDog_VerifyCellPhone this fQuiet log).1.2 = kept this.
Proof.
  unfold CDog_VerifyCellPhone. now destruct (CDog_VerifyPhone _ _ _ _ _) as [[? ?] ?].
Qed.

Lemma VerifyWorkPhone_kept this fQuiet log :
  kept (CDog_VerifyWorkPhone this fQuiet log).1.2 = kept this.
Proof.
  unfold CDog_VerifyWorkPhone. now destruct (CDog_VerifyPhone _ _ _ _ _) as [[? ?] ?].
Qed.

Lemma VerifyAdoptionZip_kept this log :
  kept (CDog_VerifyAdoptionZip this log).1.2 = kept this.
Proof.
  unfold CDog_VerifyAdoptionZip. now destruct (CDog_VerifyZip _ _ _) as [[? ?] ?].
Qed.

Lemma VerifyAdoptioneMail_kept this log :
  kept (CDog_VerifyAdoptioneMail this log).1.2 = kept this.
Proof.
  unfold CDog_VerifyAdoptioneMail. now destruct (CDog_VerifyeMail _ _ _) as [[? ?] ?].
Qed.

Lemma VerifyAdoptionState_kept this log :
  kept (CDog_VerifyAdoptionState this log).1.2 = kept this.
Proof.
  unfold CDog_VerifyAdoptionState. now destruct (CDog_VerifyState _ _ _) as [[? ?] ?].
Qed.

Lemma ComputeBirthday_kept d d' :
  kept d = kept d' -> CDog_ComputeBirthday d = CDog_ComputeBirthday d'.
Proof.
  unfold kept. intros H. apply ComputeBirthday_depends; congruence.
Qed.

(** The computation of the birthday returns, or [stoi] throws. *)
Lemma ComputeBirthday_outcome d :
  match CDog_ComputeBirthday d with
  | Fatal _ | AssertFails => False
  | _ => True
  end.
Proof.
  unfold CDog_ComputeBirthday, CDog_GetDateAcquired, CDog_ParseDate, or_throw.
  repeat match goal with
  | |- context [match ?x with _ => _ end] =>
      lazymatch type of x with
      | outcome _ => fail
      | _ => destruct x; cbn [mbind outcome_bind]
      end
  end; exact I.
Qed.

(** [VerifyAll] returns with the kept fields as they were, unless the
    computation of the birthday throws. *)
Lemma VerifyAll_kept this log :
  match CDog_VerifyAll this log with
  | Returns (_, this', _) => kept this' = kept this
  | Throws _ => forall r, CDog_ComputeBirthday this <> Returns r
  | Fatal _ | AssertFails => False
  end.
Proof.
  unfold CDog_VerifyAll.
  pose proof (VerifySex_kept this log) as K1.
  destruct (CDog_VerifySex this log) as [[f1 d1] l1]. cbn [fst snd] in K1.
  pose proof (VerifySpayNeuter_kept d1 l1) as K2.
  destruct (CDog_VerifySpayNeuter d1 l1) as [[f2 d2] l2]. cbn [fst snd] in K2.
  rewrite K1 in K2. clear K1.
  pose proof (ComputeBirthday_outcome d2) as HB.
  rewrite (ComputeBirthday_kept this d2) by congruence.
  destruct (CDog_ComputeBirthday d2) as [[f sDOB] | | |];
    cbn [mbind outcome_bind]; try contradiction; [|discriminate].
  destruct (if negb f then _ else _) as [fOK l3].
  destruct (negb (CRT.empty (m_sAdoptionFName d2))
            || negb (CRT.empty (m_sAdoptionLName d2))); [|exact K2].
  pose proof (VerifyAdoptioneMail_kept d2 l3) as K3.
  destruct (CDog_VerifyAdoptioneMail d2 l3) as [[f3 d3] l4]. cbn [fst snd] in K3.
  pose proof (VerifyHomePhone_kept d3 false l4) as K4.
  destruct (CDog_VerifyHomePhone d3 false l4) as [[f4 d4] l5]. cbn [fst snd] in K4.
  pose proof (VerifyCellPhone_kept d4 true l5) as K5.
  destruct (CDog_VerifyCellPhone d4 true l5) as [[f5 d5] l6]. cbn [fst snd] in K5.
  pose proof (VerifyWorkPhone_kept d5 true l6) as K6.
  destruct (CDog_VerifyWorkPhone d5 true l6) as [[f6 d6] l7]. cbn [fst snd] in K6.
  pose proof (VerifyAdoptionZip_kept d6 l7) as K7.
  destruct (CDog_VerifyAdoptionZip d6 l7) as [[f7 d7] l8]. cbn [fst snd] in K7.
  pose proof (VerifyAdoptionState_kept d7 l8) as K8.
  destruct (CDog_VerifyAdoptionState d7 l8) as [[f8 d8] l9]. cbn [fst snd] in K8.
  congruence.
Qed.

End Updates.

Module Assembly.
Import Updates.

(** Every update record is filed under its own microchip number. *)
Definition keyed_chips (Chips : CChips) : Prop :=
  forall c chip, Chips !! c = Some chip -> CChip_m_sMicrochip chip = c.

Definition same_kept (h h0 : heap) : Prop := forall q, kept (h q) = kept (h0 q).

(** No age of a dog of the range makes [stoi] throw. *)
Definition birthdays_return (h : heap) (range : list (N * ptr)) : Prop :=
  forall it, In it range -> exists r, CDog_ComputeBirthday (h it.2) = Returns r.

Lemma same_kept_store h h0 p d :
  same_kept h h0 -> kept d = kept (h p) -> same_kept (store h p d) h0.
Proof.
  intros H Hd q. unfold store. destruct (Pos.eqb_spec q p) as [->|]; [|apply H].
  now rewrite Hd.
Qed.

Lemma kept_chip d d' : kept d = kept d' -> GetChip d = GetChip d'.
Proof. unfold kept, GetChip. congruence. Qed.

Lemma kept_number d d' : kept d = kept d' -> GetNumber d = GetNumber d'.
Proof. unfold kept, GetNumber. congruence. Qed.

Lemma kept_flag d d' : kept d = kept d' -> IsUpdateRequired d = IsUpdateRequired d'.
Proof. unfold kept, IsUpdateRequired. congruence. Qed.

(** The result of one turn of the loop. *)
Definition turn_spec (h0 : heap) (it : N * ptr) (Chips : CChips)
    (w' : World) (Chips' : CChips) : Prop :=
  same_kept (objects w') h0 /\ keyed_chips Chips' /\
  (forall c, is_Some (Chips !! c) -> is_Some (Chips' !! c)) /\
  (forall g1 g2 g3,
     IsUpdateRequired (h0 it.2) = true ->
     Microchip.is_legacy (GetChip (h0 it.2)) g1 g2 g3 ->
     is_Some (Chips' !! (g1 +:+ g2 +:+ g3))).

Lemma Add_spec h Chips chip log :
  keyed_chips Chips ->
  keyed_chips (CChips_Add h Chips chip log).1.2 /\
  (forall c, is_Some (Chips !! c) -> is_Some ((CChips_Add h Chips chip log).1.2 !! c)) /\
  is_Some ((CChips_Add h Chips chip log).1.2 !! CChip_m_sMicrochip chip).
Proof.
  intros Hkey. unfold CChips_Add, CChips_Find, unordered_map_insert.
  destruct (Chips !! CChip_m_sMicrochip chip) as [other|] eqn:E; cbn [fst snd].
  - rewrite E. eauto.
  - split; [|split].
    + intros c chip' [[<- <-] | [_ Hl]]%lookup_insert_Some; eauto.
    + intros c Hc. apply lookup_insert_is_Some.
      destruct (decide (CChip_m_sMicrochip chip = c)); [left | right]; auto.
    + rewrite lookup_insert_eq. eauto.
Qed.

Lemma body_spec h0 it w Chips :
  same_kept (objects w) h0 ->
  (exists r, CDog_ComputeBirthday (h0 it.2) = Returns r) ->
  keyed_chips Chips ->
  exists w' Chips',
    BuildUpdates_body it (w, Chips) = Returns (w', Chips') /\
    turn_spec h0 it Chips w' Chips'.
Proof.
  intros Hsame Hreturn Hkey. unfold BuildUpdates_body, turn_spec.
  pose proof (Hsame it.2) as Hit.
  rewrite (kept_flag _ _ Hit), (kept_chip _ _ Hit).
  destruct (IsUpdateRequired (h0 it.2)) eqn:Hflag; cbn [negb].
  2: { exists w, Chips. repeat split; auto. discriminate. }
  destruct (CRT.empty (GetChip (h0 it.2))) eqn:Hempty.
  { eexists _, Chips. split; [reflexivity|]. repeat split; auto.
    intros g1 g2 g3 _ Hleg. apply empty_true in Hempty. rewrite Hempty in Hleg.
    apply Microchip.legacy_length in Hleg. simpl in Hleg. lia. }
  pose proof (VerifyAll_kept (objects w it.2) (messages w)) as HV.
  destruct (CDog_VerifyAll (objects w it.2) (messages w))
    as [[[f Dog] log] | | what |]; try contradiction.
  2: { exfalso. destruct Hreturn as [r Hr].
       apply (HV r). rewrite <- Hr. apply ComputeBirthday_kept. exact Hit. }
  cbn [mbind outcome_bind].
  assert (Hsame' : same_kept (store (objects w) it.2 Dog) h0)
    by (now apply same_kept_store).
  unfold CChip_FromDog.
  assert (Hchip : GetChip (store (objects w) it.2 Dog it.2) = GetChip (h0 it.2))
    by (apply kept_chip, Hsame').
  rewrite Hchip.
  destruct (CChip_VerifyMicrochip (GetChip (h0 it.2)) false log)
    as [[fChip sMicrochip] log'] eqn:HVerify.
  destruct fChip; cbn [negb].
  - pose proof (Add_spec (store (objects w) it.2 Dog) Chips
                  {| CChip_m_sMicrochip := sMicrochip; m_pDog := it.2 |} log' Hkey)
      as (Hkey' & Hmono & Hin).
    destruct (CChips_Add _ Chips _ log') as [[fAdd Chips'] log''].
    cbn [fst snd CChip_m_sMicrochip] in *.
    eexists _, Chips'. split; [reflexivity|]. cbn [objects].
    repeat split; auto.
    intros g1 g2 g3 _ Hleg.
    rewrite (VerifyMicrochip_legacy _ _ _ _ false log Hleg) in HVerify.
    now injection HVerify as <- _.
  - eexists _, Chips. split; [reflexivity|]. cbn [objects].
    repeat split; auto.
    intros g1 g2 g3 _ Hleg.
    rewrite (VerifyMicrochip_legacy _ _ _ _ false log Hleg) in HVerify.
    discriminate.
Qed.

Lemma loop_spec h0 range : forall w Chips,
  same_kept (objects w) h0 -> birthdays_return h0 range -> keyed_chips Chips ->
  exists w' Chips',
    BuildUpdates_loop range (w, Chips) = Returns (w', Chips') /\
    same_kept (objects w') h0 /\ keyed_chips Chips' /\
    (forall c, is_Some (Chips !! c) -> is_Some (Chips' !! c)) /\
    (forall it g1 g2 g3,
       In it range -> IsUpdateRequired (h0 it.2) = true ->
       Microchip.is_legacy (GetChip (h0 it.2)) g1 g2 g3 ->
       is_Some (Chips' !! (g1 +:+ g2 +:+ g3))).
Proof.
  induction range as [|it range IH]; intros w Chips Hsame Hreturn Hkey.
  - exists w, Chips. repeat split; auto. intros ? ? ? ? [].
  - destruct (body_spec h0 it w Chips Hsame (Hreturn it (or_introl eq_refl)) Hkey)
      as (w1 & Chips1 & Hbody & Hsame1 & Hkey1 & Hmono1 & Hit).
    destruct (IH w1 Chips1 Hsame1 (fun it' Hin => Hreturn it' (or_intror Hin))
                Hkey1)
      as (w' & Chips' & Hloop & Hsame' & Hkey' & Hmono' & Hrest).
    exists w', Chips'. cbn [BuildUpdates_loop]. rewrite Hbody.
    cbn [mbind outcome_bind]. repeat split; auto.
    intros it' g1 g2 g3 [<- | Hin] Hflag Hleg; eauto.
Qed.

Lemma consistent_kept h h' dogs :
  same_kept h' h -> Snapshot.consistent h dogs -> Snapshot.consistent h' dogs.
Proof.
  intros Hsame [Hn Hc Hp]. split.
  - intros n p Hl. rewrite (kept_number _ _ (Hsame p)). eauto.
  - intros c p Hl. rewrite (kept_number _ _ (Hsame p)), (kept_chip _ _ (Hsame p)).
    eauto.
  - intros n p Hl. rewrite (kept_chip _ _ (Hsame p)). eauto.
Qed.

End Assembly.

Section UpdateRecords.

Variable dog_range : CDogs -> list (N * ptr).
Hypothesis dog_range_entries :
  forall dogs, dog_range dogs ≡ₚ map_to_list (m_mapNumber dogs).

(** C10: for every dog record whose microchip number has the legacy form of
    three groups of three digits, the update record made from it holds the
    nine digits in its own copy; the assembly of the update records files a
    record under these digits, and leaves the microchip number of the dog
    record as it was, so that the microchip table of the collection still
    leads to the record under the original text. *)
Theorem C10_update_record_keeps_chip (Dogs : CDogs) (Chips : CChips)
    (w : World) (n : N) (pDog : ptr) (g1 g2 g3 : string) :
  Snapshot.consistent (objects w) Dogs ->
  (forall k q, m_mapNumber Dogs !! k = Some q ->
     exists r, CDog_ComputeBirthday (objects w q) = Returns r) ->
  m_mapNumber Dogs !! n = Some pDog ->
  Microchip.is_legacy (GetChip (objects w pDog)) g1 g2 g3 ->
  (forall log,
     CChip_FromDog (objects w) pDog log
     = (true, {| CChip_m_sMicrochip := g1 +:+ g2 +:+ g3; m_pDog := pDog |}, log)) /\
  exists w' Chips',
    BuildUpdates dog_range Dogs Chips w = Returns (w', Chips') /\
    (IsUpdateRequired (objects w pDog) = true ->
       exists chip,
         CChips_Find Chips' (g1 +:+ g2 +:+ g3) = Some chip /\
         CChip_m_sMicrochip chip = g1 +:+ g2 +:+ g3) /\
    GetChip (objects w' pDog) = GetChip (objects w pDog) /\
    CDogs_Find_chip Dogs (GetChip (objects w pDog)) = Some pDog /\
    Snapshot.consistent (objects w') Dogs.
Proof.
  intros Hcons Hreturn Hp Hleg. split.
  - intros log. unfold CChip_FromDog.
    now rewrite (VerifyMicrochip_legacy _ _ _ _ false log Hleg).
  - unfold BuildUpdates.
    destruct (Assembly.loop_spec (objects w) (dog_range Dogs) w ∅)
      as (w' & Chips' & Hloop & Hsame & Hkey & _ & Hchips).
    + intros q. reflexivity.
    + intros [k q] Hin. apply (Hreturn k q).
      rewrite <- list_elem_of_In, (dog_range_entries Dogs) in Hin.
      now apply elem_of_map_to_list in Hin.
    + intros c chip. rewrite lookup_empty. discriminate.
    + exists w', Chips'. split; [exact Hloop|]. split; [|split; [|split]].
      * intros Hflag.
        destruct (Hchips (n, pDog) g1 g2 g3) as [chip Hchip]; auto.
        { rewrite <- list_elem_of_In, (dog_range_entries Dogs).
          now apply elem_of_map_to_list. }
        exists chip. split; [exact Hchip | now apply Hkey].
      * apply Assembly.kept_chip, Hsame.
      * apply (Snapshot.chip_present _ _ Hcons n pDog Hp).
        intros E. rewrite E in Hleg.
        apply Microchip.legacy_length in Hleg. simpl in Hleg. lia.
      * now apply (Assembly.consistent_kept (objects w)).
Qed.

End UpdateRecords.

(** Dog 200 of the sample, marked for an update. *)
Definition sample_marked : World :=
  mark 4%positive sample_world.

Lemma C10_update_record_keeps_chip_witness :
  (forall log,
     CChip_FromDog (objects sample_marked) 4%positive log
     = (true, {| CChip_m_sMicrochip := "123" +:+ "456" +:+ "789";
                 m_pDog := 4%positive |}, log)) /\
  exists w' Chips',
    BuildUpdates sample_range sample_new_dogs ∅ sample_marked
    = Returns (w', Chips') /\
    (IsUpdateRequired (objects sample_marked 4%positive) = true ->
       exists chip,
         CChips_Find Chips' ("123" +:+ "456" +:+ "789") = Some chip /\
         CChip_m_sMicrochip chip = "123" +:+ "456" +:+ "789") /\
    GetChip (objects w' 4%positive) = GetChip (objects sample_marked 4%positive) /\
    CDogs_Find_chip sample_new_dogs (GetChip (objects sample_marked 4%positive))
    = Some 4%positive /\
    Snapshot.consistent (objects w') sample_new_dogs.
Proof.
  apply (C10_update_record_keeps_chip sample_range sample_range_entries
           sample_new_dogs ∅ sample_marked 200 4%positive "123" "456" "789").
  - exact (Snapshot.add_all_consistent (objects sample_marked)
             [2%positive; 4%positive] CDogs_empty no_messages
             (Snapshot.consistent_empty (objects sample_marked))).
  - intros k q Hq. unfold sample_marked, mark, store. cbn [objects].
    destruct (Pos.eqb q 4); [eexists; vm_compute; reflexivity|].
    destruct q as [[[q|q|]|[q|q|]|]|[[q|q|]|[q|q|]|]|];
      eexists; vm_compute; reflexivity.
  - vm_compute. reflexivity.
  - exists " ", " ". unfold Pieces.decimal, Pieces.optional.
    repeat split; try reflexivity; right; eexists; split; reflexivity.
Defined.

(** The assembly on the sample: the update record of dog 200 holds
    "123456789", and its dog record still holds "123 456 789". *)
Lemma BuildUpdates_sample :
  exists w' Chips',
    BuildUpdates sample_range sample_new_dogs ∅ sample_marked
    = Returns (w', Chips') /\
    Chips' !! "123456789"
    = Some {| CChip_m_sMicrochip := "123456789"; m_pDog := 4%positive |} /\
    GetChip (objects w' 4%positive) = "123 456 789" /\
    bad_dogs (messages w') = [].
Proof. eexists _, _. split; [vm_compute; reflexivity|]. vm_compute. auto. Qed.

(** The values of the specification's examples. *)
Lemma VerifyMicrochip_examples :
  CChip_VerifyMicrochip "981023456789012" true no_messages
  = (true, "981023456789012", no_messages) /\
  CChip_VerifyMicrochip "123 456 789" true no_messages
  = (true, "123456789", no_messages) /\
  CChip_VerifyMicrochip "123*456789" true no_messages
  = (true, "123456789", no_messages) /\
  (CChip_VerifyMicrochip "12345" false no_messages).1 = (false, "12345").
Proof. repeat split; vm_compute; reflexivity. Qed.

(** ** The examples of the specification, evaluated *)

Lemma Parse_examples :
  CCSVRow_Parse ("a," +:+ dq +:+ "b,c" +:+ dq +:+ ",d") = ["a"; "b,c"; "d"] /\
  CCSVRow_Parse ("=" +:+ dq +:+ "00123" +:+ dq) = ["00123"] /\
  CCSVRow_Parse "" = [] /\
  CCSVRow_TrimColumn " a " = "a " /\
  CCSVRow_Parse " a " = ["a"].
Proof. repeat split; vm_compute; reflexivity. Qed.

Lemma C3_Add_invariant_witness :
  let dogs :=
    (Snapshot.add_all sample_heap [2%positive; 4%positive] CDogs_empty
       no_messages).1 in
  (forall n p,
     CDogs_Find dogs n = Some p ->
     GetNumber (sample_heap p) = n /\
     ((exists c, CDogs_Find_chip dogs c = Some p)
      <-> GetChip (sample_heap p) <> "")) /\
  (forall c p,
     CDogs_Find_chip dogs c = Some p ->
     GetChip (sample_heap p) = c /\
     CDogs_Find dogs (GetNumber (sample_heap p)) = Some p) /\
  (Snapshot.duplicate sample_heap dogs 1%positive ->
     exists msg,
       CDogs_Add sample_heap dogs 1%positive no_messages
       = (false, dogs, BADDOGS (sample_heap 1%positive) msg no_messages)) /\
  (~ Snapshot.duplicate sample_heap dogs 1%positive ->
     exists dogs',
       CDogs_Add sample_heap dogs 1%positive no_messages
       = (true, dogs', no_messages) /\
       CDogs_Find dogs' (GetNumber (sample_heap 1%positive)) = Some 1%positive /\
       (GetChip (sample_heap 1%positive) <> "" ->
          CDogs_Find_chip dogs' (GetChip (sample_heap 1%positive))
          = Some 1%positive)).
Proof.
  apply (C3_Add_invariant sample_heap [2%positive; 4%positive] 1%positive
           no_messages no_messages).
Defined.

(** Dog 100 of the old report cannot be added to the new one: its number is
    taken. *)
Lemma Add_sample :
  CDogs_Add sample_heap sample_new_dogs 1%positive no_messages
  = (false, sample_new_dogs,
     BADDOGS sample_old_100 "already in collection" no_messages) /\
  CDogs_Find sample_new_dogs 100 = Some 2%positive /\
  CDogs_Find_chip sample_new_dogs "981023456789012" = Some 2%positive /\
  CDogs_Find_chip sample_new_dogs "123 456 789" = Some 4%positive /\
  CDogs_Find_chip sample_old_dogs "" = None.
Proof. repeat split; vm_compute; reflexivity. Qed.


(* ===================================================================== *)
(** * Further properties of the code *)
(* ===================================================================== *)

(** ** Fields of a row: trimming, the equals sign, the column count (CSVRow.cpp) *)

Module Fields.

(** A string of spaces and tabs. *)
Definition blanks (s : string) : Prop := CRT.all_chars is_blank s = true.

(** A string that begins and ends with a character that is not blank. *)
Definition solid (s : string) : Prop :=
  (exists a rest, s = String a rest /\ is_blank a = false) /\
  (exists z, last_char s = Some z /\ is_blank z = false).

(** The number of occurrences of a character. *)
Fixpoint count_char (c : ascii) (s : string) : nat :=
  match s with
  | EmptyString => 0
  | String a s' => (if Ascii.eqb a c then 1 else 0) + count_char c s'
  end.

(** What [Parse] makes of the text of a field. *)
Definition normalise (f : string) : string :=
  CCSVRow_TrimColumn (CCSVRow_RemoveEquals (CCSVRow_TrimColumn f)).

Lemma find_first_blanks lead s :
  blanks lead ->
  find_first_not_blank (lead +:+ s)
  = option_map (Nat.add (String.length lead)) (find_first_not_blank s).
Proof.
  unfold blanks. induction lead as [|a lead IH]; intros H.
  - rewrite append_nil_l. now destruct (find_first_not_blank s).
  - cbn [CRT.all_chars] in H. apply andb_true_iff in H as [Ha H].
    rewrite append_cons. cbn [find_first_not_blank]. rewrite Ha, (IH H).
    now destruct (find_first_not_blank s).
Qed.

Lemma find_last_blanks trail : blanks trail -> find_last_not_blank trail = None.
Proof.
  unfold blanks. induction trail as [|a trail IH]; intros H; [reflexivity|].
  cbn [CRT.all_chars] in H. apply andb_true_iff in H as [Ha H].
  cbn [find_last_not_blank]. now rewrite (IH H), Ha.
Qed.

Lemma find_last_append s t i :
  find_last_not_blank t = Some i ->
  find_last_not_blank (s +:+ t) = Some (String.length s + i).
Proof.
  intros H. induction s as [|a s IH]; [now rewrite append_nil_l|].
  rewrite append_cons. cbn [find_last_not_blank]. now rewrite IH.
Qed.

Lemma find_last_none s : find_last_not_blank s = None -> blanks s.
Proof.
  unfold blanks. induction s as [|a s IH]; [reflexivity|].
  cbn [find_last_not_blank CRT.all_chars].
  destruct (find_last_not_blank s); [discriminate|].
  destruct (is_blank a); [intros _; now apply IH | discriminate].
Qed.

Lemma find_last_before_blanks s trail i :
  blanks trail -> find_last_not_blank s = Some i ->
  find_last_not_blank (s +:+ trail) = Some i.
Proof.
  intros Ht. revert i. induction s as [|a s IH]; intros i H; [discriminate|].
  rewrite append_cons. cbn [find_last_not_blank] in *.
  destruct (find_last_not_blank s) as [j|] eqn:E.
  - now rewrite (IH j eq_refl).
  - rewrite find_last_blanks; [exact H|].
    unfold blanks. rewrite all_chars_append.
    now rewrite (find_last_none s E), Ht.
Qed.

Lemma substring_skip lead n s :
  String.substring (String.length lead) n (lead +:+ s) = String.substring 0 n s.
Proof.
  induction lead as [|a lead IH]; [now rewrite append_nil_l|].
  rewrite append_cons. cbn [String.length String.substring]. exact IH.
Qed.

Lemma substring_more w n s :
  String.substring 0 (String.length w + n) (w +:+ s)
  = w +:+ String.substring 0 n s.
Proof.
  induction w as [|a w IH]; [now rewrite append_nil_l|].
  rewrite !append_cons. cbn [String.length Nat.add String.substring].
  now rewrite IH.
Qed.

Lemma TrimColumn_blank lead trail :
  blanks lead -> blanks trail -> CCSVRow_TrimColumn (lead +:+ trail) = "".
Proof.
  intros Hl Ht. unfold CCSVRow_TrimColumn. rewrite (find_first_blanks lead _ Hl).
  rewrite find_last_blanks.
  - now destruct (option_map _ _).
  - unfold blanks. rewrite all_chars_append. now rewrite Hl, Ht.
Qed.

Lemma TrimColumn_core lead core trail :
  blanks lead -> blanks trail -> solid core ->
  CCSVRow_TrimColumn (lead +:+ core +:+ trail)
  = core +:+ substr trail 0 (String.length lead).
Proof.
  intros Hl Ht [(a & rest & -> & Ha) (z & Hz & Hzb)].
  unfold CCSVRow_TrimColumn.
  rewrite (find_first_blanks lead _ Hl).
  rewrite append_cons. cbn [find_first_not_blank]. rewrite Ha.
  cbn [option_map]. rewrite <- append_cons.
  rewrite (find_last_append lead _ (String.length (String a rest) - 1)).
  2:{ apply find_last_before_blanks; [exact Ht|].
      now apply (Row.find_last_not_blank_last _ z). }
  unfold substr. rewrite Nat.add_0_r.
  replace (String.length lead + (String.length (String a rest) - 1) + 1)
    with (String.length (String a rest) + String.length lead)
    by (cbn [String.length]; lia).
  rewrite substring_skip. apply substring_more.
Qed.

(** X1: [TrimColumn] removes the leading blanks of a field; of the trailing
    blanks as many stay as leading ones were removed, since the second
    argument of [substr] is a length; a field of blanks only comes out
    empty. *)
Theorem TrimColumn_keeps_blanks (lead core trail : string) :
  blanks lead -> blanks trail -> solid core ->
  CCSVRow_TrimColumn (lead +:+ core +:+ trail)
  = core +:+ substr trail 0 (String.length lead) /\
  CCSVRow_TrimColumn (lead +:+ trail) = "".
Proof.
  intros Hl Ht Hs. split; [now apply TrimColumn_core | now apply TrimColumn_blank].
Qed.

Lemma TrimColumn_keeps_blanks_witness :
  CCSVRow_TrimColumn ("  " +:+ "a b" +:+ "   ")
  = "a b" +:+ substr "   " 0 (String.length "  ") /\
  CCSVRow_TrimColumn ("  " +:+ "   ") = "".
Proof.
  apply (TrimColumn_keeps_blanks "  " "a b" "   ").
  - reflexivity.
  - reflexivity.
  - split; [exists "a"%char, " b" | exists "b"%char]; split; reflexivity.
Defined.

Lemma solid_clean core :
  solid core -> (forall rest, core <> String "=" rest) -> Row.clean core = true.
Proof.
  intros [(a & rest & -> & Ha) (z & Hz & Hzb)] Heq. unfold Row.clean.
  rewrite Hz, Ha, Hzb. cbn [negb andb].
  destruct (Ascii.eqb_spec a "="%char) as [->|]; [now elim (Heq rest)|reflexivity].
Qed.

Lemma substring_none s : String.substring 0 0 s = "".
Proof. now destruct s. Qed.

Lemma normalise_padded (lead core trail : string) :
  blanks lead -> blanks trail -> solid core ->
  (forall rest, core <> String "=" rest) ->
  normalise (lead +:+ core +:+ trail) = core.
Proof.
  intros Hl Ht Hs Heq. unfold normalise.
  rewrite (TrimColumn_core lead core trail Hl Ht Hs).
  pose proof Hs as [(a & rest & -> & Ha) _].
  assert (Hre : forall t, CCSVRow_RemoveEquals (String a rest +:+ t)
                          = String a rest +:+ t).
  { intros t. rewrite append_cons. unfold CCSVRow_RemoveEquals.
    destruct (Ascii.eqb_spec a "="%char) as [->|]; [now elim (Heq rest)|].
    reflexivity. }
  rewrite Hre.
  assert (Hb : blanks (substr trail 0 (String.length lead))).
  { unfold substr, blanks. clear -Ht. revert trail Ht.
    induction (String.length lead) as [|n IH]; intros trail Ht.
    - now rewrite substring_none.
    - destruct trail as [|b trail]; [reflexivity|].
      cbn [CRT.all_chars] in Ht. apply andb_true_iff in Ht as [Hb Ht].
      cbn [String.substring CRT.all_chars]. rewrite Hb. now apply IH. }
  replace (String a rest +:+ substr trail 0 (String.length lead))
    with ("" +:+ String a rest +:+ substr trail 0 (String.length lead))
    by apply append_nil_l.
  rewrite (TrimColumn_core "" (String a rest) _ eq_refl Hb Hs).
  unfold substr. cbn [String.length]. rewrite substring_none.
  apply append_nil_r.
Qed.

Lemma plain_blanks s : blanks s -> Row.plain s = true.
Proof.
  unfold blanks, Row.plain. induction s as [|a s IH]; [reflexivity|].
  cbn [CRT.all_chars CRT.contains_char]. intros H.
  apply andb_true_iff in H as [Ha H]. specialize (IH H).
  apply andb_true_iff in IH as [Hq Hc]. apply negb_true_iff in Hq, Hc.
  rewrite Hq, Hc, !orb_false_r.
  destruct (Ascii.eqb_spec a QUOTE) as [->|]; [discriminate|].
  destruct (Ascii.eqb_spec a COMMA) as [->|]; [discriminate|]. reflexivity.
Qed.

Lemma contains_char_append c s t :
  CRT.contains_char c (s +:+ t) = CRT.contains_char c s || CRT.contains_char c t.
Proof.
  induction s as [|a s IH]; [now rewrite append_nil_l|].
  rewrite append_cons. cbn [CRT.contains_char]. rewrite IH. apply orb_assoc.
Qed.

Lemma plain_append s t : Row.plain (s +:+ t) = Row.plain s && Row.plain t.
Proof.
  unfold Row.plain. rewrite !contains_char_append.
  now destruct (CRT.contains_char QUOTE s), (CRT.contains_char QUOTE t),
    (CRT.contains_char COMMA s), (CRT.contains_char COMMA t).
Qed.

(** X2: [Parse] trims a field twice; the second pass removes the blanks that
    the first one left behind, so that a field comes out without the blanks
    around it. *)
Theorem Parse_trims_twice (lead core trail : string) :
  blanks lead -> blanks trail -> solid core ->
  (forall rest, core <> String "=" rest) -> Row.plain core = true ->
  CCSVRow_Parse (lead +:+ core +:+ trail) = [core].
Proof.
  intros Hl Ht Hs Heq Hp. unfold CCSVRow_Parse.
  destruct (Nat.eqb_spec (String.length (lead +:+ core +:+ trail)) 0) as [E|E].
  { destruct Hs as [(a & rest & -> & _) _].
    rewrite !length_append in E. cbn [String.length] in E. lia. }
  cbn [Parse_loop]. unfold CCSVRow_ParseField.
  rewrite <- (append_nil_r (lead +:+ core +:+ trail)).
  rewrite Row.ParseField_loop_plain; [| |now left].
  - cbn [app]. rewrite append_nil_l. fold (normalise (lead +:+ core +:+ trail)).
    now rewrite normalise_padded.
  - now rewrite !plain_append, (plain_blanks _ Hl), (plain_blanks _ Ht), Hp.
Qed.

Lemma Parse_trims_twice_witness :
  CCSVRow_Parse ("  " +:+ "a b" +:+ "   ") = ["a b"].
Proof.
  apply (Parse_trims_twice "  " "a b" "   ").
  - reflexivity.
  - reflexivity.
  - split; [exists "a"%char, " b" | exists "b"%char]; split; reflexivity.
  - discriminate.
  - reflexivity.
Defined.

(** ** The number of columns *)

Lemma Parse_loop_grows fuel : forall it cols,
  0 < fuel -> length cols < length (Parse_loop fuel it cols).
Proof.
  induction fuel as [|fuel IH]; intros it cols Hf; [lia|].
  cbn [Parse_loop]. destruct (CCSVRow_ParseField it) as [sColumn it1].
  destruct it1 as [|c it2].
  - rewrite length_app. simpl. lia.
  - destruct fuel as [|fuel'].
    + cbn [Parse_loop]. rewrite length_app. simpl. lia.
    + etransitivity; [|apply IH; lia]. rewrite length_app. simpl. lia.
Qed.

(** Where the scan of a field without quotation marks stops. *)
Lemma ParseField_loop_plain_stop s : forall fQuoteLast acc,
  CRT.contains_char QUOTE s = false ->
  let rest := (ParseField_loop s false fQuoteLast acc).2 in
  (rest = "" /\ count_char COMMA s = 0) \/
  (exists rest', rest = String COMMA rest' /\
                 count_char COMMA s = S (count_char COMMA rest') /\
                 String.length rest' < String.length s /\
                 CRT.contains_char QUOTE rest' = false).
Proof.
  induction s as [|a s IH]; intros ql acc Hq; [now left|].
  cbn [CRT.contains_char] in Hq. apply orb_false_iff in Hq as [Ha Hq].
  cbn [ParseField_loop count_char]. cbn [negb]. rewrite andb_true_r.
  destruct (Ascii.eqb a COMMA) eqn:Hc.
  - right. apply Ascii.eqb_eq in Hc as ->. exists s. cbn [snd String.length].
    repeat split; [lia | exact Hq].
  - rewrite Ha. cbn [Nat.add].
    destruct (IH false (push_back acc a) Hq) as [[E1 E2] | (rest' & E1 & E2 & E3 & E4)].
    + left. now split.
    + right. exists rest'. cbn [String.length]. repeat split; try assumption. lia.
Qed.

Lemma Parse_loop_plain_count fuel : forall s cols,
  CRT.contains_char QUOTE s = false -> String.length s < fuel ->
  length (Parse_loop fuel s cols) = length cols + S (count_char COMMA s).
Proof.
  induction fuel as [|fuel IH]; intros s cols Hq Hf; [lia|].
  cbn [Parse_loop]. unfold CCSVRow_ParseField.
  pose proof (ParseField_loop_plain_stop s false "" Hq) as H. cbn zeta in H.
  destruct (ParseField_loop s false false "") as [sColumn it1]. cbn [snd] in H.
  destruct H as [[-> ->] | (rest' & -> & -> & Hlen & Hq')].
  - rewrite length_app. simpl. lia.
  - rewrite IH; [|exact Hq'|lia]. rewrite length_app. simpl. lia.
Qed.

Lemma Parse_nil str : CCSVRow_Parse str = [] -> str = "".
Proof.
  unfold CCSVRow_Parse. destruct str as [|a s]; [reflexivity|].
  cbn [String.length Nat.eqb]. intros E.
  pose proof (Parse_loop_grows (S (S (String.length s))) (String a s) []
                ltac:(lia)) as H.
  rewrite E in H. simpl in H. lia.
Qed.

(** X3: a line without quotation marks has one column more than it has commas;
    the empty line has none, and no other line has none. *)
Theorem Parse_column_count (str : string) :
  (CRT.contains_char QUOTE str = false ->
   length (CCSVRow_Parse str)
   = if CRT.empty str then 0 else S (count_char COMMA str)) /\
  (CCSVRow_Parse str = [] <-> str = "").
Proof.
  split.
  - intros Hq. unfold CCSVRow_Parse. destruct str as [|a s]; [reflexivity|].
    cbn [String.length Nat.eqb CRT.empty].
    rewrite Parse_loop_plain_count; [reflexivity | exact Hq | cbn [String.length]; lia].
  - split; [apply Parse_nil | now intros ->].
Qed.

(** ** The equals sign in front of a field *)

Lemma escape_quotes_plain f :
  CRT.contains_char QUOTE f = false -> escape_quotes f = f.
Proof.
  induction f as [|a f IH]; [reflexivity|]. cbn [CRT.contains_char escape_quotes].
  intros H. apply orb_false_iff in H as [Ha H]. now rewrite Ha, IH.
Qed.

Lemma TrimColumn_solid core : solid core -> CCSVRow_TrimColumn core = core.
Proof.
  intros H.
  pose proof (TrimColumn_core "" core "" eq_refl eq_refl H) as E.
  rewrite append_nil_l, append_nil_r in E. rewrite E. apply append_nil_r.
Qed.

Lemma last_char_cons_cons a b s : last_char (String a (String b s)) = last_char (String b s).
Proof. reflexivity. Qed.

Lemma solid_equals body : Row.clean body = true -> solid (String "=" body).
Proof.
  intros H. split; [now exists "="%char, body|].
  destruct body as [|b body]; [now exists "="%char|].
  rewrite last_char_cons_cons. unfold Row.clean in H.
  destruct (Row.last_char_cons b body) as [z Hz]. rewrite Hz in H |- *.
  exists z. split; [reflexivity|].
  apply andb_true_iff in H as [_ H]. now apply negb_true_iff.
Qed.

Lemma RemoveEquals_unquoted body :
  CRT.contains_char QUOTE body = false ->
  CCSVRow_RemoveEquals (String "=" body) = body.
Proof.
  intros Hq. unfold CCSVRow_RemoveEquals. cbn [Ascii.eqb Bool.eqb negb].
  destruct (Nat.ltb (String.length body) 2); [reflexivity|].
  destruct body as [|q body]; [reflexivity|].
  destruct (last_char (String q body)); [|reflexivity].
  cbn [CRT.contains_char] in Hq. apply orb_false_iff in Hq as [Hq _].
  now rewrite Hq.
Qed.

Lemma normalise_equals body :
  Row.clean body = true -> CRT.contains_char QUOTE body = false ->
  normalise (String "=" body) = body.
Proof.
  intros Hc Hq. unfold normalise.
  rewrite (TrimColumn_solid _ (solid_equals body Hc)).
  rewrite (RemoveEquals_unquoted body Hq). now apply Row.TrimColumn_clean.
Qed.

(** X4: the spreadsheet idiom [="00123"] for a number kept as text, and a bare
    equals sign in front of a field: the field comes out without them. *)
Theorem Parse_equals_sign (body : string) :
  Row.clean body = true -> CRT.contains_char QUOTE body = false ->
  CCSVRow_Parse ("=" +:+ dq +:+ body +:+ dq) = [body] /\
  (CRT.contains_char COMMA body = false ->
   CCSVRow_Parse ("=" +:+ body) = [body]).
Proof.
  intros Hc Hq. split.
  - change ("=" +:+ dq +:+ body +:+ dq)
      with (String "=" (String QUOTE (body +:+ String QUOTE ""))).
    unfold CCSVRow_Parse. cbn [String.length Nat.eqb Parse_loop].
    unfold CCSVRow_ParseField. cbn [ParseField_loop].
    replace (Ascii.eqb "=" COMMA) with false by reflexivity.
    replace (Ascii.eqb "=" QUOTE) with false by reflexivity.
    replace (Ascii.eqb QUOTE COMMA) with false by reflexivity.
    rewrite Ascii.eqb_refl. cbn [andb negb].
    rewrite <- (escape_quotes_plain body Hq) at 1.
    rewrite Row.ParseField_loop_quoted. cbn [ParseField_loop app].
    fold (normalise (push_back "" "=" +:+ body)).
    change (push_back "" "=" +:+ body) with (String "=" body).
    now rewrite normalise_equals.
  - intros Hcomma. change ("=" +:+ body) with (String "=" body).
    unfold CCSVRow_Parse. cbn [String.length Nat.eqb Parse_loop].
    unfold CCSVRow_ParseField.
    rewrite <- (append_nil_r (String "=" body)).
    rewrite Row.ParseField_loop_plain; [| |now left].
    + cbn [app]. fold (normalise ("" +:+ String "=" body)).
      rewrite append_nil_l. now rewrite normalise_equals.
    + unfold Row.plain. cbn [CRT.contains_char]. rewrite Hq, Hcomma. reflexivity.
Qed.

Lemma Parse_equals_sign_witness :
  CCSVRow_Parse ("=" +:+ dq +:+ "00123" +:+ dq) = ["00123"] /\
  (CRT.contains_char COMMA "00123" = false ->
   CCSVRow_Parse ("=" +:+ "00123") = ["00123"]).
Proof. apply (Parse_equals_sign "00123"); reflexivity. Defined.

(** ** Comparing rows *)

Lemma Verify_loop_eq a : forall b,
  length a = length b -> Verify_loop a b = true -> a = b.
Proof.
  induction a as [|x a IH]; intros [|y b] Hlen H; try discriminate; [reflexivity|].
  cbn [Verify_loop] in H. destruct (String.eqb_spec x y) as [->|]; [|discriminate].
  f_equal. apply IH; [now injection Hlen | exact H].
Qed.

Lemma Verify_loop_refl a : Verify_loop a a = true.
Proof.
  induction a as [|x a IH]; [reflexivity|]. cbn [Verify_loop].
  now rewrite String.eqb_refl.
Qed.

Lemma Verify_row_refl row : CCSVRow_Verify_row row row = true.
Proof.
  unfold CCSVRow_Verify_row. rewrite Nat.eqb_refl. cbn [negb].
  apply Verify_loop_refl.
Qed.

(** X5: [Verify], which is also [operator==], holds exactly for equal rows. *)
Theorem Verify_row_equal (this row : CCSVRow) :
  CCSVRow_Verify_row this row = true <-> this = row.
Proof.
  unfold CCSVRow_Verify_row. split.
  - destruct (Nat.eqb_spec (length this) (length row)) as [E|]; [|discriminate].
    cbn [negb]. now apply Verify_loop_eq.
  - intros ->. apply Verify_row_refl.
Qed.

(** ** Parsing what was formatted, for any fields *)

Lemma Parse_loop_Format_any cols : forall fuel col done,
  length cols < fuel ->
  Parse_loop fuel (CCSVRow_FormatField col +:+ Row.more cols) done
  = done ++ map normalise (col :: cols).
Proof.
  induction cols as [|col' cols IH]; intros fuel col done Hfuel;
    (destruct fuel as [|fuel]; [simpl in Hfuel; lia|]);
    cbn [Parse_loop];
    rewrite (Row.ParseField_FormatField _ _ (Row.field_end_more _)).
  - reflexivity.
  - cbn [Row.more]. rewrite IH by (simpl in Hfuel; lia).
    now rewrite <- app_assoc.
Qed.

(** X6: whatever the fields hold (commas, quotation marks, blanks), a row that
    is formatted and parsed again has the same number of fields, and each
    field is what [Parse] makes of its text; the one exception is the row of
    one empty field, whose line is empty. *)
Theorem Parse_Format_any (fields : CCSVRow) :
  fields <> [""] ->
  CCSVRow_Parse (CCSVRow_Format fields) = map normalise fields.
Proof.
  intros Hne. destruct fields as [|col cols]; [reflexivity|].
  rewrite Row.Format_cons. unfold CCSVRow_Parse.
  destruct (Nat.eqb_spec (String.length (CCSVRow_FormatField col +:+ Row.more cols)) 0)
    as [E|E].
  - apply length_zero, append_eq_nil in E as [E1 E2].
    apply Row.FormatField_empty in E1. destruct cols; [congruence | discriminate].
  - rewrite Parse_loop_Format_any; [reflexivity|].
    rewrite length_append. pose proof (Row.length_more cols). lia.
Qed.

Lemma Parse_Format_any_witness :
  CCSVRow_Parse (CCSVRow_Format [" a, b "; dq; "=1"; ""])
  = map normalise [" a, b "; dq; "=1"; ""].
Proof. apply (Parse_Format_any [" a, b "; dq; "=1"; ""]). discriminate. Defined.

End Fields.

(** ** Writing a file and reading it back (CSVFile.cpp) *)

Module Files.
Import File.

(** The last line of a text that does not end in a newline. *)
Lemma getline_loop_last last : forall str,
  no_newline last = true ->
  getline_loop last str = (str +:+ last, {| buf := ""; eofbit := true |}).
Proof.
  unfold no_newline. induction last as [|a last IH]; intros str H.
  - now rewrite append_nil_r.
  - cbn [CRT.contains_char] in H. rewrite negb_orb in H.
    apply andb_true_iff in H as [Ha H]. apply negb_true_iff in Ha.
    cbn [getline_loop]. rewrite Ha. rewrite IH by exact H.
    now rewrite Row.push_back_append.
Qed.

Lemma Parse_not_nil s : s <> "" -> CCSVRow_Parse s <> [].
Proof. intros H E. now apply Fields.Parse_nil in E. Qed.

Lemma Read_last last row :
  no_newline last = true -> last <> "" ->
  exists row', row' <> [] /\
    CCSVRow_Read {| buf := last; eofbit := false |} row
    = (row', {| buf := ""; eofbit := true |}).
Proof.
  intros Hn Hne. exists (CCSVRow_Parse last). split; [now apply Parse_not_nil|].
  unfold CCSVRow_Read, getline. cbn [eofbit buf].
  rewrite getline_loop_last by exact Hn. now rewrite append_nil_l.
Qed.

Lemma Read_line_then line rest row :
  no_newline line = true ->
  CCSVRow_Read {| buf := line +:+ newline +:+ rest; eofbit := false |} row
  = (CCSVRow_Parse line, {| buf := rest; eofbit := false |}).
Proof.
  intros Hn. unfold CCSVRow_Read, getline. cbn [eofbit buf].
  rewrite getline_loop_line by exact Hn. now rewrite append_nil_l.
Qed.

Lemma text_of_cons line lines rest :
  text_of (line :: lines) +:+ rest = line +:+ newline +:+ (text_of lines +:+ rest).
Proof. cbn [text_of]. now rewrite !append_assoc. Qed.

Lemma Read_loop_unterminated data last : forall fuel row nCols nLines rows log,
  Forall (fun line => no_newline line = true) data ->
  no_newline last = true -> last <> "" ->
  Read_loop fuel {| buf := text_of data +:+ last; eofbit := false |} row nCols
    nLines rows log = None.
Proof.
  induction data as [|line data IH]; intros fuel row nCols nLines rows log Hd Hn Hne;
    (destruct fuel as [|fuel]; [reflexivity|]); cbn [Read_loop].
  - cbn [text_of]. rewrite append_nil_l.
    destruct (Read_last last row Hn Hne) as (row' & Hrow & ->).
    cbn [eofbit]. destruct row' as [|c row']; [congruence|].
    cbn [length Nat.eqb andb]. now apply Read_loop_stuck.
  - rewrite text_of_cons. rewrite Read_line_then by (now inversion Hd).
    cbn [eofbit andb]. apply IH; [now inversion Hd | exact Hn | exact Hne].
Qed.

(** X7: a file whose last line is not ended by a newline: [Read] never comes to
    its [break], whatever bound is put on the number of turns, with or
    without a header. *)
Theorem Read_unterminated (fuel : nat) (lines : list string) (last sHeader : string)
    (rows : list CCSVRow) (log : Log) :
  Forall (fun line => no_newline line = true) lines ->
  no_newline last = true -> last <> "" ->
  CCSVFile_Read fuel {| buf := text_of lines +:+ last; eofbit := false |}
    sHeader rows log = None.
Proof.
  intros Hd Hn Hne. unfold CCSVFile_Read.
  destruct (CRT.empty sHeader); cbn [negb].
  - now apply Read_loop_unterminated.
  - destruct lines as [|line lines].
    + cbn [text_of]. rewrite append_nil_l.
      destruct (Read_last last [] Hn Hne) as (row' & Hrow & ->).
      now apply Read_loop_stuck.
    + rewrite text_of_cons. rewrite Read_line_then by (now inversion Hd).
      apply Read_loop_unterminated; [now inversion Hd | exact Hn | exact Hne].
Qed.

Lemma Read_unterminated_witness :
  CCSVFile_Read 1000 {| buf := text_of ["Name,Number"] +:+ "Nova,100";
                        eofbit := false |} "" [] no_messages = None.
Proof.
  apply (Read_unterminated 1000 ["Name,Number"] "Nova,100" "" [] no_messages).
  - repeat constructor.
  - reflexivity.
  - discriminate.
Defined.

(** ** Reading back what [Write] wrote *)

Lemma no_newline_append s t :
  no_newline (s +:+ t) = no_newline s && no_newline t.
Proof. unfold no_newline. rewrite Fields.contains_char_append. apply negb_orb. Qed.

Lemma no_newline_escape f : no_newline (escape_quotes f) = no_newline f.
Proof.
  unfold no_newline. f_equal. induction f as [|a f IH]; [reflexivity|].
  cbn [escape_quotes]. destruct (Ascii.eqb_spec a QUOTE) as [->|];
    cbn [CRT.contains_char]; now rewrite IH.
Qed.

Lemma no_newline_FormatField f :
  no_newline f = true -> no_newline (CCSVRow_FormatField f) = true.
Proof.
  intros H. unfold CCSVRow_FormatField.
  destruct (CCSVRow_NeedsQuotes f); cbn [negb]; [|exact H].
  change (String QUOTE (escape_quotes f)) with (String QUOTE "" +:+ escape_quotes f).
  now rewrite !no_newline_append, no_newline_escape, H.
Qed.

Lemma no_newline_more cols :
  Forall (fun f => no_newline f = true) cols -> no_newline (Row.more cols) = true.
Proof.
  induction 1 as [|f cols Hf _ IH]; [reflexivity|]. cbn [Row.more].
  change (String COMMA (CCSVRow_FormatField f +:+ Row.more cols))
    with (String COMMA "" +:+ (CCSVRow_FormatField f +:+ Row.more cols)).
  now rewrite !no_newline_append, no_newline_FormatField, IH.
Qed.

Lemma no_newline_Format row :
  Forall (fun f => no_newline f = true) row -> no_newline (CCSVRow_Format row) = true.
Proof.
  intros H. destruct row as [|f cols]; [reflexivity|].
  rewrite Row.Format_cons, no_newline_append.
  rewrite no_newline_FormatField by (now inversion H).
  now rewrite no_newline_more by (now inversion H).
Qed.

Lemma Write_rows rows : forall stm,
  fold_left (fun stm row => CCSVRow_Write row stm) rows stm
  = stm +:+ text_of (map CCSVRow_Format rows).
Proof.
  induction rows as [|row rows IH]; intros stm; cbn [fold_left map text_of].
  - now rewrite append_nil_r.
  - rewrite IH. unfold CCSVRow_Write, endl, newline. now rewrite !append_assoc.
Qed.

Lemma Write_text rows sHeader :
  (CCSVFile_Write rows "" sHeader).1
  = text_of (map CCSVRow_Format
               ((if CRT.empty sHeader then [] else [CCSVRow_Parse sHeader]) ++ rows)).
Proof.
  unfold CCSVFile_Write. cbn [fst].
  assert (E : forall stm,
             (if Nat.ltb 0 (length rows)
              then fold_left (fun stm row => CCSVRow_Write row stm) rows stm
              else stm) = stm +:+ text_of (map CCSVRow_Format rows)).
  { intros stm. destruct rows as [|row rows'].
    - cbn. now rewrite append_nil_r.
    - cbn [length Nat.ltb Nat.leb]. apply Write_rows. }
  rewrite E. destruct (CRT.empty sHeader); cbn [negb app].
  - now rewrite append_nil_l.
  - unfold CCSVRow_Write, endl. cbn [map text_of]. unfold newline.
    now rewrite append_nil_l, !append_assoc.
Qed.

(** A row that the reader hands back as the writer got it: fields without
    blanks at their ends, without a leading equals sign and without a
    newline, and not the row of one empty field. *)
Definition faithful (row : CCSVRow) : Prop :=
  Forall (fun f => Row.clean f = true) row /\
  Forall (fun f => no_newline f = true) row /\ row <> [""].

Lemma row_reports_same nCols rows : forall nLines,
  Forall (fun row => faithful row /\ length row = nCols) rows ->
  row_reports nCols nLines (map CCSVRow_Format rows) = [].
Proof.
  induction rows as [|row rows IH]; intros nLines H; [reflexivity|].
  inversion H as [|? ? [(Hc & _ & Hne) Hlen] H']; subst.
  cbn [map row_reports]. rewrite (Row.Parse_Format row Hc Hne).
  rewrite Nat.eqb_refl. cbn [negb]. rewrite andb_false_r. cbn [app].
  now apply IH.
Qed.

Lemma map_Parse_Format rows :
  Forall faithful rows -> map CCSVRow_Parse (map CCSVRow_Format rows) = rows.
Proof.
  induction 1 as [|row rows (Hc & _ & Hne) _ IH]; [reflexivity|].
  cbn [map]. now rewrite (Row.Parse_Format row Hc Hne), IH.
Qed.

Lemma no_newline_lines rows :
  Forall faithful rows ->
  Forall (fun line => no_newline line = true) (map CCSVRow_Format rows).
Proof.
  induction 1 as [|row rows (_ & Hn & _) _ IH]; constructor; [|exact IH].
  now apply no_newline_Format.
Qed.

(** X8: what [Write] wrote, [Read] reads back: the same rows, and nothing is
    reported when the rows have as many columns as the header. *)
Theorem Write_then_Read (rows : list CCSVRow) (sHeader : string) (log : Log)
    (fuel : nat) :
  Forall faithful rows -> faithful (CCSVRow_Parse sHeader) ->
  (sHeader <> "" ->
   Forall (fun row => length row = length (CCSVRow_Parse sHeader)) rows) ->
  length rows < fuel ->
  CCSVFile_Read fuel
    {| buf := (CCSVFile_Write rows "" sHeader).1; eofbit := false |}
    sHeader [] log
  = Some (rows, log).
Proof.
  intros Hrows Hhdr Hlen Hfuel. rewrite Write_text. unfold CCSVFile_Read.
  destruct sHeader as [|a sHeader'] eqn:E; cbn [CRT.empty negb app].
  - rewrite Read_loop_lines;
      [| now apply no_newline_lines | now rewrite length_map].
    rewrite row_reports_none, reported_nil, (map_Parse_Format rows Hrows).
    reflexivity.
  - rewrite <- E in *. cbn [map].
    destruct Hhdr as (Hc & Hn & Hne).
    rewrite Read_line by (now apply no_newline_Format).
    rewrite (Row.Parse_Format _ Hc Hne).
    unfold CCSVRow_Verify.
    rewrite Fields.Verify_row_refl. cbn [negb].
    rewrite Read_loop_lines;
      [| now apply no_newline_lines | now rewrite length_map].
    rewrite (map_Parse_Format rows Hrows). rewrite row_reports_same.
    + now rewrite reported_nil.
    + specialize (Hlen ltac:(rewrite E; discriminate)).
      clear -Hrows Hlen. induction Hrows; [constructor|].
      inversion Hlen; subst. constructor; [now split | now apply IHHrows].
Qed.

Lemma Write_then_Read_witness :
  CCSVFile_Read 5
    {| buf := (CCSVFile_Write [["Nova"; "1 Main St, Reno"]; ["Rex"; dq]] ""
                 "Name, Address").1;
       eofbit := false |}
    "Name, Address" [] no_messages
  = Some ([["Nova"; "1 Main St, Reno"]; ["Rex"; dq]], no_messages).
Proof.
  apply (Write_then_Read [["Nova"; "1 Main St, Reno"]; ["Rex"; dq]]
           "Name, Address" no_messages 5).
  - repeat constructor; discriminate.
  - repeat constructor. discriminate.
  - intros _. repeat constructor.
  - simpl. lia.
Defined.

End Files.

(** ** Rows that [FromRow] accepts and rows that end the run (Dog.cpp) *)

Module Intake.
Import RegexFacts Pieces Layout.

(** [stoi] on any numeral: the value, unless it does not fit an [int]. *)
Lemma stoi_numeral_cases s v :
  numeral s v ->
  CRT.stoi s = if (v <=? CRT.INT_MAX)%Z then Some v else None.
Proof.
  intros Hnum. destruct (Z.leb_spec v CRT.INT_MAX) as [Hle|Hgt].
  - now apply stoi_numeral.
  - destruct Hnum as (Hne & Hall & Hval). destruct s as [|a s]; [congruence|].
    pose proof Hall as Hall'. simpl in Hall'.
    apply andb_true_iff in Hall' as [Ha _].
    unfold CRT.stoi. cbn [CRT.skip_spaces]. rewrite (digit_not_space a Ha).
    destruct (digit_not_sign a Ha) as [Hm Hp].
    assert (E : (match String a s with
                 | String "-"%char t => (true, t)
                 | String "+"%char t => (false, t)
                 | _ => (false, String a s)
                 end) = (false, String a s)).
    { destruct a as [[] [] [] [] [] [] [] []]; try reflexivity; congruence. }
    rewrite E. rewrite Ha, Hval.
    replace (v <=? CRT.INT_MAX)%Z with false by (symmetry; now apply Z.leb_gt).
    now rewrite andb_false_r.
Qed.


(** The text of the dog number column. *)
Definition number_text (fNew : bool) (row : CCSVRow) : string :=
  column fNew row "Dog Number".

(** The course of [FromRow] on a row of the right length. *)
Lemma FromRow_course (fNew : bool) (row : CCSVRow) (log : Log) :
  length row = total fNew ->
  CDog_FromRow row fNew log
  = if negb (matched (regex_match (number_text fNew row) reNumber)) then
      let this := record_by_title fNew row 0 in
      Returns (false, this,
               BADDOGS this ("invalid dog number " +:+ number_text fNew row) log)
    else
      n ← or_throw "std::stoi" (CRT.stoi (number_text fNew row));
      let this := record_by_title fNew row (Z.to_N (CRT.to_uint32 n)) in
      if (m_nNumber this =? 0)%N || (MAXDOG <? m_nNumber this)%N then
        Returns (false, this,
                 BADDOGS this ("invalid dog number "
                               +:+ CRT.to_string (m_nNumber this)) log)
      else Returns (true, this, log).
Proof.
  intros Hlen. unfold CDog_FromRow. fold (total fNew).
  rewrite Hlen, Nat.eqb_refl. cbn [negb]. unfold number_text.
  destruct fNew.
  - unfold total, TOTAL_NEW_COLUMNS in Hlen. destruct_row row 36.
    change (column true _ "Dog Number") with c0. cbn [next_col nth].
    destruct (matched (regex_match c0 reNumber)); cbn [negb]; [|reflexivity].
    destruct (CRT.stoi c0); reflexivity.
  - unfold total, TOTAL_OLD_COLUMNS in Hlen. destruct_row row 35.
    change (column false _ "Dog Number") with c0. cbn [next_col nth].
    destruct (matched (regex_match c0 reNumber)); cbn [negb]; [|reflexivity].
    destruct (CRT.stoi c0); reflexivity.
Qed.

Lemma FromRow_length (fNew : bool) (row : CCSVRow) (log : Log) :
  length row <> total fNew -> CDog_FromRow row fNew log = AssertFails.
Proof.
  intros H. unfold CDog_FromRow. fold (total fNew).
  now destruct (Nat.eqb_spec (length row) (total fNew)).
Qed.




End Intake.

(** ** Dates and ages (Dog.cpp) *)

Module Dates.
Import RegexFacts Pieces Layout.

(** The value of a string of decimal digits. *)
Definition value (w : string) : Z := CRT.digits_value 0 w.

(** A date written as YYYY-MM-DD. *)
Definition date_shape (s Y M D : string) : Prop :=
  s = Y +:+ "-" +:+ M +:+ "-" +:+ D /\
  decimal 4 Y /\ decimal 2 M /\ decimal 2 D.

Lemma reDate_matches n0 s c s1 c1 :
  matches n0 reDate s c s1 c1 <->
  String.length s = n0 /\ s1 = "" /\
  exists Y M D, date_shape s Y M D /\ c1 = (3, D) :: (2, M) :: (1, Y) :: c.
Proof.
  unfold reDate. Microchip.expose_goal. split.
  - intros H. first_piece H M0. apply matches_Bol in M0 as (Hlen & -> & ->).
    first_piece H M0. apply matches_Group_Repeat in M0 as (Y & -> & HY1 & HY2 & ->).
    first_piece H M0. apply matches_Chr in M0 as (-> & ->).
    first_piece H M0. apply matches_Group_Repeat in M0 as (M & -> & HM1 & HM2 & ->).
    first_piece H M0. apply matches_Chr in M0 as (-> & ->).
    first_piece H M0. apply matches_Group_Repeat in M0 as (D & -> & HD1 & HD2 & ->).
    apply matches_end in H as (-> & -> & ->).
    rewrite append_nil_r in *. repeat split; try assumption.
    exists Y, M, D. split; [|reflexivity]. unfold date_shape, decimal. auto 10.
  - intros (Hlen & -> & Y & M & D & (-> & [? ?] & [? ?] & [? ?]) & ->).
    next_piece; [now apply matches_Bol|].
    next_piece; [apply matches_Group_Repeat; eauto 6|].
    next_piece; [now apply matches_Chr|].
    next_piece; [apply matches_Group_Repeat; eauto 6|].
    next_piece; [now apply matches_Chr|].
    next_piece; [apply matches_Group_Repeat; exists D;
                 rewrite append_nil_r; eauto 6|].
    now apply matches_end.
Qed.

Lemma reDate_found s c :
  regex_search s reDate = Some c ->
  exists Y M D, date_shape s Y M D /\ c = [(3, D); (2, M); (1, Y)].
Proof.
  intros H. apply regex_search_sound in H as (s1 & M0).
  apply (reDate_matches (String.length s) s [] s1 c) in M0. tauto.
Qed.

Lemma reDate_finds s Y M D :
  date_shape s Y M D -> matched (regex_search s reDate) = true.
Proof.
  intros H.
  apply (regex_search_complete s _ "" [(3, D); (2, M); (1, Y)]).
  apply (reDate_matches (String.length s) s [] ""). eauto 8.
Qed.

Lemma append_inv_length w1 : forall w2 s1 s2,
  w1 +:+ s1 = w2 +:+ s2 -> String.length w1 = String.length w2 ->
  w1 = w2 /\ s1 = s2.
Proof.
  induction w1 as [|a w1 IH]; intros [|b w2] s1 s2 H Hlen; try discriminate.
  - now rewrite !append_nil_l in H.
  - rewrite !append_cons in H. injection H as -> H. injection Hlen as Hlen.
    destruct (IH _ _ _ H Hlen) as [-> ->]. now split.
Qed.

Lemma date_shape_unique s Y M D Y' M' D' :
  date_shape s Y M D -> date_shape s Y' M' D' -> Y = Y' /\ M = M' /\ D = D'.
Proof.
  intros (-> & [HY _] & [HM _] & _) (E & [HY' _] & [HM' _] & _).
  apply append_inv_length in E as [-> E]; [|congruence].
  apply (append_inv_head "-") in E.
  apply append_inv_length in E as [-> E]; [|congruence].
  apply (append_inv_head "-") in E. now subst.
Qed.

(** A string of at most nine digits fits an [int]. *)
Lemma digits_value_bound w : forall acc,
  (0 <= acc)%Z ->
  (CRT.digits_value acc w < (acc + 1) * 10 ^ Z.of_nat (String.length w))%Z.
Proof.
  induction w as [|a w IH]; intros acc Hacc.
  - cbn [CRT.digits_value String.length]. change (10 ^ Z.of_nat 0)%Z with 1%Z. lia.
  - cbn [CRT.digits_value String.length]. rewrite Nat2Z.inj_succ, Z.pow_succ_r by lia.
    destruct (CRT.isdigit a) eqn:Ha.
    + assert (0 <= CRT.digit_value a <= 9)%Z.
      { unfold CRT.isdigit, CRT.in_range in Ha. unfold CRT.digit_value.
        apply andb_true_iff in Ha as [Ha Hb].
        apply N.leb_le in Ha. apply N.leb_le in Hb. lia. }
      specialize (IH (10 * acc + CRT.digit_value a)%Z ltac:(lia)).
      assert (0 < 10 ^ Z.of_nat (String.length w))%Z by (apply Z.pow_pos_nonneg; lia).
      nia.
    + assert (0 < 10 ^ Z.of_nat (String.length w))%Z by (apply Z.pow_pos_nonneg; lia).
      nia.
Qed.

Lemma stoi_decimal n w :
  decimal n w -> 0 < n <= 9 -> CRT.stoi w = Some (value w).
Proof.
  intros [Hlen Hall] Hn. apply stoi_numeral.
  - repeat split; [|exact Hall]. intros ->. simpl in Hlen. lia.
  - pose proof (digits_value_bound w 0 ltac:(lia)) as H. fold (value w) in H.
    rewrite Hlen in H.
    assert (10 ^ Z.of_nat n <= 10 ^ 9)%Z by (apply Z.pow_le_mono_r; lia).
    unfold CRT.INT_MAX. lia.
Qed.

Lemma value_bound n w : decimal n w -> (0 <= value w < 10 ^ Z.of_nat n)%Z.
Proof.
  intros [Hlen Hall]. split.
  - apply (digits_value_ge 0 w). lia.
  - pose proof (digits_value_bound w 0 ltac:(lia)) as H. rewrite Hlen in H.
    unfold value. lia.
Qed.

Lemma to_uint32_small v : (0 <= v < 2 ^ 32)%Z -> CRT.to_uint32 v = v.
Proof. intros H. unfold CRT.to_uint32. now apply Z.mod_small. Qed.

(** The calendar test of [ParseDate]. *)
Definition in_calendar (d m y : Z) : Prop :=
  (1 <= m <= 12 /\ 1 <= d <= 31 /\ 1990 <= y <= 2099)%Z.

Lemma ParseDate_shape s Y M D :
  date_shape s Y M D ->
  CDog_ParseDate s
  = Returns (if ((value M =? 0) || (12 <? value M))%Z then None
             else if ((value D =? 0) || (31 <? value D))%Z then None
             else if ((value Y <? 1990) || (2099 <? value Y))%Z then None
             else Some (value D, value M, value Y)).
Proof.
  intros Hs. unfold CDog_ParseDate.
  destruct (regex_search s reDate) as [c|] eqn:E.
  - apply reDate_found in E as (Y' & M' & D' & Hs' & ->).
    destruct (date_shape_unique _ _ _ _ _ _ _ Hs Hs') as (<- & <- & <-).
    destruct Hs as (_ & HY & HM & HD). cbn [str Nat.eqb].
    rewrite (stoi_decimal 4 Y HY), (stoi_decimal 2 M HM), (stoi_decimal 2 D HD)
      by lia.
    cbn [or_throw mbind outcome_bind].
    pose proof (value_bound _ _ HY). pose proof (value_bound _ _ HM).
    pose proof (value_bound _ _ HD).
    rewrite !to_uint32_small by (simpl in *; lia).
    destruct ((value M =? 0) || (12 <? value M))%Z; [reflexivity|].
    destruct ((value D =? 0) || (31 <? value D))%Z; [reflexivity|].
    destruct ((value Y <? 1990) || (2099 <? value Y))%Z; reflexivity.
  - apply reDate_finds in Hs. rewrite E in Hs. discriminate.
Qed.

Lemma ParseDate_no_shape s :
  (forall Y M D, ~ date_shape s Y M D) -> CDog_ParseDate s = Returns None.
Proof.
  intros H. unfold CDog_ParseDate.
  destruct (regex_search s reDate) as [c|] eqn:E; [|reflexivity].
  apply reDate_found in E as (Y & M & D & Hs & _). now elim (H Y M D).
Qed.

Lemma shape_or_not s :
  (exists Y M D, date_shape s Y M D) \/ (forall Y M D, ~ date_shape s Y M D).
Proof.
  destruct (regex_search s reDate) as [c|] eqn:E.
  - left. apply reDate_found in E as (Y & M & D & Hs & _). eauto.
  - right. intros Y M D Hs. apply reDate_finds in Hs. rewrite E in Hs. discriminate.
Qed.

Lemma ParseDate_returns sDate : exists r, CDog_ParseDate sDate = Returns r.
Proof.
  destruct (shape_or_not sDate) as [(Y & M & D & Hs) | Hno].
  - rewrite (ParseDate_shape _ _ _ _ Hs). eauto.
  - rewrite (ParseDate_no_shape _ Hno). eauto.
Qed.

Lemma ParseDate_some sDate d m y :
  CDog_ParseDate sDate = Returns (Some (d, m, y)) <->
  exists Y M D, date_shape sDate Y M D /\
                d = value D /\ m = value M /\ y = value Y /\ in_calendar d m y.
Proof.
  destruct (shape_or_not sDate) as [(Y & M & D & Hs) | Hno].
  - rewrite (ParseDate_shape _ _ _ _ Hs). split.
    + intros H. exists Y, M, D. split; [exact Hs|].
      destruct ((value M =? 0) || (12 <? value M))%Z eqn:E1; [discriminate|].
      destruct ((value D =? 0) || (31 <? value D))%Z eqn:E2; [discriminate|].
      destruct ((value Y <? 1990) || (2099 <? value Y))%Z eqn:E3; [discriminate|].
      injection H as <- <- <-.
      apply orb_false_iff in E1 as [E1 E1'], E2 as [E2 E2'], E3 as [E3 E3'].
      destruct Hs as (_ & HY & HM & HD).
      pose proof (value_bound _ _ HM). pose proof (value_bound _ _ HD).
      unfold in_calendar. lia.
    + intros (Y' & M' & D' & Hs' & -> & -> & -> & Hc).
      destruct (date_shape_unique _ _ _ _ _ _ _ Hs Hs') as (<- & <- & <-).
      destruct Hc as (Hm & Hd & Hy).
      replace ((value M =? 0) || (12 <? value M))%Z with false by (symmetry; lia).
      replace ((value D =? 0) || (31 <? value D))%Z with false by (symmetry; lia).
      replace ((value Y <? 1990) || (2099 <? value Y))%Z with false
        by (symmetry; lia).
      reflexivity.
  - rewrite (ParseDate_no_shape _ Hno). split; [discriminate|].
    intros (Y & M & D & Hs & _). now elim (Hno Y M D).
Qed.

(** X11: [ParseDate] returns for every string; it yields a date exactly for
    YYYY-MM-DD with a month from 1 to 12, a day from 1 to 31 (whatever the
    month) and a year from 1990 to 2099. *)
Theorem ParseDate_accepts (sDate : string) (d m y : Z) :
  (exists r, CDog_ParseDate sDate = Returns r) /\
  (CDog_ParseDate sDate = Returns (Some (d, m, y)) <->
   exists Y M D, date_shape sDate Y M D /\
                 d = value D /\ m = value M /\ y = value Y /\ in_calendar d m y).
Proof. split; [apply ParseDate_returns | apply ParseDate_some]. Qed.

(** *** The age and the date of birth *)

(** An age written as "<years> years <months> months", one white space
    character between the words. *)
Definition age_shape (s ya ma : string) : Prop :=
  exists sp1 sp2 sp3,
    s = ya +:+ String sp1 ("years" +:+ String sp2 (ma +:+ String sp3 "months")) /\
    CRT.isspace sp1 = true /\ CRT.isspace sp2 = true /\ CRT.isspace sp3 = true /\
    ya <> "" /\ CRT.all_chars CRT.isdigit ya = true /\
    ma <> "" /\ CRT.all_chars CRT.isdigit ma = true.

Lemma matches_space n0 s c s1 c1 :
  matches n0 space s c s1 c1 <->
  exists a, s = String a s1 /\ CRT.isspace a = true /\ c1 = c.
Proof. apply matches_Class. Qed.

Lemma reAge_matches n0 s c s1 c1 :
  matches n0 reAge s c s1 c1 <->
  String.length s = n0 /\ s1 = "" /\
  exists ya ma, age_shape s ya ma /\ c1 = (2, ma) :: (1, ya) :: c.
Proof.
  unfold reAge. unfold Seqs. cbn [fold_right]. split.
  - intros H. first_piece H M0. apply matches_Bol in M0 as (Hlen & -> & ->).
    first_piece H M0. unfold digit in M0.
    apply matches_Group_Plus in M0 as (ya & -> & Hya & Hyd & ->).
    first_piece H M0. apply matches_space in M0 as (sp1 & -> & Hsp1 & ->).
    first_piece H M0. apply matches_Lit in M0 as (-> & ->).
    first_piece H M0. apply matches_space in M0 as (sp2 & -> & Hsp2 & ->).
    first_piece H M0. unfold digit in M0.
    apply matches_Group_Plus in M0 as (ma & -> & Hma & Hmd & ->).
    first_piece H M0. apply matches_space in M0 as (sp3 & -> & Hsp3 & ->).
    first_piece H M0. apply matches_Lit in M0 as (-> & ->).
    apply matches_end in H as (-> & -> & ->).
    rewrite append_nil_r in *. repeat split; try assumption.
    exists ya, ma. split; [|reflexivity].
    exists sp1, sp2, sp3. auto 10.
  - intros (Hlen & -> & ya & ma &
            (sp1 & sp2 & sp3 & -> & ? & ? & ? & ? & ? & ? & ?) & ->).
    next_piece; [now apply matches_Bol|].
    next_piece; [unfold digit; apply matches_Group_Plus; eauto 6|].
    next_piece; [apply matches_space; eauto|].
    next_piece; [now apply matches_Lit|].
    next_piece; [apply matches_space; eauto|].
    next_piece; [unfold digit; apply matches_Group_Plus; eauto 6|].
    next_piece; [apply matches_space; eauto|].
    next_piece; [apply matches_Lit; split; [reflexivity|];
                 symmetry; apply append_nil_r|].
    now apply matches_end.
Qed.

Lemma reAge_found s c :
  regex_search s reAge = Some c ->
  exists ya ma, age_shape s ya ma /\ c = [(2, ma); (1, ya)].
Proof.
  intros H. apply regex_search_sound in H as (s1 & M0).
  apply (reAge_matches (String.length s) s [] s1 c) in M0. tauto.
Qed.

Lemma reAge_finds s ya ma :
  age_shape s ya ma -> matched (regex_search s reAge) = true.
Proof.
  intros H. apply (regex_search_complete s _ "" [(2, ma); (1, ya)]).
  apply (reAge_matches (String.length s) s [] ""). eauto 8.
Qed.

(** Digits up to the first character that is not a digit. *)
Lemma digits_prefix_unique w1 : forall w2 a1 a2 r1 r2,
  CRT.all_chars CRT.isdigit w1 = true -> CRT.all_chars CRT.isdigit w2 = true ->
  CRT.isdigit a1 = false -> CRT.isdigit a2 = false ->
  w1 +:+ String a1 r1 = w2 +:+ String a2 r2 -> w1 = w2 /\ r1 = r2.
Proof.
  induction w1 as [|b1 w1 IH]; intros [|b2 w2] a1 a2 r1 r2 H1 H2 Ha1 Ha2 E.
  - rewrite !append_nil_l in E. injection E as _ ->. now split.
  - rewrite append_nil_l, append_cons in E. injection E as -> _.
    cbn [CRT.all_chars] in H2. rewrite Ha1 in H2. discriminate.
  - rewrite append_nil_l, append_cons in E. injection E as -> _.
    cbn [CRT.all_chars] in H1. rewrite Ha2 in H1. discriminate.
  - rewrite !append_cons in E. injection E as -> E.
    cbn [CRT.all_chars] in H1, H2.
    apply andb_true_iff in H1 as [_ H1]. apply andb_true_iff in H2 as [_ H2].
    destruct (IH _ _ _ _ _ H1 H2 Ha1 Ha2 E) as [-> ->]. now split.
Qed.

Lemma space_not_digit a : CRT.isspace a = true -> CRT.isdigit a = false.
Proof.
  destruct (CRT.isdigit a) eqn:E; [|reflexivity].
  rewrite (digit_not_space a E). discriminate.
Qed.

Lemma age_shape_unique s ya ma ya' ma' :
  age_shape s ya ma -> age_shape s ya' ma' -> ya = ya' /\ ma = ma'.
Proof.
  intros (sp1 & sp2 & sp3 & -> & H1 & H2 & H3 & _ & Hy & _ & Hm)
         (sp1' & sp2' & sp3' & E & H1' & H2' & H3' & _ & Hy' & _ & Hm').
  apply digits_prefix_unique in E as [-> E];
    try assumption; try (now apply space_not_digit).
  split; [reflexivity|].
  apply (append_inv_head "years") in E. injection E as _ E.
  apply digits_prefix_unique in E as [-> _];
    try assumption; try (now apply space_not_digit).
  reflexivity.
Qed.

Lemma to_int32_small v : (- 2 ^ 31 <= v < 2 ^ 31)%Z -> CRT.to_int32 v = v.
Proof.
  intros H. unfold CRT.to_int32.
  destruct (Z_lt_le_dec v 0) as [Hneg|Hpos].
  - rewrite <- (Z.mod_unique v (2 ^ 32) (-1) (v + 2 ^ 32)) by lia.
    destruct (Z.ltb_spec (v + 2 ^ 32) (2 ^ 31)); lia.
  - rewrite Z.mod_small by lia.
    destruct (Z.ltb_spec v (2 ^ 31)); lia.
Qed.

Lemma tolower_empty s : CDog_tolower s = "" -> s = "".
Proof. now destruct s. Qed.

(** X12: the date of birth lies as many months before the acquisition as the age
    says: months are counted from year 0, the day is the day of the
    acquisition. *)
Theorem ComputeBirthday_months (d : CDog) (ya ma : string) (D M Y : Z) :
  age_shape (CDog_tolower (m_sAge d)) ya ma ->
  CDog_ParseDate (m_sDateAcquired d) = Returns (Some (D, M, Y)) ->
  (value ya <= 20)%Z -> (value ma <= 12)%Z ->
  let born := (12 * Y + (M - 1) - (12 * value ya + value ma))%Z in
  CDog_ComputeBirthday d
  = Returns (true, CDog_FormatDate D (born mod 12 + 1) (born / 12)).
Proof.
  intros Hage Hdate Hy Hm born.
  pose proof (proj1 (ParseDate_some _ D M Y) Hdate)
    as (Ys & Ms & Ds & Hs & _ & _ & _ & (HM & HD & HY)).
  assert (Hya : (0 <= value ya)%Z).
  { destruct Hage as (? & ? & ? & _ & _ & _ & _ & _ & _ & _ & _).
    apply (digits_value_ge 0 ya). lia. }
  assert (Hma : (0 <= value ma)%Z) by (apply (digits_value_ge 0 ma); lia).
  unfold CDog_ComputeBirthday.
  assert (E1 : CRT.empty (m_sDateAcquired d) = false).
  { apply empty_false. intros E. rewrite E in Hs.
    destruct Hs as (Hs & [HYl _] & _). destruct Ys; discriminate. }
  assert (E2 : CRT.empty (m_sAge d) = false).
  { apply empty_false. intros E. rewrite E in Hage.
    destruct Hage as (? & ? & ? & Hs' & _ & _ & _ & Hne & _).
    destruct ya; [congruence | discriminate]. }
  rewrite E1, E2. cbn [orb].
  destruct (regex_search (CDog_tolower (m_sAge d)) reAge) as [c|] eqn:E.
  2:{ apply reAge_finds in Hage. rewrite E in Hage. discriminate. }
  apply reAge_found in E as (ya' & ma' & Hage' & ->).
  destruct (age_shape_unique _ _ _ _ _ Hage Hage') as [<- <-].
  cbn [str Nat.eqb].
  destruct Hage as (sp1 & sp2 & sp3 & _ & _ & _ & _ & Hyne & Hyd & Hmne & Hmd).
  rewrite (stoi_numeral ya (value ya)), (stoi_numeral ma (value ma));
    try (repeat split; assumption); try (unfold CRT.INT_MAX; lia).
  cbn [or_throw mbind outcome_bind].
  rewrite !to_uint32_small by lia.
  replace ((12 <? value ma) || (20 <? value ya))%Z with false by (symmetry; lia).
  unfold CDog_GetDateAcquired, GetDateAcquired. rewrite Hdate.
  cbn [mbind outcome_bind].
  rewrite !(to_int32_small (Y - value ya)), !(to_int32_small (M - value ma))
    by lia.
  destruct (Z.ltb_spec (M - value ma) 1) as [Hlt|Hge].
  - rewrite !to_int32_small by lia. rewrite !to_uint32_small by lia.
    assert (Em : (born mod 12 = M - value ma + 12 - 1)%Z)
      by (symmetry; apply (Z.mod_unique born 12 (Y - value ya - 1));
          unfold born; lia).
    assert (Ed : (born / 12 = Y - value ya - 1)%Z)
      by (symmetry; apply (Z.div_unique born 12 _ (M - value ma + 12 - 1));
          unfold born; lia).
    rewrite Em, Ed. do 3 f_equal. lia.
  - rewrite !to_uint32_small by lia.
    assert (Em : (born mod 12 = M - value ma - 1)%Z)
      by (symmetry; apply (Z.mod_unique born 12 (Y - value ya));
          unfold born; lia).
    assert (Ed : (born / 12 = Y - value ya)%Z)
      by (symmetry; apply (Z.div_unique born 12 _ (M - value ma - 1));
          unfold born; lia).
    rewrite Em, Ed. do 3 f_equal. lia.
Qed.

Lemma ComputeBirthday_months_witness :
  CDog_ComputeBirthday sample_puppy
  = Returns (true,
             CDog_FormatDate 15
               ((12 * 2020 + (5 - 1) - (12 * value "3" + value "2")) mod 12 + 1)
               ((12 * 2020 + (5 - 1) - (12 * value "3" + value "2")) / 12)).
Proof.
  apply (ComputeBirthday_months sample_puppy "3" "2" 15 5 2020).
  - exists " "%char, " "%char, " "%char.
    repeat split; try reflexivity; discriminate.
  - reflexivity.
  - vm_compute. discriminate.
  - vm_compute. discriminate.
Defined.

(** X13: [ComputeBirthday] does not return exactly when the age names more years
    or more months than an [int] holds: [std::stoi] throws. *)
Theorem ComputeBirthday_throws (d : CDog) (what : string) :
  CDog_ComputeBirthday d = Throws what <->
  what = "std::stoi" /\ m_sDateAcquired d <> "" /\
  exists ya ma, age_shape (CDog_tolower (m_sAge d)) ya ma /\
                (CRT.INT_MAX < value ya \/ CRT.INT_MAX < value ma)%Z.
Proof.
  unfold CDog_ComputeBirthday.
  destruct (CRT.empty (m_sDateAcquired d)) eqn:E1.
  { cbn [orb]. split; [discriminate|]. intros (_ & H & _).
    apply empty_true in E1. contradiction. }
  apply empty_false in E1.
  destruct (CRT.empty (m_sAge d)) eqn:E2.
  { cbn [orb]. split; [discriminate|]. intros (_ & _ & ya & ma & Hs & _).
    apply empty_true in E2. rewrite E2 in Hs.
    destruct Hs as (? & ? & ? & Hs & _ & _ & _ & Hne & _).
    destruct ya; [congruence | discriminate]. }
  cbn [orb].
  destruct (regex_search (CDog_tolower (m_sAge d)) reAge) as [c|] eqn:E.
  2:{ split; [discriminate|]. intros (_ & _ & ya & ma & Hs & _).
      apply reAge_finds in Hs. rewrite E in Hs. discriminate. }
  apply reAge_found in E as (ya & ma & Hage & ->). cbn [str Nat.eqb].
  pose proof Hage as (sp1 & sp2 & sp3 & _ & _ & _ & _ & Hyne & Hyd & Hmne & Hmd).
  rewrite (Intake.stoi_numeral_cases ya (value ya)), (Intake.stoi_numeral_cases ma (value ma))
    by (repeat split; assumption).
  assert (Hsame : forall ya' ma', age_shape (CDog_tolower (m_sAge d)) ya' ma' ->
                                  value ya' = value ya /\ value ma' = value ma).
  { intros ya' ma' H'. destruct (age_shape_unique _ _ _ _ _ Hage H') as [<- <-].
    now split. }
  destruct (Z.leb_spec (value ya) CRT.INT_MAX) as [Hy|Hy];
    cbn [or_throw mbind outcome_bind].
  2:{ split; [intros [= <-]|reflexivity || (intros (-> & _); reflexivity)].
      repeat split; [exact E1|]. exists ya, ma. split; [exact Hage | now left]. }
  destruct (Z.leb_spec (value ma) CRT.INT_MAX) as [Hm|Hm];
    cbn [or_throw mbind outcome_bind].
  2:{ split; [intros [= <-]|intros (-> & _); reflexivity].
      repeat split; [exact E1|]. exists ya, ma. split; [exact Hage | now right]. }
  assert (Hno : ~ (what = "std::stoi" /\ m_sDateAcquired d <> "" /\
                   exists ya' ma', age_shape (CDog_tolower (m_sAge d)) ya' ma' /\
                     (CRT.INT_MAX < value ya' \/ CRT.INT_MAX < value ma')%Z)).
  { intros (_ & _ & ya' & ma' & H' & Hbig).
    destruct (Hsame _ _ H') as [Ey Em]. lia. }
  match goal with
  | |- context [if ?b then _ else _] => destruct b
  end; [split; [discriminate | intros H; now elim Hno]|].
  unfold CDog_GetDateAcquired.
  destruct (ParseDate_returns (GetDateAcquired d)) as [r ->].
  cbn [mbind outcome_bind].
  destruct r as [[[? ?] ?]|]; [|split; [discriminate | intros H; now elim Hno]].
  match goal with
  | |- context [if ?b then _ else _] => destruct b
  end; (split; [discriminate | intros H; now elim Hno]).
Qed.

End Dates.

(** ** Printing a number that was read (Dog.cpp, [FormatDate]) *)

Module Printing.
Import Pieces Layout Dates.

(** The decimal numeral of the library for a string of digits. *)
Fixpoint uint_of (w : string) : Decimal.uint :=
  match w with
  | EmptyString => Decimal.Nil
  | String a w' =>
      match a with
      | "0"%char => Decimal.D0 (uint_of w')
      | "1"%char => Decimal.D1 (uint_of w')
      | "2"%char => Decimal.D2 (uint_of w')
      | "3"%char => Decimal.D3 (uint_of w')
      | "4"%char => Decimal.D4 (uint_of w')
      | "5"%char => Decimal.D5 (uint_of w')
      | "6"%char => Decimal.D6 (uint_of w')
      | "7"%char => Decimal.D7 (uint_of w')
      | "8"%char => Decimal.D8 (uint_of w')
      | _ => Decimal.D9 (uint_of w')
      end
  end.

Ltac each_digit a Ha :=
  destruct a as [[] [] [] [] [] [] [] []]; try discriminate Ha.

Ltac digit_value_now :=
  match goal with
  | |- context [CRT.digit_value ?a] =>
      let v := eval vm_compute in (CRT.digit_value a) in
      change (CRT.digit_value a) with v
  end.

Lemma string_of_uint_of w :
  CRT.all_chars CRT.isdigit w = true -> NilEmpty.string_of_uint (uint_of w) = w.
Proof.
  induction w as [|a w IH]; [reflexivity|]. cbn [CRT.all_chars].
  intros H. apply andb_true_iff in H as [Ha H]. specialize (IH H).
  each_digit a Ha; cbn [uint_of NilEmpty.string_of_uint]; now rewrite IH.
Qed.

Lemma of_uint_acc_value w : forall acc,
  CRT.all_chars CRT.isdigit w = true ->
  Z.pos (Pos.of_uint_acc (uint_of w) acc) = CRT.digits_value (Z.pos acc) w.
Proof.
  induction w as [|a w IH]; intros acc; [reflexivity|]. cbn [CRT.all_chars].
  intros H. apply andb_true_iff in H as [Ha H].
  cbn [CRT.digits_value]. rewrite Ha.
  each_digit a Ha; digit_value_now; cbn [uint_of Pos.of_uint_acc];
    rewrite (IH _ H); f_equal; lia.
Qed.

Lemma of_uint_value w :
  CRT.all_chars CRT.isdigit w = true ->
  Z.of_N (N.of_uint (uint_of w)) = value w.
Proof.
  unfold value, N.of_uint. induction w as [|a w IH]; [reflexivity|].
  cbn [CRT.all_chars]. intros H. apply andb_true_iff in H as [Ha H].
  cbn [CRT.digits_value]. rewrite Ha.
  each_digit a Ha; digit_value_now; cbn [uint_of Pos.of_uint];
    try (now apply IH); cbn [Z.of_N]; rewrite (of_uint_acc_value _ _ H);
    reflexivity.
Qed.

Lemma to_string_value w :
  CRT.all_chars CRT.isdigit w = true ->
  CRT.to_string (Z.to_N (value w))
  = NilEmpty.string_of_uint (Decimal.unorm (uint_of w)).
Proof.
  intros H. unfold CRT.to_string. rewrite <- (of_uint_value w H), N2Z.id.
  now rewrite DecimalN.Unsigned.to_of.
Qed.

Lemma zeros_snoc k : CRT.zeros k +:+ "0" = CRT.zeros (S k).
Proof. induction k as [|k IH]; [reflexivity|]. cbn [CRT.zeros]. now rewrite append_cons, IH. Qed.

Lemma length_zeros k : String.length (CRT.zeros k) = k.
Proof. induction k as [|k IH]; [reflexivity|]. cbn. now rewrite IH. Qed.

Lemma nzhead_zeros w :
  CRT.all_chars CRT.isdigit w = true ->
  exists k, w = CRT.zeros k +:+ NilEmpty.string_of_uint (Decimal.nzhead (uint_of w)).
Proof.
  induction w as [|a w IH]; [now exists 0|]. cbn [CRT.all_chars].
  intros H. apply andb_true_iff in H as [Ha H].
  pose proof (string_of_uint_of w H) as Hw.
  each_digit a Ha; cbn [uint_of Decimal.nzhead];
    try (exists 0; cbn [CRT.zeros NilEmpty.string_of_uint];
         now rewrite append_nil_l, Hw).
  destruct (IH H) as [k Hk]. exists (S k). cbn [CRT.zeros].
  now rewrite append_cons, <- Hk.
Qed.

(** A non-negative number printed with [%0<n>d] is the numeral of [n]
    digits it was read from. *)
Lemma printf_value n w : decimal n w -> 0 < n -> CRT.printf_0d n (value w) = w.
Proof.
  intros [Hlen Hall] Hn. unfold CRT.printf_0d.
  pose proof (digits_value_ge 0 w ltac:(lia)) as Hge. fold (value w) in Hge.
  replace (value w <? 0)%Z with false by (symmetry; apply Z.ltb_ge; lia).
  rewrite Z.abs_eq by exact Hge. rewrite append_nil_l. cbn [String.length].
  rewrite Nat.sub_0_r, (to_string_value w Hall).
  destruct (nzhead_zeros w Hall) as [k Hk]. unfold Decimal.unorm.
  assert (Hl : String.length w
               = k + String.length (NilEmpty.string_of_uint
                                      (Decimal.nzhead (uint_of w)))).
  { rewrite Hk at 1. now rewrite length_append, length_zeros. }
  destruct (Decimal.nzhead (uint_of w)) eqn:E;
    try (rewrite <- Hlen, Hl, Nat.add_sub; now rewrite <- Hk).
  cbn [NilEmpty.string_of_uint] in *. rewrite append_nil_r in Hk.
  cbn [String.length] in *. rewrite <- Hlen, Hl, Nat.add_0_r.
  destruct k as [|k]; [lia|]. cbn [Nat.sub]. rewrite Nat.sub_0_r.
  now rewrite zeros_snoc, <- Hk.
Qed.

(** X14: the date [FormatDate] writes for a date [ParseDate] read has the digits
    of the original, month first: YYYY-MM-DD becomes MM/DD/YYYY. *)
Theorem FormatDate_of_ParseDate (sDate Y M D : string) (d m y : Z) :
  date_shape sDate Y M D ->
  CDog_ParseDate sDate = Returns (Some (d, m, y)) ->
  CDog_FormatDate d m y = M +:+ "/" +:+ D +:+ "/" +:+ Y.
Proof.
  intros Hs H.
  apply (ParseDate_some sDate d m y) in H
    as (Y' & M' & D' & Hs' & -> & -> & -> & _).
  destruct (date_shape_unique _ _ _ _ _ _ _ Hs Hs') as (<- & <- & <-).
  destruct Hs as (_ & HY & HM & HD).
  pose proof (value_bound _ _ HY). pose proof (value_bound _ _ HM).
  pose proof (value_bound _ _ HD).
  unfold CDog_FormatDate.
  rewrite !to_int32_small by (simpl in *; lia).
  now rewrite (printf_value 2 M HM), (printf_value 2 D HD), (printf_value 4 Y HY)
    by lia.
Qed.

Lemma FormatDate_of_ParseDate_witness :
  CDog_FormatDate 15 5 2020 = "05" +:+ "/" +:+ "15" +:+ "/" +:+ "2020".
Proof.
  apply (FormatDate_of_ParseDate "2020-05-15" "2020" "05" "15" 15 5 2020).
  - repeat split; reflexivity.
  - reflexivity.
Defined.

End Printing.

(** ** The adopter's address data (Dog.cpp) *)

Module Contact.
Import RegexFacts Pieces.

(** A zip code: five digits, or five digits, a hyphen and four digits. *)
Definition zip_shape (s : string) : Prop :=
  decimal 5 s \/ exists a b, s = a +:+ "-" +:+ b /\ decimal 5 a /\ decimal 4 b.

Lemma reZip_matches n0 s c s1 c1 :
  matches n0 reZip s c s1 c1 ->
  String.length s = n0 /\ s1 = "" /\ zip_shape s.
Proof.
  unfold reZip, Seqs, digit. cbn [fold_right]. intros H.
  first_piece H M0. apply matches_Bol in M0 as (Hlen & -> & ->).
  first_piece H M0. apply matches_Repeat_Class in M0 as [-> (a & -> & Ha)].
  first_piece H M0. apply matches_end in H as (-> & -> & ->).
  repeat split; [exact Hlen|].
  apply matches_Opt in M0 as [M0 | [E _]].
  - apply matches_Group in M0 as (c' & M0 & _).
    first_piece M0 M1. apply matches_Chr in M1 as (-> & ->).
    first_piece M0 M1. apply matches_Repeat_Class in M1 as [-> (b & -> & Hb)].
    apply matches_Empty in M0 as [E _]. subst.
    right. exists a, b. rewrite append_nil_r. now repeat split.
  - left. subst. now rewrite append_nil_r.
Qed.

Lemma reZip_matches_shape s :
  zip_shape s -> exists c, matches (String.length s) reZip s [] "" c.
Proof.
  unfold reZip, Seqs, digit. cbn [fold_right].
  intros [Hs | (a & b & -> & Ha & Hb)].
  - eexists. next_piece; [now apply matches_Bol|].
    next_piece; [apply matches_Repeat_Class; split; [reflexivity|];
                 exists s; split; [symmetry; apply append_nil_r | exact Hs]|].
    next_piece; [apply m_Opt_none|]. now apply matches_end.
  - eexists. next_piece; [now apply matches_Bol|].
    next_piece; [apply matches_Repeat_Class; split; [reflexivity|];
                 exists a; split; [reflexivity | exact Ha]|].
    next_piece; [apply m_Opt_some, m_Group|].
    + next_piece; [apply m_Chr|].
      next_piece; [apply matches_Repeat_Class; split; [reflexivity|];
                   exists b; split; [symmetry; apply append_nil_r | exact Hb]|].
      apply m_Empty.
    + now apply matches_end.
Qed.

Lemma reZip_spec s : matched (regex_match s reZip) = true <-> zip_shape s.
Proof.
  split.
  - destruct (regex_match s reZip) eqn:E; [intros _ | discriminate].
    apply regex_match_sound, reZip_matches in E. tauto.
  - intros H. destruct (reZip_matches_shape s H) as [c Hc].
    now apply (regex_match_complete _ _ c).
Qed.

(** X15: [VerifyZip] accepts exactly the two forms and leaves an accepted zip
    code as it is; a refused one is reported and comes back empty. *)
Theorem VerifyZip_accepts (this : CDog) (sZip : string) (log : Log) :
  let result := CDog_VerifyZip this sZip log in
  (result.1.1 = true <-> zip_shape sZip) /\
  (result.1.1 = true -> result = (true, sZip, log)) /\
  (result.1.1 = false ->
   result.1.2 = "" /\ exists msg, result.2 = BADDOGS this msg log).
Proof.
  cbv zeta. unfold CDog_VerifyZip.
  destruct sZip as [|a s]; cbn [CRT.empty fst snd].
  - split; [|split; [discriminate | eauto]].
    split; [discriminate|]. intros [[H _] | (a & b & H & _)]; [discriminate|].
    destruct a; discriminate.
  - destruct (matched (regex_match (String a s) reZip)) eqn:E; cbn [fst snd].
    + apply reZip_spec in E. repeat split; try tauto; discriminate.
    + split; [|split; [discriminate | eauto]].
      split; [discriminate|]. intros H. apply reZip_spec in H. congruence.
Qed.

(** The characters of an address before and after the at sign. *)
Definition local_char (a : ascii) : bool := CRT.isalnum a || one_of "_%+-." a.
Definition domain_char (a : ascii) : bool := CRT.isalnum a || one_of ".-" a.

(** An address: a name, an at sign, a domain, a full stop and at least two
    letters. *)
Definition email_shape (s : string) : Prop :=
  exists name domain tld,
    s = name +:+ "@" +:+ domain +:+ "." +:+ tld /\
    name <> "" /\ CRT.all_chars local_char name = true /\
    domain <> "" /\ CRT.all_chars domain_char domain = true /\
    2 <= String.length tld /\ CRT.all_chars CRT.isalpha tld = true.

Lemma reeMail_matches n0 s c s1 c1 :
  matches n0 reeMail s c s1 c1 ->
  String.length s = n0 /\ s1 = "" /\ email_shape s.
Proof.
  unfold reeMail, Seqs, AtLeast. cbn [fold_right]. intros H.
  first_piece H M0. apply matches_Bol in M0 as (Hlen & -> & ->).
  first_piece H M0. apply matches_Plus_Class in M0 as [-> (name & -> & Hn & Hnc)].
  first_piece H M0. apply matches_Chr in M0 as (-> & ->).
  first_piece H M0. apply matches_Plus_Class in M0 as [-> (dom & -> & Hd & Hdc)].
  first_piece H M0. apply matches_Chr in M0 as (-> & ->).
  first_piece H M0. first_piece M0 M1.
  apply matches_Repeat_Class in M1 as [-> (w1 & -> & Hw1 & Hw1c)].
  apply matches_Star_Class in M0 as [-> (w2 & -> & Hw2c)].
  apply matches_end in H as (-> & -> & ->).
  repeat split; [exact Hlen|].
  exists name, dom, (w1 +:+ w2). rewrite append_nil_r.
  repeat split; try assumption.
  - rewrite length_append. lia.
  - now rewrite all_chars_append, Hw1c, Hw2c.
Qed.

Lemma split_two tld :
  2 <= String.length tld ->
  exists w1 w2, tld = w1 +:+ w2 /\ String.length w1 = 2.
Proof.
  destruct tld as [|a [|b w]]; cbn [String.length]; try lia. intros _.
  now exists (String a (String b "")), w.
Qed.

Lemma reeMail_matches_shape s :
  email_shape s -> exists c, matches (String.length s) reeMail s [] "" c.
Proof.
  unfold reeMail, Seqs, AtLeast. cbn [fold_right].
  intros (name & dom & tld & -> & Hn & Hnc & Hd & Hdc & Hl & Hlc).
  destruct (split_two tld Hl) as (w1 & w2 & -> & Hw1).
  rewrite all_chars_append in Hlc. apply andb_true_iff in Hlc as [Hc1 Hc2].
  eexists. next_piece; [now apply matches_Bol|].
  next_piece; [apply matches_Plus_Class; split; [reflexivity|];
               exists name; repeat split; assumption|].
  next_piece; [apply m_Chr|].
  next_piece; [apply matches_Plus_Class; split; [reflexivity|];
               exists dom; repeat split; assumption|].
  next_piece; [apply m_Chr|].
  next_piece.
  - next_piece; [apply matches_Repeat_Class; split; [reflexivity|];
                 exists w1; split; [reflexivity | split; assumption]|].
    apply matches_Star_Class. split; [reflexivity|].
    exists w2. split; [symmetry; apply append_nil_r | exact Hc2].
  - now apply matches_end.
Qed.

Lemma reeMail_spec s : matched (regex_match s reeMail) = true <-> email_shape s.
Proof.
  split.
  - destruct (regex_match s reeMail) eqn:E; [intros _ | discriminate].
    apply regex_match_sound, reeMail_matches in E. tauto.
  - intros H. destruct (reeMail_matches_shape s H) as [c Hc].
    now apply (regex_match_complete _ _ c).
Qed.

(** X16: [VerifyeMail] accepts exactly the addresses of that form and leaves an
    accepted address as it is; a refused one is reported and comes back
    empty. *)
Theorem VerifyeMail_accepts (this : CDog) (seMail : string) (log : Log) :
  let result := CDog_VerifyeMail this seMail log in
  (result.1.1 = true <-> email_shape seMail) /\
  (result.1.1 = true -> result = (true, seMail, log)) /\
  (result.1.1 = false ->
   result.1.2 = "" /\ exists msg, result.2 = BADDOGS this msg log).
Proof.
  cbv zeta. unfold CDog_VerifyeMail.
  destruct seMail as [|a s]; cbn [CRT.empty fst snd].
  - split; [|split; [discriminate | eauto]].
    split; [discriminate|]. intros (n & ? & ? & H & Hn & _).
    destruct n; [congruence | discriminate].
  - destruct (matched (regex_match (String a s) reeMail)) eqn:E; cbn [fst snd].
    + apply reeMail_spec in E. repeat split; try tauto; discriminate.
    + split; [|split; [discriminate | eauto]].
      split; [discriminate|]. intros H. apply reeMail_spec in H. congruence.
Qed.

(** *** What [VerifyAll] leaves in the record *)









Ltac name_call f E :=
  match goal with
  | H : context [f ?a ?b] |- _ =>
      let r := fresh "r" in
      destruct (f a b) as [[? ?] ?] eqn:E
  | H : context [f ?a ?b ?c] |- _ =>
      destruct (f a b c) as [[? ?] ?] eqn:E
  end.


(** The record with the eight fields that [VerifyAll] may rewrite left
    out. *)
Definition other_fields (d : CDog) : CDog :=
  set_m_sSex "" (set_m_sNeuter "" (set_m_sAdoptioneMail ""
    (set_m_sAdoptionHomePhone "" (set_m_sAdoptionWorkPhone ""
      (set_m_sAdoptionCellPhone "" (set_m_sAdoptionZip ""
        (set_m_sAdoptionState "" d))))))).

Lemma VerifySex_other this log :
  other_fields (CDog_VerifySex this log).1.2 = other_fields this.
Proof. unfold CDog_VerifySex. now destruct (_ || _). Qed.

Lemma VerifySpayNeuter_other this log :
  other_fields (CDog_VerifySpayNeuter this log).1.2 = other_fields this.
Proof. unfold CDog_VerifySpayNeuter. now destruct (_ || _). Qed.

Lemma VerifyAll_other (this this' : CDog) (log log' : Log) (fOK : bool) :
  CDog_VerifyAll this log = Returns (fOK, this', log') ->
  other_fields this' = other_fields this.
Proof.
  unfold CDog_VerifyAll. intros H.
  pose proof (VerifySex_other this log) as H1.
  destruct (CDog_VerifySex this log) as [[f1 d1] l1]. cbn [fst snd] in H1.
  pose proof (VerifySpayNeuter_other d1 l1) as H2.
  destruct (CDog_VerifySpayNeuter d1 l1) as [[f2 d2] l2]. cbn [fst snd] in H2.
  destruct (CDog_ComputeBirthday d2) as [[f3 sDOB]| | |];
    cbn [mbind outcome_bind] in H; try discriminate.
  destruct (if negb f3 then _ else _) as [fOK3 l3] in H.
  rewrite <- H1, <- H2.
  destruct (negb (CRT.empty (m_sAdoptionFName d2))
            || negb (CRT.empty (m_sAdoptionLName d2))).
  - unfold CDog_VerifyAdoptioneMail, CDog_VerifyHomePhone, CDog_VerifyCellPhone,
      CDog_VerifyWorkPhone, CDog_VerifyAdoptionZip, CDog_VerifyAdoptionState in H.
    repeat match type of H with
    | context [CDog_VerifyeMail ?a ?b ?c] =>
        destruct (CDog_VerifyeMail a b c) as [[? ?] ?]
    | context [CDog_VerifyPhone ?a ?b ?c ?d ?e] =>
        destruct (CDog_VerifyPhone a b c d e) as [[? ?] ?]
    | context [CDog_VerifyZip ?a ?b ?c] =>
        destruct (CDog_VerifyZip a b c) as [[? ?] ?]
    | context [CDog_VerifyState ?a ?b ?c] =>
        destruct (CDog_VerifyState a b c) as [[? ?] ?]
    end.
    injection H as _ <- _. reflexivity.
  - now injection H as _ <- _.
Qed.

(** A log that holds what another one holds, and maybe more after it. *)
Definition extends (log log' : Log) : Prop :=
  exists lines rows,
    console log' = console log ++ lines /\ bad_dogs log' = bad_dogs log ++ rows.

Lemma extends_refl log : extends log log.
Proof. exists [], []. now rewrite !app_nil_r. Qed.

Lemma extends_trans l1 l2 l3 : extends l1 l2 -> extends l2 l3 -> extends l1 l3.
Proof.
  intros (a & b & Ea & Eb) (a' & b' & Ea' & Eb').
  exists (a ++ a'), (b ++ b'). rewrite Ea', Eb', Ea, Eb. now rewrite !app_assoc.
Qed.

Lemma extends_BADDOGS d msg log : extends log (BADDOGS d msg log).
Proof. eexists [_], [_]. split; reflexivity. Qed.

Lemma extends_MSGS msg log : extends log (MSGS msg log).
Proof. exists [msg], []. split; [reflexivity | now rewrite app_nil_r]. Qed.

Create HintDb log.
#[local] Hint Resolve extends_refl extends_BADDOGS extends_MSGS : log.

Ltac log_cases :=
  repeat match goal with
  | |- context [if ?b then _ else _] => destruct b
  | |- context [match ?o with Some _ => _ | None => _ end] => destruct o
  end; cbn [snd]; auto with log.

Lemma VerifyPhone_extends this sWhich sPhone fQuiet log :
  extends log (CDog_VerifyPhone this sWhich sPhone fQuiet log).2.
Proof. unfold CDog_VerifyPhone. log_cases. Qed.

Lemma VerifyZip_extends this sZip log : extends log (CDog_VerifyZip this sZip log).2.
Proof. unfold CDog_VerifyZip. log_cases. Qed.

Lemma VerifyeMail_extends this s log : extends log (CDog_VerifyeMail this s log).2.
Proof. unfold CDog_VerifyeMail. log_cases. Qed.

Lemma VerifyState_extends this s log : extends log (CDog_VerifyState this s log).2.
Proof. unfold CDog_VerifyState. log_cases. Qed.

Lemma VerifySex_extends this log : extends log (CDog_VerifySex this log).2.
Proof. unfold CDog_VerifySex. log_cases. Qed.

Lemma VerifySpayNeuter_extends this log :
  extends log (CDog_VerifySpayNeuter this log).2.
Proof. unfold CDog_VerifySpayNeuter. log_cases. Qed.

Lemma VerifyAll_extends (this this' : CDog) (log log' : Log) (fOK : bool) :
  CDog_VerifyAll this log = Returns (fOK, this', log') -> extends log log'.
Proof.
  unfold CDog_VerifyAll. intros H.
  pose proof (VerifySex_extends this log) as H1.
  destruct (CDog_VerifySex this log) as [[f1 d1] l1]. cbn [fst snd] in H1.
  pose proof (VerifySpayNeuter_extends d1 l1) as H2.
  destruct (CDog_VerifySpayNeuter d1 l1) as [[f2 d2] l2]. cbn [fst snd] in H2.
  pose proof (extends_trans _ _ _ H1 H2) as H12. clear H1 H2.
  destruct (CDog_ComputeBirthday d2) as [[f3 sDOB]| | |];
    cbn [mbind outcome_bind] in H; try discriminate.
  assert (H3 : extends log (if negb f3 then (false, BADDOGS d2 "has no valid DOB" l2)
                            else (true && f1 && f2, l2)).2).
  { destruct f3; cbn [negb snd]; [exact H12|].
    eapply extends_trans; [exact H12 | auto with log]. }
  destruct (if negb f3 then _ else _) as [fOK3 l3]. cbn [snd] in H3. clear H12.
  destruct (negb (CRT.empty (m_sAdoptionFName d2))
            || negb (CRT.empty (m_sAdoptionLName d2))).
  - unfold CDog_VerifyAdoptioneMail, CDog_VerifyHomePhone, CDog_VerifyCellPhone,
      CDog_VerifyWorkPhone, CDog_VerifyAdoptionZip, CDog_VerifyAdoptionState in H.
    repeat match type of H with
    | context [CDog_VerifyeMail ?a ?b ?c] =>
        let P := fresh "P" in
        pose proof (extends_trans _ _ _ H3 (VerifyeMail_extends a b c)) as P;
        clear H3; rename P into H3;
        destruct (CDog_VerifyeMail a b c) as [[? ?] ?]; cbn [fst snd] in H3
    | context [CDog_VerifyPhone ?a ?b ?c ?d ?e] =>
        let P := fresh "P" in
        pose proof (extends_trans _ _ _ H3 (VerifyPhone_extends a b c d e)) as P;
        clear H3; rename P into H3;
        destruct (CDog_VerifyPhone a b c d e) as [[? ?] ?]; cbn [fst snd] in H3
    | context [CDog_VerifyZip ?a ?b ?c] =>
        let P := fresh "P" in
        pose proof (extends_trans _ _ _ H3 (VerifyZip_extends a b c)) as P;
        clear H3; rename P into H3;
        destruct (CDog_VerifyZip a b c) as [[? ?] ?]; cbn [fst snd] in H3
    | context [CDog_VerifyState ?a ?b ?c] =>
        let P := fresh "P" in
        pose proof (extends_trans _ _ _ H3 (VerifyState_extends a b c)) as P;
        clear H3; rename P into H3;
        destruct (CDog_VerifyState a b c) as [[? ?] ?]; cbn [fst snd] in H3
    end.
    now injection H as _ _ <-.
  - injection H as _ _ <-.
    destruct (negb _); [|exact H3].
    eapply extends_trans; [exact H3 | auto with log].
Qed.

(** X18: [VerifyAll] rewrites nothing but the sex, the spay/neuter state and
    the adopter's electronic address, telephone numbers, zip code and
    state; and it takes nothing back of what was reported before. *)
Theorem VerifyAll_frame (this this' : CDog) (log log' : Log) (fOK : bool) :
  CDog_VerifyAll this log = Returns (fOK, this', log') ->
  other_fields this' = other_fields this /\ extends log log'.
Proof.
  intros H. split; [now apply (VerifyAll_other _ _ _ _ _ H)|].
  now apply (VerifyAll_extends _ _ _ _ _ H).
Qed.

Definition sample_verified : bool * CDog * Log :=
  match CDog_VerifyAll sample_new_200 no_messages with
  | Returns r => r
  | _ => (false, sample_new_200, no_messages)
  end.

Lemma VerifyAll_frame_witness :
  other_fields sample_verified.1.2 = other_fields sample_new_200 /\
  extends no_messages sample_verified.2.
Proof.
  apply (VerifyAll_frame sample_new_200 sample_verified.1.2 no_messages
           sample_verified.2 sample_verified.1.1).
  vm_compute. reflexivity.
Defined.


End Contact.

(** ** Microchip numbers in their final form (Chip.cpp) *)

Module Canonical.
Import RegexFacts Pieces Microchip.

(** The verdict on a microchip number and the number afterwards; neither
    the message switch nor the log has a part in them. *)
Definition verified (sChip : string) : bool * string :=
  (CChip_VerifyMicrochip sChip false no_messages).1.

Lemma verified_any sChip fMessage log :
  (CChip_VerifyMicrochip sChip fMessage log).1 = verified sChip.
Proof.
  unfold verified, CChip_VerifyMicrochip.
  repeat match goal with
  | |- context [if ?b then _ else _] => destruct b; try reflexivity
  | |- context [match ?o with Some _ => _ | None => _ end] =>
      destruct o; try reflexivity
  end.
Qed.

Lemma digit_xdigit a : CRT.isdigit a = true -> CRT.isxdigit a = true.
Proof. unfold CRT.isxdigit. now intros ->. Qed.

Lemma digits_xdigits w :
  CRT.all_chars CRT.isdigit w = true -> CRT.all_chars CRT.isxdigit w = true.
Proof.
  induction w as [|a w IH]; [reflexivity|]. cbn [CRT.all_chars].
  intros H. apply andb_true_iff in H as [Ha H].
  now rewrite (digit_xdigit a Ha), IH.
Qed.

(** The four forms, and what is left of a number of each. *)
Lemma verified_cases sChip :
  (is_ISO sChip /\ verified sChip = (true, sChip)) \/
  (is_Pumpkin sChip /\ verified sChip = (true, sChip)) \/
  (is_FDXA sChip /\ verified sChip = (true, sChip)) \/
  (exists g1 g2 g3, is_legacy sChip g1 g2 g3 /\
                    verified sChip = (true, g1 +:+ g2 +:+ g3)) \/
  verified sChip = (false, sChip).
Proof.
  unfold verified.
  destruct (regex_search sChip reOld) as [c|] eqn:HOld.
  { apply reOld_found in HOld as (g1 & g2 & g3 & Hleg & _).
    right. right. right. left. exists g1, g2, g3. split; [exact Hleg|].
    now rewrite (VerifyMicrochip_legacy _ _ _ _ false no_messages Hleg). }
  unfold CChip_VerifyMicrochip. rewrite HOld.
  destruct (CRT.empty sChip); [now repeat right|].
  destruct (matched (regex_match sChip reISO)) eqn:HISO.
  { left. split; [now apply reISO_spec | reflexivity]. }
  destruct (matched (regex_match sChip rePumpkin)) eqn:HP.
  { right. left. split; [now apply rePumpkin_spec | reflexivity]. }
  destruct (matched (regex_match sChip reFDXA)) eqn:HF.
  { right. right. left. split; [now apply reFDXA_spec | reflexivity]. }
  now repeat right.
Qed.

Lemma legacy_plain g1 g2 g3 :
  decimal 3 g1 -> decimal 3 g2 -> decimal 3 g3 ->
  is_legacy (g1 +:+ g2 +:+ g3) g1 g2 g3.
Proof.
  intros H1 H2 H3. exists "", "". rewrite !append_nil_l.
  repeat split; try apply H1; try apply H2; try apply H3; now left.
Qed.

(** X19: an accepted microchip number comes out as 9, 10 or 15 hexadecimal
    digits, and verifying it once more changes nothing. *)
Theorem VerifyMicrochip_canonical (sChip : string) (fMessage : bool) (log : Log) :
  let result := CChip_VerifyMicrochip sChip fMessage log in
  result.1.1 = true ->
  CRT.all_chars CRT.isxdigit result.1.2 = true /\
  In (String.length result.1.2) [9; 10; 15] /\
  forall fMessage' log',
    CChip_VerifyMicrochip result.1.2 fMessage' log' = (true, result.1.2, log').
Proof.
  cbv zeta. intros Hv.
  assert (Hagain : forall s, verified s = (true, s) ->
            forall f' log', CChip_VerifyMicrochip s f' log' = (true, s, log')).
  { intros s Hs f' log'. pose proof (verified_any s f' log') as E.
    rewrite Hs in E. unfold CChip_VerifyMicrochip in *.
    repeat match goal with
    | |- context [if ?b then _ else _] => destruct b; try discriminate E
    | |- context [match ?o with Some _ => _ | None => _ end] =>
        destruct o; try discriminate E
    end; cbn [fst] in E; try congruence.
    all: try (injection E as E; now rewrite E). }
  destruct (CChip_VerifyMicrochip sChip fMessage log) as [[v s'] l'] eqn:E.
  cbn [fst snd] in *. subst v.
  pose proof (verified_any sChip fMessage log) as Ev. rewrite E in Ev.
  cbn [fst] in Ev.
  destruct (verified_cases sChip)
    as [[H Hr] | [[H Hr] | [[H Hr] | [(g1 & g2 & g3 & H & Hr) | Hr]]]];
    rewrite Hr in Ev; try discriminate; injection Ev as ->.
  - destruct H as (d & -> & Hd1 & Hd2). split; [|split].
    + apply digits_xdigits. now rewrite all_chars_append, Hd2.
    + rewrite length_append, Hd1. cbn. auto.
    + now apply Hagain.
  - destruct H as (d & -> & Hd1 & Hd2). split; [|split].
    + apply digits_xdigits. now rewrite all_chars_append, Hd2.
    + rewrite length_append, Hd1. cbn. auto.
    + now apply Hagain.
  - destruct H as [H1 H2]. split; [exact H2|]. split; [rewrite H1; cbn; auto|].
    now apply Hagain.
  - destruct H as (x1 & x2 & _ & D1 & D2 & D3 & _). split; [|split].
    + apply digits_xdigits. rewrite !all_chars_append.
      now rewrite (proj2 D1), (proj2 D2), (proj2 D3).
    + rewrite !length_append, (proj1 D1), (proj1 D2), (proj1 D3). cbn. auto.
    + intros f' log'. apply VerifyMicrochip_legacy. now apply legacy_plain.
Qed.

Lemma VerifyMicrochip_canonical_witness :
  let result := CChip_VerifyMicrochip "123*456 789" true no_messages in
  CRT.all_chars CRT.isxdigit result.1.2 = true /\
  In (String.length result.1.2) [9; 10; 15] /\
  forall fMessage' log',
    CChip_VerifyMicrochip result.1.2 fMessage' log' = (true, result.1.2, log').
Proof.
  apply (VerifyMicrochip_canonical "123*456 789" true no_messages). reflexivity.
Defined.

End Canonical.

(** ** The update records that [BuildUpdates] makes (MicrochipUpdate.cpp) *)

Module Records.
Import Updates Assembly Canonical.

(** A dog that gets an update record: marked, with a microchip number that
    is accepted; [wanted] is that number in its final form. *)
Definition wanted (h : heap) (p : ptr) (c : string) : Prop :=
  IsUpdateRequired (h p) = true /\ verified (GetChip (h p)) = (true, c).

(** The eight fields aside, the records are those of [h0]. *)
Definition same_other (h h0 : heap) : Prop :=
  forall q, Contact.other_fields (h q) = Contact.other_fields (h0 q).

Lemma other_kept d d' :
  Contact.other_fields d = Contact.other_fields d' -> kept d = kept d'.
Proof.
  intros H. unfold kept.
  apply (f_equal (fun x => (m_nNumber x, m_sMicrochip x, m_sAge x,
                            m_sDateAcquired x, m_fUpdateRequired x))) in H.
  exact H.
Qed.

Lemma verified_empty : verified "" = (false, "").
Proof. reflexivity. Qed.

(** One turn of the loop, when it returns. *)
Lemma body_records h0 it w Chips w' Chips' :
  same_other (objects w) h0 ->
  BuildUpdates_body it (w, Chips) = Returns (w', Chips') ->
  same_other (objects w') h0 /\
  (forall q, IsUpdateRequired (h0 q) = false -> objects w' q = objects w q) /\
  (forall c chip, Chips !! c = Some chip -> Chips' !! c = Some chip) /\
  (forall c chip, Chips' !! c = Some chip ->
     Chips !! c = Some chip \/
     (wanted h0 it.2 c /\ chip = {| CChip_m_sMicrochip := c; m_pDog := it.2 |})) /\
  (forall c, wanted h0 it.2 c -> is_Some (Chips' !! c)).
Proof.
  intros Hsame. unfold BuildUpdates_body, wanted.
  pose proof (other_kept _ _ (Hsame it.2)) as Hit.
  rewrite (kept_flag _ _ Hit), (kept_chip _ _ Hit).
  destruct (IsUpdateRequired (h0 it.2)) eqn:Hflag; cbn [negb].
  2:{ intros [= <- <-]. repeat split; auto; intros c [? _]; discriminate. }
  destruct (CRT.empty (GetChip (h0 it.2))) eqn:Hempty.
  { intros [= <- <-]. cbn [objects complain].
    apply empty_true in Hempty. rewrite Hempty, verified_empty.
    repeat split; auto; intros c [_ ?]; discriminate. }
  destruct (CDog_VerifyAll (objects w it.2) (messages w))
    as [[[f Dog] log] | | what |] eqn:HV; cbn [mbind outcome_bind];
    try discriminate.
  pose proof (Contact.VerifyAll_other _ _ _ _ _ HV) as Hother.
  assert (Hsame' : same_other (store (objects w) it.2 Dog) h0).
  { intros q. unfold store. destruct (Pos.eqb_spec q it.2) as [->|]; [|apply Hsame].
    rewrite Hother. apply Hsame. }
  assert (Hframe : forall q, IsUpdateRequired (h0 q) = false ->
                             store (objects w) it.2 Dog q = objects w q).
  { intros q Hq. unfold store. destruct (Pos.eqb_spec q it.2) as [->|]; [|reflexivity].
    congruence. }
  unfold CChip_FromDog.
  assert (Hchip : GetChip (store (objects w) it.2 Dog it.2) = GetChip (h0 it.2))
    by (apply kept_chip, other_kept, Hsame').
  rewrite Hchip.
  pose proof (verified_any (GetChip (h0 it.2)) false log) as Hver.
  destruct (CChip_VerifyMicrochip (GetChip (h0 it.2)) false log)
    as [[fChip sMicrochip] log'].
  cbn [fst] in Hver.
  destruct fChip; cbn [negb].
  - unfold CChips_Add, CChips_Find, unordered_map_insert.
    cbn [CChip_m_sMicrochip m_pDog].
    destruct (Chips !! sMicrochip) as [other|] eqn:E.
    + intros [= <- <-]. cbn [objects]. repeat split; auto.
      intros c [_ Hc]. rewrite <- Hver in Hc. injection Hc as <-. now exists other.
    + intros [= <- <-]. cbn [objects].
      split; [exact Hsame'|]. split; [exact Hframe|]. split; [|split].
      * intros c chip Hc. rewrite lookup_insert_ne; [exact Hc|]. congruence.
      * intros c chip [[<- <-] | [_ Hl]]%lookup_insert_Some; [right | now left].
        split; [|reflexivity]. split; [reflexivity | now symmetry].
      * intros c [_ Hc]. rewrite <- Hver in Hc. injection Hc as <-.
        rewrite lookup_insert_eq. eauto.
  - intros [= <- <-]. cbn [objects]. repeat split; auto.
    intros c [_ Hc]. rewrite <- Hver in Hc. discriminate.
Qed.

Lemma loop_records h0 range : forall w Chips w' Chips',
  same_other (objects w) h0 ->
  BuildUpdates_loop range (w, Chips) = Returns (w', Chips') ->
  same_other (objects w') h0 /\
  (forall q, IsUpdateRequired (h0 q) = false -> objects w' q = objects w q) /\
  (forall c chip, Chips !! c = Some chip -> Chips' !! c = Some chip) /\
  (forall c chip, Chips' !! c = Some chip ->
     Chips !! c = Some chip \/
     exists it, In it range /\ wanted h0 it.2 c /\
                chip = {| CChip_m_sMicrochip := c; m_pDog := it.2 |}) /\
  (forall it c, In it range -> wanted h0 it.2 c -> is_Some (Chips' !! c)).
Proof.
  induction range as [|it range IH]; intros w Chips w' Chips' Hsame Hrun.
  - injection Hrun as <- <-. repeat split; auto. intros ? ? [].
  - cbn [BuildUpdates_loop] in Hrun.
    destruct (BuildUpdates_body it (w, Chips)) as [[w1 Chips1]| | |] eqn:Hbody;
      cbn [mbind outcome_bind] in Hrun; try discriminate.
    destruct (body_records h0 it w Chips w1 Chips1 Hsame Hbody)
      as (Hsame1 & Hframe1 & Hmono1 & Hsound1 & Hcomplete1).
    destruct (IH w1 Chips1 w' Chips' Hsame1 Hrun)
      as (Hsame' & Hframe' & Hmono' & Hsound' & Hcomplete').
    split; [exact Hsame'|]. split; [|split; [|split]].
    + intros q Hq. now rewrite (Hframe' q Hq), (Hframe1 q Hq).
    + auto.
    + intros c chip Hc.
      destruct (Hsound' c chip Hc) as [H1 | (it' & Hin & Hw & ->)].
      * destruct (Hsound1 c chip H1) as [H0 | [Hw ->]]; [now left | right].
        exists it. split; [now left | now split].
      * right. exists it'. split; [now right | now split].
    + intros it' c [<- | Hin] Hw.
      * destruct (Hcomplete1 c Hw) as [chip Hchip]. exists chip. now apply Hmono'.
      * now apply (Hcomplete' it' c).
Qed.

End Records.

Section UpdateSet.

Variable dog_range : CDogs -> list (N * ptr).
Hypothesis dog_range_entries :
  forall dogs, dog_range dogs ≡ₚ map_to_list (m_mapNumber dogs).

Lemma BuildUpdates_returns (Dogs : CDogs) (Chips : CChips) (w : World) :
  (forall k q, m_mapNumber Dogs !! k = Some q ->
     exists r, CDog_ComputeBirthday (objects w q) = Returns r) ->
  exists w' Chips', BuildUpdates dog_range Dogs Chips w = Returns (w', Chips').
Proof.
  intros Hreturn. unfold BuildUpdates.
  destruct (Assembly.loop_spec (objects w) (dog_range Dogs) w ∅)
    as (w' & Chips' & Hloop & _).
  - intros q. reflexivity.
  - intros [k q] Hin. apply (Hreturn k q).
    rewrite <- list_elem_of_In, (dog_range_entries Dogs) in Hin.
    now apply elem_of_map_to_list in Hin.
  - intros c chip. rewrite lookup_empty. discriminate.
  - eauto.
Qed.

(** X20: the update records are those of the marked dogs whose microchip number
    is accepted, each filed under the number in its final form, whatever
    the collection held before; where two such dogs come to the same number
    there is one record. *)
Theorem BuildUpdates_records (Dogs : CDogs) (Chips : CChips) (w : World) :
  (forall k q, m_mapNumber Dogs !! k = Some q ->
     exists r, CDog_ComputeBirthday (objects w q) = Returns r) ->
  exists w' Chips',
    BuildUpdates dog_range Dogs Chips w = Returns (w', Chips') /\
    (forall c chip,
       CChips_Find Chips' c = Some chip ->
       CChip_m_sMicrochip chip = c /\
       Records.wanted (objects w) (m_pDog chip) c /\
       exists n, CDogs_Find Dogs n = Some (m_pDog chip)) /\
    (forall n p c,
       CDogs_Find Dogs n = Some p -> Records.wanted (objects w) p c ->
       is_Some (CChips_Find Chips' c)).
Proof.
  intros Hreturn.
  destruct (BuildUpdates_returns Dogs Chips w Hreturn) as (w' & Chips' & Hrun).
  exists w', Chips'. split; [exact Hrun|].
  unfold BuildUpdates in Hrun.
  destruct (Records.loop_records (objects w) _ _ _ _ _ (fun q => eq_refl) Hrun)
    as (_ & _ & _ & Hsound & Hcomplete).
  unfold CChips_Find, CDogs_Find. split.
  - intros c chip Hc.
    destruct (Hsound c chip Hc) as [H0 | ([n p] & Hin & Hw & ->)].
    { rewrite lookup_empty in H0. discriminate. }
    cbn [CChip_m_sMicrochip m_pDog snd] in *. repeat split; try apply Hw.
    exists n. rewrite <- list_elem_of_In, (dog_range_entries Dogs) in Hin.
    now apply elem_of_map_to_list in Hin.
  - intros n p c Hp Hw. apply (Hcomplete (n, p) c); [|exact Hw].
    rewrite <- list_elem_of_In, (dog_range_entries Dogs).
    now apply elem_of_map_to_list.
Qed.

(** X21: [BuildUpdates] leaves the record of a dog that is not marked as it is,
    and rewrites in the others nothing but the eight fields that
    [VerifyAll] may rewrite. *)
Theorem BuildUpdates_frame (Dogs : CDogs) (Chips : CChips) (w : World) :
  (forall k q, m_mapNumber Dogs !! k = Some q ->
     exists r, CDog_ComputeBirthday (objects w q) = Returns r) ->
  exists w' Chips',
    BuildUpdates dog_range Dogs Chips w = Returns (w', Chips') /\
    (forall q, IsUpdateRequired (objects w q) = false ->
               objects w' q = objects w q) /\
    (forall q, Contact.other_fields (objects w' q)
               = Contact.other_fields (objects w q)).
Proof.
  intros Hreturn.
  destruct (BuildUpdates_returns Dogs Chips w Hreturn) as (w' & Chips' & Hrun).
  exists w', Chips'. split; [exact Hrun|].
  unfold BuildUpdates in Hrun.
  destruct (Records.loop_records (objects w) _ _ _ _ _ (fun q => eq_refl) Hrun)
    as (Hsame & Hframe & _).
  split; [exact Hframe | exact Hsame].
Qed.

End UpdateSet.

Lemma sample_birthdays k q :
  m_mapNumber sample_new_dogs !! k = Some q ->
  exists r, CDog_ComputeBirthday (objects sample_marked q) = Returns r.
Proof.
  intros _. unfold sample_marked, mark, store. cbn [objects].
  destruct (Pos.eqb q 4); [eexists; vm_compute; reflexivity|].
  destruct q as [[[q|q|]|[q|q|]|]|[[q|q|]|[q|q|]|]|];
    eexists; vm_compute; reflexivity.
Defined.

Lemma BuildUpdates_records_witness :
  exists w' Chips',
    BuildUpdates sample_range sample_new_dogs ∅ sample_marked
    = Returns (w', Chips') /\
    (forall c chip,
       CChips_Find Chips' c = Some chip ->
       CChip_m_sMicrochip chip = c /\
       Records.wanted (objects sample_marked) (m_pDog chip) c /\
       exists n, CDogs_Find sample_new_dogs n = Some (m_pDog chip)) /\
    (forall n p c,
       CDogs_Find sample_new_dogs n = Some p ->
       Records.wanted (objects sample_marked) p c ->
       is_Some (CChips_Find Chips' c)).
Proof.
  apply (BuildUpdates_records sample_range sample_range_entries
           sample_new_dogs ∅ sample_marked).
  exact sample_birthdays.
Defined.

Lemma BuildUpdates_frame_witness :
  exists w' Chips',
    BuildUpdates sample_range sample_new_dogs ∅ sample_marked
    = Returns (w', Chips') /\
    (forall q, IsUpdateRequired (objects sample_marked q) = false ->
               objects w' q = objects sample_marked q) /\
    (forall q, Contact.other_fields (objects w' q)
               = Contact.other_fields (objects sample_marked q)).
Proof.
  apply (BuildUpdates_frame sample_range sample_range_entries
           sample_new_dogs ∅ sample_marked).
  exact sample_birthdays.
Defined.

(** ** The whole of [CompareDogs] (MicrochipUpdate.cpp) *)

Module Review.
Import Passes.

(** The turns of the other five loops, as effects. *)
Definition disappeared_effect (NewDogs : CDogs) (h : heap) (it : N * ptr) : effect :=
  let OldDog := h it.2 in
  match CDogs_Find NewDogs (GetNumber OldDog) with
  | None =>
      if HasChip OldDog
      then complaint OldDog ("has microchip " +:+ GetChip OldDog
                             +:+ " but is not found in new dog report")
      else nothing
  | Some _ => nothing
  end.

Definition unnamed_adopter_effect (h : heap) (it : N * ptr) : effect :=
  let NewDog := h it.2 in
  if String.eqb (GetStatus NewDog) "Adopted" then
    if CRT.empty (GetAdoptionFName NewDog) && CRT.empty (GetAdoptionLName NewDog)
    then complaint NewDog (GetStatus NewDog +:+ " but no adopting party is recorded")
    else nothing
  else nothing.

Definition unadopted_status_effect (h : heap) (it : N * ptr) : effect :=
  let NewDog := h it.2 in
  if negb (CRT.empty (GetAdoptionFName NewDog))
     || negb (CRT.empty (GetAdoptionLName NewDog)) then
    if negb (String.eqb (GetStatus NewDog) "Adopted")
       && negb (String.eqb (GetStatus NewDog) "Adoption Pending") then
      if IsDead NewDog || IsReturned NewDog then nothing
      else complaint NewDog (" adopting party is recorded but status is "
                             +:+ GetStatus NewDog)
    else nothing
  else nothing.

Definition disposition_effect (h : heap) (it : N * ptr) : effect :=
  let NewDog := h it.2 in
  if negb (CRT.empty (GetDispositionDate NewDog)) then
    if String.eqb (GetDispositionDate NewDog) "0000-00-00" then nothing
    else if String.eqb (GetStatus NewDog) "Evaluation"
            || String.eqb (GetStatus NewDog) "Available"
    then complaint NewDog ("disposition date is " +:+ GetDispositionDate NewDog
                           +:+ " but status is " +:+ GetStatus NewDog)
    else nothing
  else nothing.

Definition returned_effect (OldDogs : CDogs) (h : heap) (it : N * ptr) : effect :=
  let NewDog := h it.2 in
  match CDogs_Find OldDogs (GetNumber NewDog) with
  | None => nothing
  | Some pOldDog =>
      if negb (IsAdopted (h pOldDog)) then nothing
      else if negb (IsAdopted NewDog) then
        mkEffect ["dog " +:+ GetName NewDog +:+ " #"
                  +:+ CRT.to_string (GetNumber NewDog)
                  +:+ " was returned to NGRR"] [] true
      else nothing
  end.

Ltac effect_cases :=
  repeat match goal with
  | |- context [if ?b then _ else _] => destruct b
  | |- context [match ?o with Some _ => _ | None => _ end] => destruct o
  end;
  rewrite ?apply_nothing; try reflexivity.

Lemma disappeared_body_effect NewDogs it w :
  disappeared_body NewDogs it w
  = apply_effect it.2 (disappeared_effect NewDogs (objects w) it) w.
Proof. unfold disappeared_body, disappeared_effect. effect_cases. Qed.

Lemma unnamed_adopter_body_effect it w :
  unnamed_adopter_body it w
  = apply_effect it.2 (unnamed_adopter_effect (objects w) it) w.
Proof. unfold unnamed_adopter_body, unnamed_adopter_effect. effect_cases. Qed.

Lemma unadopted_status_body_effect it w :
  unadopted_status_body it w
  = apply_effect it.2 (unadopted_status_effect (objects w) it) w.
Proof. unfold unadopted_status_body, unadopted_status_effect. effect_cases. Qed.

Lemma disposition_body_effect it w :
  disposition_body it w = apply_effect it.2 (disposition_effect (objects w) it) w.
Proof. unfold disposition_body, disposition_effect. effect_cases. Qed.

Lemma returned_body_effect OldDogs it w :
  returned_body OldDogs it w
  = apply_effect it.2 (returned_effect OldDogs (objects w) it) w.
Proof.
  unfold returned_body, returned_effect. effect_cases.
  destruct w as [h [c b]]; unfold apply_effect, mark, say, MSGS; simpl;
    now rewrite app_nil_r.
Qed.

Lemma disappeared_effect_data NewDogs h h' it :
  same_heap h h' ->
  disappeared_effect NewDogs h it = disappeared_effect NewDogs h' it.
Proof.
  intros H. unfold disappeared_effect, complaint, bad_dog_row, bad_dog_line.
  read_same H. reflexivity.
Qed.

Lemma unnamed_adopter_effect_data h h' it :
  same_heap h h' -> unnamed_adopter_effect h it = unnamed_adopter_effect h' it.
Proof.
  intros H. unfold unnamed_adopter_effect, complaint, bad_dog_row, bad_dog_line.
  read_same H. reflexivity.
Qed.

Lemma unadopted_status_effect_data h h' it :
  same_heap h h' -> unadopted_status_effect h it = unadopted_status_effect h' it.
Proof.
  intros H. unfold unadopted_status_effect, complaint, bad_dog_row, bad_dog_line.
  read_same H. reflexivity.
Qed.

Lemma disposition_effect_data h h' it :
  same_heap h h' -> disposition_effect h it = disposition_effect h' it.
Proof.
  intros H. unfold disposition_effect, complaint, bad_dog_row, bad_dog_line.
  read_same H. reflexivity.
Qed.

Lemma returned_effect_data OldDogs h h' it :
  same_heap h h' -> returned_effect OldDogs h it = returned_effect OldDogs h' it.
Proof.
  intros H. unfold returned_effect.
  read_same H. destruct (CDogs_Find OldDogs (GetNumber (h' it.2))); [|reflexivity].
  read_same H. reflexivity.
Qed.

Lemma same_data_sym d d' : same_data d d' -> same_data d' d.
Proof. unfold same_data. congruence. Qed.

Lemma same_heap_trans h1 h2 h3 :
  same_heap h1 h2 -> same_heap h2 h3 -> same_heap h1 h3.
Proof. intros H1 H2 q. exact (same_data_trans _ _ _ (H1 q) (H2 q)). Qed.

(** One loop of [CompareDogs], seen from the records [h0] the comparison
    began with. *)
Lemma pass (eff : heap -> N * ptr -> effect) (body : N * ptr -> World -> World) :
  (forall it w, body it w = apply_effect it.2 (eff (objects w) it) w) ->
  (forall h h' it, same_heap h h' -> eff h it = eff h' it) ->
  forall h0 range w,
    same_heap (objects w) h0 ->
    same_heap (objects (for_each range body w)) h0 /\
    bad_dogs (messages (for_each range body w))
    = bad_dogs (messages w) ++ concat (map (fun it => rows (eff h0 it)) range) /\
    forall q,
      objects (for_each range body w) q
      = if flagged (eff h0) range q
        then SetUpdateRequired (objects w q) else objects w q.
Proof.
  intros Hbody Hdata h0 range w Hsame.
  destruct (for_each_effects eff body Hbody Hdata range w) as [Hrows Hobj].
  assert (Heff : forall it, eff (objects w) it = eff h0 it)
    by (intros it; now apply Hdata).
  split; [|split].
  - intros q. rewrite Hobj.
    destruct (flagged (eff (objects w)) range q); [|apply Hsame].
    eapply same_data_trans; [apply same_data_flag | apply Hsame].
  - rewrite Hrows. f_equal. f_equal. apply map_ext. intros it. now rewrite Heff.
  - intros q. rewrite Hobj. now rewrite (flagged_ext _ _ _ _ Heff).
Qed.

Lemma flagged_none (eff : N * ptr -> effect) range q :
  (forall it, flag (eff it) = false) -> flagged eff range q = false.
Proof.
  intros H. unfold flagged. induction range as [|it range IH]; [reflexivity|].
  cbn [existsb]. now rewrite H, andb_false_r, IH.
Qed.

Lemma flagged_entry (eff : N * ptr -> effect) range q :
  flagged eff range q = true -> exists it, In it range /\ it.2 = q.
Proof.
  unfold flagged. intros H. apply existsb_exists in H as (it & Hin & H).
  apply andb_true_iff in H as [H _]. apply Pos.eqb_eq in H. eauto.
Qed.

Ltac no_flag := intros; cbv beta delta [disappeared_effect unnamed_adopter_effect
  unadopted_status_effect disposition_effect complaint nothing] zeta;
  repeat match goal with
  | |- context [if ?b then _ else _] => destruct b
  | |- context [match ?o with Some _ => _ | None => _ end] => destruct o
  end; reflexivity.

Lemma disappeared_no_flag NewDogs h it : flag (disappeared_effect NewDogs h it) = false.
Proof. no_flag. Qed.
Lemma unnamed_adopter_no_flag h it : flag (unnamed_adopter_effect h it) = false.
Proof. no_flag. Qed.
Lemma unadopted_status_no_flag h it : flag (unadopted_status_effect h it) = false.
Proof. no_flag. Qed.
Lemma disposition_no_flag h it : flag (disposition_effect h it) = false.
Proof. no_flag. Qed.

Lemma SetUpdateRequired_twice d :
  SetUpdateRequired (SetUpdateRequired d) = SetUpdateRequired d.
Proof. reflexivity. Qed.

(** What makes [CompareDogs] mark a dog of the new report: a microchip
    number to register, a new adopter, or a return to the rescue. *)
Definition chip_to_register (OldDogs : CDogs) (h : heap) (p : ptr) : bool :=
  negb (IsDead (h p) || IsReturned (h p)) && negb (CRT.empty (GetChip (h p)))
  && match CDogs_Find OldDogs (GetNumber (h p)) with
     | None => true
     | Some pOldDog => CRT.empty (GetChip (h pOldDog))
     end.

Definition newly_adopted (OldDogs : CDogs) (h : heap) (p : ptr) : bool :=
  negb (IsDead (h p) || IsReturned (h p)) && IsAdopted (h p)
  && match CDogs_Find OldDogs (GetNumber (h p)) with
     | None => true
     | Some pOldDog => negb (IsAdopted (h pOldDog))
     end.

Definition given_back (OldDogs : CDogs) (h : heap) (p : ptr) : bool :=
  negb (IsAdopted (h p))
  && match CDogs_Find OldDogs (GetNumber (h p)) with
     | None => false
     | Some pOldDog => IsAdopted (h pOldDog)
     end.

Definition update_wanted (OldDogs : CDogs) (h : heap) (p : ptr) : bool :=
  chip_to_register OldDogs h p || newly_adopted OldDogs h p
  || given_back OldDogs h p.

Ltac flag_cases :=
  repeat match goal with
  | |- context [if ?b then _ else _] => destruct b; cbn [negb andb orb flag]
  | |- context [match ?o with Some _ => _ | None => _ end] =>
      destruct o; cbn [negb andb orb flag]
  end; try reflexivity.

Lemma acquired_flag OldDogs h n p :
  flag (acquired_effect OldDogs h (n, p)) = chip_to_register OldDogs h p.
Proof.
  unfold acquired_effect, chip_to_register, complaint, nothing. cbn [snd].
  destruct (IsDead (h p) || IsReturned (h p)); cbn [negb andb]; [reflexivity|].
  destruct (CDogs_Find OldDogs (GetNumber (h p))) as [pOldDog|].
  - destruct (CRT.empty (GetChip (h pOldDog))), (CRT.empty (GetChip (h p)));
      cbn [negb andb flag]; try reflexivity;
      now destruct (negb (String.eqb _ _)).
  - now destruct (CRT.empty (GetChip (h p))).
Qed.

Lemma adopted_flag OldDogs h n p :
  flag (adopted_effect OldDogs h (n, p)) = newly_adopted OldDogs h p.
Proof.
  unfold adopted_effect, newly_adopted, complaint, nothing. cbn [snd].
  destruct (IsDead (h p) || IsReturned (h p)); cbn [negb andb]; [reflexivity|].
  destruct (IsAdopted (h p)); cbn [negb andb]; [|reflexivity].
  destruct (CDogs_Find OldDogs (GetNumber (h p))) as [pOldDog|]; [|reflexivity].
  destruct (IsAdopted (h pOldDog)); cbn [negb]; [|reflexivity].
  now destruct (_ || _).
Qed.

Lemma returned_flag OldDogs h n p :
  flag (returned_effect OldDogs h (n, p)) = given_back OldDogs h p.
Proof.
  unfold returned_effect, given_back, nothing. cbn [snd].
  destruct (CDogs_Find OldDogs (GetNumber (h p))) as [pOldDog|];
    [|now rewrite andb_false_r].
  destruct (IsAdopted (h pOldDog)), (IsAdopted (h p)); reflexivity.
Qed.

End Review.

Section WholeComparison.

Variable dog_range : CDogs -> list (N * ptr).
Hypothesis dog_range_entries :
  forall dogs, dog_range dogs ≡ₚ map_to_list (m_mapNumber dogs).

Import Passes Review.

(** The seven loops one after the other: the rows they add in order, and
    the records they leave. *)
Lemma CompareDogs_whole (OldDogs NewDogs : CDogs) (w : World) :
  let h0 := objects w in
  let new := dog_range NewDogs in
  let w' := CompareDogs dog_range OldDogs NewDogs w in
  bad_dogs (messages w')
  = bad_dogs (messages w)
    ++ concat (map (fun it => rows (disappeared_effect NewDogs h0 it))
                 (dog_range OldDogs))
    ++ concat (map (fun it => rows (acquired_effect OldDogs h0 it)) new)
    ++ concat (map (fun it => rows (unnamed_adopter_effect h0 it)) new)
    ++ concat (map (fun it => rows (unadopted_status_effect h0 it)) new)
    ++ concat (map (fun it => rows (disposition_effect h0 it)) new)
    ++ concat (map (fun it => rows (adopted_effect OldDogs h0 it)) new)
    ++ concat (map (fun it => rows (returned_effect OldDogs h0 it)) new) /\
  forall q,
    objects w' q
    = if flagged (acquired_effect OldDogs h0) new q
         || flagged (adopted_effect OldDogs h0) new q
         || flagged (returned_effect OldDogs h0) new q
      then SetUpdateRequired (h0 q) else h0 q.
Proof.
  cbv zeta. unfold CompareDogs.
  set (w0 := say _ w).
  assert (S0 : same_heap (objects w0) (objects w)) by apply same_heap_refl.
  assert (R0 : bad_dogs (messages w0) = bad_dogs (messages w)) by reflexivity.
  assert (O0 : forall q, objects w0 q = objects w q) by reflexivity.
  destruct (pass (disappeared_effect NewDogs) (disappeared_body NewDogs)
              (disappeared_body_effect NewDogs) (disappeared_effect_data NewDogs)
              (objects w) (dog_range OldDogs) w0 S0) as (S1 & R1 & O1).
  set (w1 := for_each (dog_range OldDogs) (disappeared_body NewDogs) w0) in *.
  destruct (pass (acquired_effect OldDogs) (acquired_body OldDogs)
              (acquired_body_effect OldDogs) (acquired_effect_data OldDogs)
              (objects w) (dog_range NewDogs) w1 S1) as (S2 & R2 & O2).
  set (w2 := for_each (dog_range NewDogs) (acquired_body OldDogs) w1) in *.
  destruct (pass unnamed_adopter_effect unnamed_adopter_body
              unnamed_adopter_body_effect unnamed_adopter_effect_data
              (objects w) (dog_range NewDogs) w2 S2) as (S3 & R3 & O3).
  set (w3 := for_each (dog_range NewDogs) unnamed_adopter_body w2) in *.
  destruct (pass unadopted_status_effect unadopted_status_body
              unadopted_status_body_effect unadopted_status_effect_data
              (objects w) (dog_range NewDogs) w3 S3) as (S4 & R4 & O4).
  set (w4 := for_each (dog_range NewDogs) unadopted_status_body w3) in *.
  destruct (pass disposition_effect disposition_body
              disposition_body_effect disposition_effect_data
              (objects w) (dog_range NewDogs) w4 S4) as (S5 & R5 & O5).
  set (w5 := for_each (dog_range NewDogs) disposition_body w4) in *.
  destruct (pass (adopted_effect OldDogs) (adopted_body OldDogs)
              (adopted_body_effect OldDogs) (adopted_effect_data OldDogs)
              (objects w) (dog_range NewDogs) w5 S5) as (S6 & R6 & O6).
  set (w6 := for_each (dog_range NewDogs) (adopted_body OldDogs) w5) in *.
  destruct (pass (returned_effect OldDogs) (returned_body OldDogs)
              (returned_body_effect OldDogs) (returned_effect_data OldDogs)
              (objects w) (dog_range NewDogs) w6 S6) as (S7 & R7 & O7).
  split.
  - rewrite R7, R6, R5, R4, R3, R2, R1, R0. now rewrite <- !app_assoc.
  - intros q. rewrite O7, O6, O5, O4, O3, O2, O1, O0.
    rewrite (flagged_none _ _ q (disappeared_no_flag NewDogs (objects w))).
    rewrite (flagged_none _ _ q (unnamed_adopter_no_flag (objects w))).
    rewrite (flagged_none _ _ q (unadopted_status_no_flag (objects w))).
    rewrite (flagged_none _ _ q (disposition_no_flag (objects w))).
    destruct (flagged (acquired_effect OldDogs (objects w)) (dog_range NewDogs) q),
      (flagged (adopted_effect OldDogs (objects w)) (dog_range NewDogs) q),
      (flagged (returned_effect OldDogs (objects w)) (dog_range NewDogs) q);
      reflexivity.
Qed.

Lemma flagged_dog (eff : N * ptr -> effect) h dogs n p :
  keyed h dogs -> m_mapNumber dogs !! n = Some p ->
  flagged eff (dog_range dogs) p = flag (eff (n, p)).
Proof.
  intros Hkey Hp. destruct (flag (eff (n, p))) eqn:E.
  - now apply (is_flagged dog_range dog_range_entries dogs n p).
  - now apply (not_flagged dog_range dog_range_entries h dogs n p).
Qed.

(** X22: after [CompareDogs] a dog of the new report is marked for an update
    exactly if it was marked before, or it is alive and not returned and has
    a microchip number where the old report has no record or no number of
    it, or it is alive and not returned and has an adopter where the old
    report has no record or no adopter of it, or it has no adopter where the
    old report has one. *)
Theorem CompareDogs_marks (OldDogs NewDogs : CDogs) (w : World) (n : N) (p : ptr) :
  keyed (objects w) NewDogs -> m_mapNumber NewDogs !! n = Some p ->
  let w' := CompareDogs dog_range OldDogs NewDogs w in
  IsUpdateRequired (objects w' p)
  = IsUpdateRequired (objects w p) || update_wanted OldDogs (objects w) p.
Proof.
  intros Hkey Hp. cbv zeta.
  destruct (CompareDogs_whole OldDogs NewDogs w) as [_ Hobj]. cbv zeta in Hobj.
  rewrite Hobj.
  rewrite !(flagged_dog _ (objects w) NewDogs n p Hkey Hp).
  rewrite acquired_flag, adopted_flag, returned_flag.
  fold (update_wanted OldDogs (objects w) p).
  destruct (update_wanted OldDogs (objects w) p);
    [now rewrite orb_true_r | now rewrite orb_false_r].
Qed.

(** X23: [CompareDogs] writes nothing but update flags, and only sets them; the
    records that are not in the new collection, those of the old report
    among them, are left as they are. *)
Theorem CompareDogs_frame (OldDogs NewDogs : CDogs) (w : World) (q : ptr) :
  let w' := CompareDogs dog_range OldDogs NewDogs w in
  same_data (objects w' q) (objects w q) /\
  (IsUpdateRequired (objects w q) = true ->
   IsUpdateRequired (objects w' q) = true) /\
  ((forall n, m_mapNumber NewDogs !! n <> Some q) -> objects w' q = objects w q).
Proof.
  cbv zeta.
  destruct (CompareDogs_whole OldDogs NewDogs w) as [_ Hobj]. cbv zeta in Hobj.
  rewrite Hobj. split; [|split].
  - destruct (_ || _); [apply same_data_flag | apply same_data_refl].
  - intros H. now destruct (_ || _).
  - intros Hq.
    assert (Hno : forall eff, flagged eff (dog_range NewDogs) q = false).
    { intros eff. destruct (flagged eff (dog_range NewDogs) q) eqn:E; [|reflexivity].
      apply flagged_entry in E as ([n p] & Hin & Heq). cbn [snd] in Heq. subst p.
      apply (in_dog_range dog_range dog_range_entries) in Hin.
      now elim (Hq n). }
    now rewrite !Hno.
Qed.


End WholeComparison.

Lemma CompareDogs_marks_witness :
  let w' := CompareDogs sample_range sample_old_dogs sample_new_dogs sample_world in
  IsUpdateRequired (objects w' 2%positive)
  = IsUpdateRequired (objects sample_world 2%positive)
    || Review.update_wanted sample_old_dogs (objects sample_world) 2%positive.
Proof.
  apply (CompareDogs_marks sample_range sample_range_entries sample_old_dogs
           sample_new_dogs sample_world 100 2%positive).
  - exact (Snapshot.number_key _ _
             (Snapshot.add_all_consistent sample_heap [2%positive; 4%positive]
                CDogs_empty no_messages
                (Snapshot.consistent_empty sample_heap))).
  - vm_compute. reflexivity.
Defined.

Lemma CompareDogs_frame_witness :
  let w' := CompareDogs sample_range sample_old_dogs sample_new_dogs sample_world in
  Passes.same_data (objects w' 1%positive) (objects sample_world 1%positive) /\
  (IsUpdateRequired (objects sample_world 1%positive) = true ->
   IsUpdateRequired (objects w' 1%positive) = true) /\
  ((forall n, m_mapNumber sample_new_dogs !! n <> Some 1%positive) ->
   objects w' 1%positive = objects sample_world 1%positive).
Proof.
  apply (CompareDogs_frame sample_range sample_range_entries sample_old_dogs
           sample_new_dogs sample_world 1%positive).
Defined.


(** ** Reading the dog report (Dog.cpp, [CDogs::ReadFile]) *)

Module Kennel.
Import Snapshot Layout.








Lemma FromRow_any_log row fNew log log0 f d l :
  CDog_FromRow row fNew log = Returns (f, d, l) ->
  exists l0, CDog_FromRow row fNew log0 = Returns (f, d, l0).
Proof.
  destruct (Nat.eq_dec (length row) (total fNew)) as [Hlen|Hlen].
  - rewrite !(Intake.FromRow_course _ _ _ Hlen).
    destruct (negb _); [cbv zeta; intros [= <- <- _]; eauto|].
    destruct (or_throw _ _); cbn [mbind outcome_bind]; try discriminate.
    cbv zeta. destruct (_ || _); intros [= <- <- _]; eauto.
  - rewrite (Intake.FromRow_length _ _ _ Hlen). discriminate.
Qed.


(** A row that [FromRow] gets through: the columns of the layout, and a
    dog number, if it is one, that fits an [int]. *)
Definition readable (fNew : bool) (row : CCSVRow) : Prop :=
  length row = total fNew /\
  forall v, numeral (Intake.number_text fNew row) v -> (v <= CRT.INT_MAX)%Z.

Lemma FromRow_readable row fNew log :
  readable fNew row ->
  exists f d log', CDog_FromRow row fNew log = Returns (f, d, log').
Proof.
  intros [Hlen Hfit]. rewrite (Intake.FromRow_course _ _ _ Hlen).
  destruct (matched (regex_match (Intake.number_text fNew row) reNumber)) eqn:Hm;
    cbn [negb]; [|cbv zeta; eauto].
  apply reNumber_spec in Hm as [Hne Hall].
  assert (Hnum : numeral (Intake.number_text fNew row)
                   (CRT.digits_value 0 (Intake.number_text fNew row)))
    by (repeat split; assumption).
  rewrite (Intake.stoi_numeral_cases _ _ Hnum).
  replace (_ <=? CRT.INT_MAX)%Z with true
    by (symmetry; apply Z.leb_le, Hfit, Hnum).
  cbn [or_throw mbind outcome_bind]. cbv zeta.
  destruct (_ || _); eauto.
Qed.

Lemma FromRow_unreadable row fNew log :
  ~ readable fNew row ->
  CDog_FromRow row fNew log
  = if Nat.eqb (length row) (total fNew) then Throws "std::stoi" else AssertFails.
Proof.
  intros Hno. destruct (Nat.eqb_spec (length row) (total fNew)) as [Hlen|Hlen];
    [|now apply Intake.FromRow_length].
  rewrite (Intake.FromRow_course _ _ _ Hlen).
  destruct (matched (regex_match (Intake.number_text fNew row) reNumber)) eqn:Hm;
    cbn [negb].
  - apply reNumber_spec in Hm as [Hne Hall].
    assert (Hnum : numeral (Intake.number_text fNew row)
                     (CRT.digits_value 0 (Intake.number_text fNew row)))
      by (repeat split; assumption).
    rewrite (Intake.stoi_numeral_cases _ _ Hnum).
    destruct (Z.leb_spec (CRT.digits_value 0 (Intake.number_text fNew row))
                CRT.INT_MAX) as [Hle|Hgt]; [|reflexivity].
    elim Hno. split; [exact Hlen|]. now intros v (_ & _ & <-).
  - elim Hno. split; [exact Hlen|]. intros v (Hne & Hall & _).
    rewrite (proj2 (reNumber_spec _) (conj Hne Hall)) in Hm. discriminate.
Qed.

Lemma WasAcquiredAfter_returns d nYear log :
  exists f log', CDog_WasAcquiredAfter d nYear log = Returns (f, log').
Proof.
  unfold CDog_WasAcquiredAfter, CDog_GetDateAcquired.
  destruct (Dates.ParseDate_returns (GetDateAcquired d)) as [r ->].
  cbn [mbind outcome_bind]. destruct r as [[[? ?] ?]|]; eauto.
Qed.


(** One turn of the loop on a readable row goes on with the next row. *)
Lemma loop_turn row csv nYear fNew st :
  readable fNew row ->
  exists st',
    ReadFile_loop (row :: csv) nYear fNew st = ReadFile_loop csv nYear fNew st'.
Proof.
  intros Hr. destruct st as [[[this h] next] log]. cbn [ReadFile_loop].
  destruct (FromRow_readable row fNew log Hr) as (f & d & log1 & ->).
  cbn [mbind outcome_bind]. destruct f; [|eauto].
  destruct (WasAcquiredAfter_returns d nYear log1) as (fAfter & log2 & ->).
  cbn [mbind outcome_bind]. destruct fAfter; [|eauto].
  destruct (CDogs_Add _ this next log2) as [[? this2] log3]. eauto.
Qed.


Lemma loop_stops good bad rest nYear fNew : forall st,
  Forall (readable fNew) good -> ~ readable fNew bad ->
  ReadFile_loop (good ++ bad :: rest) nYear fNew st
  = if Nat.eqb (length bad) (total fNew) then Throws "std::stoi" else AssertFails.
Proof.
  induction good as [|row good IH]; intros st H Hbad.
  - destruct st as [[[this h] next] log]. cbn [app ReadFile_loop].
    rewrite (FromRow_unreadable _ _ _ Hbad). now destruct (Nat.eqb _ _).
  - inversion H as [|? ? Hr H']; subst. cbn [app].
    destruct (loop_turn row (good ++ bad :: rest) nYear fNew st Hr) as [st1 ->].
    now apply IH.
Qed.

Lemma headers_not_empty (fNew : bool) :
  (if fNew then m_sNewColumnHeaders else m_sOldColumnHeaders) <> "".
Proof. now destruct fNew. Qed.

(** What [Read] makes of a file whose lines all end in a newline, when a
    header is expected. *)
Lemma Read_file_lines fuel open sFileName sHeader first data log :
  sHeader <> "" ->
  open sFileName = Some (File.text_of (first :: data)) ->
  Forall (fun line => File.no_newline line = true) (first :: data) ->
  length data < fuel ->
  exists log',
    CCSVFile_Read_file fuel open sFileName sHeader [] log
    = Some (Returns (map CCSVRow_Parse data, log')).
Proof.
  intros Hne Hopen Hlines Hfuel. unfold CCSVFile_Read_file, CCSVFile_Read.
  rewrite Hopen. apply empty_false in Hne. rewrite Hne. cbn [negb].
  inversion Hlines as [|? ? Hfirst Hdata]; subst.
  rewrite (File.Read_line _ _ _ Hfirst).
  rewrite File.Read_loop_lines; [|exact Hdata | exact Hfuel].
  cbn [option_map app]. eauto.
Qed.


End Kennel.

Section ReadingDogs.
Import Snapshot Layout Kennel.

Variable open : string -> option string.
Variables (sFileName first : string) (fNew : bool) (nYear : Z) (fuel : nat).

(** X25: a file with a row that [FromRow] does not get through: [ReadFile] ends
    at the first such row, by the assertion on the number of columns or by
    the exception of [std::stoi]; the rows after it are not looked at. *)
Theorem ReadFile_stops (good : list string) (bad : string) (rest : list string)
    (st : kennel) :
  open sFileName = Some (File.text_of (first :: good ++ bad :: rest)) ->
  Forall (fun line => File.no_newline line = true) (first :: good ++ bad :: rest) ->
  length (good ++ bad :: rest) < fuel ->
  Forall (readable fNew) (map CCSVRow_Parse good) ->
  ~ readable fNew (CCSVRow_Parse bad) ->
  CDogs_ReadFile fuel open sFileName nYear fNew st
  = Some (if Nat.eqb (length (CCSVRow_Parse bad)) (total fNew)
          then Throws "std::stoi" else AssertFails).
Proof.
  intros Hopen Hlines Hfuel Hgood Hbad. destruct st as [[[this h] next] log].
  unfold CDogs_ReadFile.
  destruct (Read_file_lines fuel open sFileName _ first _ log
              (headers_not_empty fNew) Hopen Hlines Hfuel) as [log1 ->].
  cbn [mbind outcome_bind]. f_equal.
  rewrite map_app. cbn [map]. rewrite length_app. cbn [length].
  replace (Nat.eqb _ 0) with false by (symmetry; apply Nat.eqb_neq; lia).
  rewrite (loop_stops _ _ _ nYear fNew _ Hgood Hbad).
  now destruct (Nat.eqb _ _).
Qed.


End ReadingDogs.

(** A report of three dogs: one to take, one with the number 0, one that
    was acquired before the year asked for. *)
Definition sample_dog_lines : list string :=
  [m_sOldColumnHeaders;
   CCSVRow_Format sample_old_row;
   CCSVRow_Format (<[1 := "0"]> sample_old_row);
   CCSVRow_Format (<[10 := "1995-01-01"]> (<[1 := "101"]> sample_old_row))].

Definition sample_reports (name : string) : option string :=
  if String.eqb name "old.csv" then Some (File.text_of sample_dog_lines)
  else None.

Lemma ReadFile_stops_witness :
  CDogs_ReadFile 4 sample_disk "dogs.csv" 2000 false
    (CDogs_empty, sample_heap, 1%positive, no_messages)
  = Some (if Nat.eqb (length (CCSVRow_Parse "Nova,100")) (Layout.total false)
          then Throws "std::stoi" else AssertFails).
Proof.
  apply (ReadFile_stops sample_disk "dogs.csv" "Name,Number" false 2000 4
           [] "Nova,100" ["Rex"]).
  - reflexivity.
  - repeat constructor.
  - simpl. lia.
  - constructor.
  - intros [Hlen _]. discriminate Hlen.
Defined.


(** What the sample report leaves in the collection. *)
Example ReadFile_sample :
  match CDogs_ReadFile 4 sample_reports "old.csv" 2000 false
          (CDogs_empty, sample_heap, 1%positive, no_messages) with
  | Some (Returns (this', h', next', log')) =>
      map_to_list (m_mapNumber this') = [(100%N, 1%positive)] /\
      next' = 4%positive /\
      console log'
      = ["Read 3 rows from old.csv";
         "dog Nova #0 contact Pat Smith - invalid dog number 0";
         "CDogs created, 1 dogs, 1 chips"] /\
      length (bad_dogs log') = 1
  | _ => False
  end.
Proof. vm_compute. repeat split. Qed.
